(** * Grid mock-up generator: layout engine, draw pipeline and pointer
      interaction of [App.tsx] and of the export worker.

    The two renderers ([drawCanvas] in [App.tsx], [drawExportCanvas] in the
    worker) are embedded as functions that return the list of drawing
    operations they issue on the 2D context, in order.  The pointer handlers
    are embedded as functions on the React state of the component.

    Numbers.  A JavaScript [number] is read as a real number: [+ - * /] are
    the field operations of [R], [Math.ceil], [Math.floor], [Math.sqrt],
    [Math.max], [Math.min], [Math.abs], [Math.cos], [Math.sin] are the real
    functions of the same name.  Rounding of doubles, [NaN] and the infinities
    are outside this reading; where the source divides, the layout code
    records the divisor (see [Div]) so that a division by zero, which would
    give [NaN] or an infinity in JavaScript, stays observable.  Array lengths
    and loop indices are natural numbers; [cols], [rows], [col], [row] are
    integers. *)

From Stdlib Require Import Reals Lra Lia ZArith List String Bool.
From Stdlib Require Import Permutation Sorted.
Import ListNotations.

Open Scope R_scope.

(** ** JavaScript number primitives *)

Module Js.

(** [Math.ceil] and [Math.floor], through the integer [up x] of the
    Standard Library ([x < up x <= x + 1]). *)
Definition Math_ceil (x : R) : Z := (1 - up (- x))%Z.
Definition Math_floor (x : R) : Z := (up x - 1)%Z.

Definition Math_abs (x : R) : R := Rabs x.

(** Comparison operators as booleans. *)
Definition ltb (x y : R) : bool := if Rlt_dec x y then true else false.
Definition leb (x y : R) : bool := if Rle_dec x y then true else false.
Definition gtb (x y : R) : bool := ltb y x.
Definition geb (x y : R) : bool := leb y x.

(** [Math.max(a, ...rest)] and [Math.min(a, ...rest)] with at least one
    argument. *)
Definition Math_max (a : R) (rest : list R) : R := fold_left Rmax rest a.
Definition Math_min (a : R) (rest : list R) : R := fold_left Rmin rest a.

(** [v || 0] on an optional number. *)
Definition or0 (v : option R) : R :=
  match v with Some r => r | None => 0 end.

(** Truthiness of an optional string ([undefined], [null] and the empty
    string are falsy). *)
Definition truthy (s : option string) : bool :=
  match s with
  | Some EmptyString => false
  | Some _ => true
  | None => false
  end.

Definition str_eqb (a b : string) : bool := String.eqb a b.

(** [Array.prototype.sort(cmp)]: a stable sort (ECMAScript 2019); [a] is
    placed before [b] when [cmp a b < 0], and elements that compare equal
    keep their order.  Embedded as the stable insertion sort. *)
Section Sort.
Context {A : Type} (cmp : A -> A -> R).

Fixpoint insert (a : A) (l : list A) : list A :=
  match l with
  | [] => [a]
  | b :: l' => if leb (cmp a b) 0 then a :: b :: l' else b :: insert a l'
  end.

Definition sort (l : list A) : list A := fold_right insert [] l.
End Sort.

(** [Array.prototype.find] and [findIndex]. *)
Definition find {A : Type} (p : A -> bool) (l : list A) : option A :=
  List.find p l.

Fixpoint findIndex {A : Type} (p : A -> bool) (l : list A) : option nat :=
  match l with
  | [] => None
  | a :: l' => if p a then Some O else option_map S (findIndex p l')
  end.

(** [arr[i]] where [i] comes from [findIndex] ([-1] reads [undefined]). *)
Definition at_index {A : Type} (l : list A) (i : option nat) : option A :=
  match i with Some k => nth_error l k | None => None end.

End Js.

(** ** Divisions of the layout code

    The [switch (layoutMode)] blocks of both renderers run in the writer
    [Div]: a value together with the divisors of the divisions ([/] and
    [%]) that were evaluated to obtain it, in evaluation order.  These are
    the divisions of the layout computation proper (counts, cell sizes,
    cell origins).  The fit step inside the [drawImage] helper, which
    divides by the cell height and by the picture's aspect ratio, is a pure
    function and is not recorded. *)

Definition Div (A : Type) : Type := (A * list R)%type.

Definition ret {A : Type} (a : A) : Div A := (a, []).

Definition bind {A B : Type} (m : Div A) (f : A -> Div B) : Div B :=
  let r := f (fst m) in (fst r, snd m ++ snd r).

Notation "x <- m ;; k" := (bind m (fun x => k))
  (at level 61, m at next level, right associativity).

Definition value {A : Type} (m : Div A) : A := fst m.
Definition divisors {A : Type} (m : Div A) : list R := snd m.

(** [a / b] *)
Definition divide (a b : R) : Div R := (a / b, [b]).

(** [i % c] on integers *)
Definition modulo (i c : Z) : Div Z := ((i mod c)%Z, [IZR c]).

(** [arr.forEach((x, i) => body)], the operations of each call collected. *)
Fixpoint forEach_from {A B : Type} (i : nat) (l : list A)
    (body : A -> nat -> Div (list B)) : Div (list B) :=
  match l with
  | [] => ret []
  | a :: l' =>
      ops <- body a i ;;
      rest <- forEach_from (S i) l' body ;;
      ret (ops ++ rest)
  end.

Definition forEach {A B : Type} (l : list A)
    (body : A -> nat -> Div (list B)) : Div (list B) :=
  forEach_from O l body.

(** [arr.slice(1)] *)
Definition slice1 {A : Type} (l : list A) : list A := tl l.

(** ** Data model ([types.ts]) *)

Inductive LayoutMode :=
| grid | left_big | right_big | top_big | bottom_big | single_blur | freeform.

Definition LayoutMode_eqb (a b : LayoutMode) : bool :=
  match a, b with
  | grid, grid | left_big, left_big | right_big, right_big
  | top_big, top_big | bottom_big, bottom_big
  | single_blur, single_blur | freeform, freeform => true
  | _, _ => false
  end.

Inductive ImageFit := contain | cover.

(** [ImageState]; the [file] handle is not modelled. *)
Record ImageState := mkImageState {
  id : string;
  url : string;
  x : option R;
  y : option R;
  width : option R;
  height : option R;
  zIndex : option R
}.

Record TextLayer := mkTextLayer {
  tl_id : string;
  text : string;
  tl_x : R;
  tl_y : R;
  fontSize : R;
  fontFamily : string;
  color : string;
  rotation : R;
  shadow : bool;
  backgroundColor : string;
  backgroundOpacity : R;
  padding : R
}.

Inductive WatermarkPosition :=
| top_left | top_right | bottom_left | bottom_right | center.

(** [WatermarkState]; [url] and [file] are not read by the renderers. *)
Record WatermarkState := mkWatermarkState {
  wm_id : string;
  opacity : R;
  size : R;
  position : WatermarkPosition
}.

(** [BackgroundState]: [type] with its [value], the colour string of a
    colour background and the identifier of the uploaded image of an image
    background ([null] after the radio button alone; the image's [url] and
    [file] are read by the loaders only).  The worker's payload has the same
    shape, with the serializable rest of the image. *)
Inductive BackgroundState :=
| BgColor (value : option string)
| BgImage (value : option string).

(** [SerializableImageState = Omit<ImageState, 'url' | 'file'>] *)
Record SerializableImageState := mkSerializable {
  s_id : string;
  s_x : option R;
  s_y : option R;
  s_width : option R;
  s_height : option R;
  s_zIndex : option R
}.

(** A decoded picture ([HTMLImageElement] in the page, [ImageBitmap] in the
    worker): its natural size, and for the page element its [src]. *)
Record Bitmap := mkBitmap {
  src : string;
  bm_width : R;
  bm_height : R
}.

(** *** Worker message ([types.ts]) *)

Record WorkerStatePayload := mkWorkerState {
  w_layoutMode : LayoutMode;
  w_images : list SerializableImageState;
  w_textLayers : list TextLayer;
  w_watermark : option WatermarkState;
  w_background : BackgroundState;
  w_gap : R;
  w_globalZoom : R;
  w_imageFit : ImageFit;
  w_mainZoom : R;
  w_bgBlur : R;
  w_bgOpacity : R
}.

Record WorkerBitmapsPayload := mkWorkerBitmaps {
  b_grid : list Bitmap;
  b_watermark : option Bitmap;
  b_background : option Bitmap
}.

(** [WorkerMessageData]; [canvas] is given by its size. *)
Record WorkerMessageData := mkWorkerMessage {
  canvas_width : R;
  canvas_height : R;
  sourceDimensions_width : R;
  sourceDimensions_height : R;
  state : WorkerStatePayload;
  bitmaps : WorkerBitmapsPayload
}.

(** ** Drawing operations issued on the 2D context *)

Record Rect := mkRect { rx : R; ry : R; rw : R; rh : R }.

(** One text layer as painted: [translate], [rotate], [font], the optional
    background box ([globalAlpha], [fillStyle], [fillRect]), the optional
    shadow ([shadowBlur], [shadowOffsetX], [shadowOffsetY]) and [fillText]. *)
Record TextDraw := mkTextDraw {
  td_x : R;
  td_y : R;
  td_angle : R;
  td_fontSize : R;
  td_fontFamily : string;
  td_box : option (R * string * Rect);
  td_shadow : option (R * R * R);
  td_color : string;
  td_text : string
}.

Inductive DrawOp :=
| ClearRect (r : Rect)
| FillBackground (c : string) (r : Rect)
| DrawBackground (b : Bitmap) (r : Rect)
| Prompt (px py : R)
| ClippedImage (b : Bitmap) (cell render : Rect)
| BackdropTile (blur alpha : R) (b : Bitmap) (r : Rect)
| PlainImage (b : Bitmap) (r : Rect)
| Selection (outline handle : Rect)
| Watermark (b : Bitmap) (alpha : R) (r : Rect)
| Text (t : TextDraw).

(** [arr.map((x, i) => f)] *)
Fixpoint mapi_from {A B : Type} (i : nat) (f : A -> nat -> B) (l : list A)
    : list B :=
  match l with
  | [] => []
  | a :: l' => f a i :: mapi_from (S i) f l'
  end.

Definition mapi {A B : Type} (f : A -> nat -> B) (l : list A) : list B :=
  mapi_from O f l.

(** ** [App.tsx] *)

Module App.

Inductive Mode := idle | dragging | resizing_br.
Inductive Target := target_text | target_image.

Record InteractionState := mkInteraction {
  mode : Mode;
  target : option Target;
  ist_id : option string;
  offsetX : option R;
  offsetY : option R
}.

Definition idle_state : InteractionState :=
  mkInteraction idle None None None None.

(** The React state of [App] read by the renderer and the pointer
    handlers.  The debounced copies that the paint callback depends on
    ([debouncedGap], [debouncedWatermark], ...) are read as the values they
    settle to; [debouncedTextLayers], which it does not depend on, is an
    argument of [drawCanvas]. *)
Record State := mkState {
  images : list ImageState;
  globalZoom : R;
  gap : R;
  layoutMode : LayoutMode;
  imageFit : ImageFit;
  mainZoom : R;
  bgBlur : R;
  bgOpacity : R;
  background : BackgroundState;
  watermark : option WatermarkState;
  textLayers : list TextLayer;
  selectedTextId : option string;
  interactionState : InteractionState;
  selectedImageId : option string;
  loadedGridImages : list Bitmap;
  loadedWatermark : option Bitmap;
  loadedBackgroundImage : option Bitmap
}.

Definition setImages (f : list ImageState -> list ImageState) (s : State)
    : State :=
  mkState (f (images s)) (globalZoom s) (gap s) (layoutMode s) (imageFit s)
    (mainZoom s) (bgBlur s) (bgOpacity s) (background s) (watermark s)
    (textLayers s) (selectedTextId s) (interactionState s)
    (selectedImageId s) (loadedGridImages s) (loadedWatermark s)
    (loadedBackgroundImage s).

Definition setTextLayers (f : list TextLayer -> list TextLayer) (s : State)
    : State :=
  mkState (images s) (globalZoom s) (gap s) (layoutMode s) (imageFit s)
    (mainZoom s) (bgBlur s) (bgOpacity s) (background s) (watermark s)
    (f (textLayers s)) (selectedTextId s) (interactionState s)
    (selectedImageId s) (loadedGridImages s) (loadedWatermark s)
    (loadedBackgroundImage s).

Definition setSelectedTextId (v : option string) (s : State) : State :=
  mkState (images s) (globalZoom s) (gap s) (layoutMode s) (imageFit s)
    (mainZoom s) (bgBlur s) (bgOpacity s) (background s) (watermark s)
    (textLayers s) v (interactionState s)
    (selectedImageId s) (loadedGridImages s) (loadedWatermark s)
    (loadedBackgroundImage s).

Definition setInteractionState (v : InteractionState) (s : State) : State :=
  mkState (images s) (globalZoom s) (gap s) (layoutMode s) (imageFit s)
    (mainZoom s) (bgBlur s) (bgOpacity s) (background s) (watermark s)
    (textLayers s) (selectedTextId s) v
    (selectedImageId s) (loadedGridImages s) (loadedWatermark s)
    (loadedBackgroundImage s).

Definition setSelectedImageId (v : option string) (s : State) : State :=
  mkState (images s) (globalZoom s) (gap s) (layoutMode s) (imageFit s)
    (mainZoom s) (bgBlur s) (bgOpacity s) (background s) (watermark s)
    (textLayers s) (selectedTextId s) (interactionState s)
    v (loadedGridImages s) (loadedWatermark s)
    (loadedBackgroundImage s).

(** [{...img, zIndex: z}], [{...img, x, y}], [{...img, width, height}],
    [{...layer, x, y}] *)
Definition with_zIndex (img : ImageState) (z : R) : ImageState :=
  mkImageState (id img) (url img) (x img) (y img) (width img) (height img)
    (Some z).

Definition with_xy (img : ImageState) (nx ny : R) : ImageState :=
  mkImageState (id img) (url img) (Some nx) (Some ny) (width img)
    (height img) (zIndex img).

Definition with_size (img : ImageState) (nw nh : R) : ImageState :=
  mkImageState (id img) (url img) (x img) (y img) (Some nw) (Some nh)
    (zIndex img).

Definition layer_with_xy (l : TextLayer) (nx ny : R) : TextLayer :=
  mkTextLayer (tl_id l) (text l) nx ny (fontSize l) (fontFamily l)
    (color l) (rotation l) (shadow l) (backgroundColor l)
    (backgroundOpacity l) (padding l).

(** An entry of [event.target.files] with the identifier and object URL
    that [randomUUID] and [createObjectURL] return for it. *)
Record UploadedFile := mkUploadedFile {
  uuid : string;
  objectURL : string
}.

(** [handleImageUpload] *)
Definition handleImageUpload (files : list UploadedFile) (s : State)
    : State :=
  let newImages :=
    mapi (fun file index =>
      mkImageState (uuid file) (objectURL file)
        (Some (50 + INR index * 30))
        (Some (50 + INR index * 30))
        (Some 300)
        (Some 200)
        (Some ((match map (fun i => Js.or0 (zIndex i)) (images s) with
                | z :: zs => Js.Math_max z zs
                | [] => 0
                end) + INR index + 1)))
      files in
  setImages (fun prev => prev ++ newImages) s.

(** [bringToFront], [sendToBack]: the updater passed to [setImages]. *)
Definition bringToFront (id0 : string) (prev : list ImageState)
    : list ImageState :=
  let maxZ := Js.Math_max 0 (map (fun i => Js.or0 (zIndex i)) prev) in
  map (fun img =>
         if Js.str_eqb (id img) id0 then with_zIndex img (maxZ + 1)
         else img) prev.

Definition sendToBack (id0 : string) (prev : list ImageState)
    : list ImageState :=
  let minZ := Js.Math_min 0 (map (fun i => Js.or0 (zIndex i)) prev) in
  map (fun img =>
         if Js.str_eqb (id img) id0 then with_zIndex img (minZ - 1)
         else img) prev.

Definition is_selected (sel : option string) (i : string) : bool :=
  match sel with Some s => Js.str_eqb i s | None => false end.

Section Canvas.

(** [ctx.measureText(text).width] under the font [size px family]. *)
Variable measureText : string -> R -> string -> R.

(** *** [drawCanvas] *)

(** The [drawImage] helper: clip to the cell, fit, draw. *)
Definition drawImage (zoom0 : R) (fit : ImageFit) (img : Bitmap)
    (x y w h extraZoom : R) : DrawOp :=
  let zoom := zoom0 * extraZoom in
  let imgRatio := bm_width img / bm_height img in
  let cellRatio := w / h in
  let byHeight :=
    match fit with
    | cover => Js.gtb imgRatio cellRatio
    | contain => Js.ltb imgRatio cellRatio
    end in
  let renderH := if byHeight then h * zoom else w * zoom / imgRatio in
  let renderW := if byHeight then h * zoom * imgRatio else w * zoom in
  let renderX := x + (w - renderW) / 2 in
  let renderY := y + (h - renderH) / 2 in
  ClippedImage img (mkRect x y w h)
    (mkRect renderX renderY renderW renderH).

(** The [switch (layoutMode)] block. *)
Definition drawLayout (s : State) (W H : R) : Div (list DrawOp) :=
  let gap := gap s in
  let loaded := loadedGridImages s in
  let draw := drawImage (globalZoom s) (imageFit s) in
  match layoutMode s with
  | grid =>
      let cols := Js.Math_ceil (sqrt (INR (List.length loaded))) in
      q <- divide (INR (List.length loaded)) (IZR cols) ;;
      let rows := Js.Math_ceil q in
      cellWidth <- divide (W - IZR (cols + 1) * gap) (IZR cols) ;;
      cellHeight <- divide (H - IZR (rows + 1) * gap) (IZR rows) ;;
      forEach loaded (fun img i =>
        col <- modulo (Z.of_nat i) cols ;;
        r <- divide (INR i) (IZR cols) ;;
        let row := Js.Math_floor r in
        let x := gap + IZR col * (cellWidth + gap) in
        let y := gap + IZR row * (cellHeight + gap) in
        ret [draw img x y cellWidth cellHeight 1])
  | left_big | right_big =>
      let isLeftBig := LayoutMode_eqb (layoutMode s) left_big in
      big <- match loaded with
             | img0 :: _ =>
                 bigX <- (if isLeftBig then ret gap
                          else a <- divide W 2 ;; b <- divide gap 2 ;;
                               ret (a + b)) ;;
                 hw <- divide W 2 ;;
                 let bigW := hw - gap * 1.5 in
                 let bigH := H - gap * 2 in
                 ret [draw img0 bigX gap bigW bigH 1]
             | [] => ret []
             end ;;
      rest <- (if (1 <? List.length loaded)%nat then
                 let gridImages := slice1 loaded in
                 let cols :=
                   Z.max 1
                     (Js.Math_ceil (sqrt (INR (List.length gridImages)))) in
                 q <- divide (INR (List.length gridImages)) (IZR cols) ;;
                 let rows := Z.max 1 (Js.Math_ceil q) in
                 startX <- (if isLeftBig
                            then a <- divide W 2 ;; b <- divide gap 2 ;;
                                 ret (a + b)
                            else ret gap) ;;
                 hw <- divide W 2 ;;
                 let availableWidth := hw - gap * 1.5 in
                 cellWidth <-
                   divide (availableWidth - IZR (cols - 1) * gap)
                     (IZR cols) ;;
                 cellHeight <-
                   divide (H - IZR (rows + 1) * gap) (IZR rows) ;;
                 forEach gridImages (fun img i =>
                   col <- modulo (Z.of_nat i) cols ;;
                   r <- divide (INR i) (IZR cols) ;;
                   let row := Js.Math_floor r in
                   let x := startX + IZR col * (cellWidth + gap) in
                   let y := gap + IZR row * (cellHeight + gap) in
                   ret [draw img x y cellWidth cellHeight 1])
               else ret []) ;;
      ret (big ++ rest)
  | top_big | bottom_big =>
      let isTopBig := LayoutMode_eqb (layoutMode s) top_big in
      big <- match loaded with
             | img0 :: _ =>
                 bigY <- (if isTopBig then ret gap
                          else a <- divide H 2 ;; b <- divide gap 2 ;;
                               ret (a + b)) ;;
                 let bigW := W - gap * 2 in
                 hh <- divide H 2 ;;
                 let bigH := hh - gap * 1.5 in
                 ret [draw img0 gap bigY bigW bigH 1]
             | [] => ret []
             end ;;
      rest <- (if (1 <? List.length loaded)%nat then
                 let gridImages := slice1 loaded in
                 startY <- (if isTopBig
                            then a <- divide H 2 ;; b <- divide gap 2 ;;
                                 ret (a + b)
                            else ret gap) ;;
                 hh <- divide H 2 ;;
                 let gridHeight := hh - gap * 1.5 in
                 let cols :=
                   Z.max 1
                     (Js.Math_ceil (sqrt (INR (List.length gridImages)))) in
                 q <- divide (INR (List.length gridImages)) (IZR cols) ;;
                 let rows := Z.max 1 (Js.Math_ceil q) in
                 cellWidth <-
                   divide (W - IZR (cols + 1) * gap) (IZR cols) ;;
                 cellHeight <-
                   divide (gridHeight - IZR (rows - 1) * gap)
                     (IZR rows) ;;
                 forEach gridImages (fun img i =>
                   col <- modulo (Z.of_nat i) cols ;;
                   r <- divide (INR i) (IZR cols) ;;
                   let row := Js.Math_floor r in
                   let x := gap + IZR col * (cellWidth + gap) in
                   let y := startY + IZR row * (cellHeight + gap) in
                   ret [draw img x y cellWidth cellHeight 1])
               else ret []) ;;
      ret (big ++ rest)
  | single_blur =>
      let bgImages := slice1 loaded in
      backdrop <- (if (0 <? List.length bgImages)%nat then
                     let cols :=
                       Js.Math_ceil (sqrt (INR (List.length bgImages))) in
                     q <- divide (INR (List.length bgImages)) (IZR cols) ;;
                     let rows := Js.Math_ceil q in
                     cellWidth <- divide W (IZR cols) ;;
                     cellHeight <- divide H (IZR rows) ;;
                     forEach bgImages (fun img i =>
                       col <- modulo (Z.of_nat i) cols ;;
                       r <- divide (INR i) (IZR cols) ;;
                       let row := Js.Math_floor r in
                       let x := IZR col * cellWidth in
                       let y := IZR row * cellHeight in
                       ret [BackdropTile (bgBlur s) (bgOpacity s) img
                              (mkRect x y cellWidth cellHeight)])
                   else ret []) ;;
      main <- match loaded with
              | img0 :: _ =>
                  let maxW := W * 0.8 in
                  let maxH := H * 0.9 in
                  cellX <- divide (W - maxW) 2 ;;
                  cellY <- divide (H - maxH) 2 ;;
                  ret [draw img0 cellX cellY maxW maxH (mainZoom s)]
              | [] => ret []
              end ;;
      ret (backdrop ++ main)
  | freeform =>
      let sortedImageStates :=
        Js.sort (fun a b => Js.or0 (zIndex a) - Js.or0 (zIndex b))
          (images s) in
      forEach sortedImageStates (fun imgState _ =>
        let loadedImg :=
          Js.find (fun li => Js.str_eqb (src li) (url imgState)) loaded in
        match loadedImg, x imgState, y imgState,
              width imgState, height imgState with
        | Some li, Some ix, Some iy, Some iw, Some ih =>
            if is_selected (selectedImageId s) (id imgState) then
              let handleSize := 10 in
              hx <- divide handleSize 2 ;;
              hy <- divide handleSize 2 ;;
              ret [PlainImage li (mkRect ix iy iw ih);
                   Selection (mkRect ix iy iw ih)
                     (mkRect (ix + iw - hx) (iy + ih - hy)
                        handleSize handleSize)]
            else ret [PlainImage li (mkRect ix iy iw ih)]
        | _, _, _, _, _ => ret []
        end)
  end.

(** Stage 3, the watermark. *)
Definition drawWatermark (s : State) (W H : R) : list DrawOp :=
  match watermark s, loadedWatermark s with
  | Some wm, Some bmp =>
      let aspect := bm_width bmp / bm_height bmp in
      let w := W / 100 * size wm in
      let h := w / aspect in
      let margin := gap s in
      let xy :=
        match position wm with
        | top_left => (margin, margin)
        | top_right => (W - w - margin, margin)
        | bottom_left => (margin, H - h - margin)
        | bottom_right => (W - w - margin, H - h - margin)
        | center => ((W - w) / 2, (H - h) / 2)
        end in
      [Watermark bmp (opacity wm) (mkRect (fst xy) (snd xy) w h)]
  | _, _ => []
  end.

(** Stage 4, one text layer. *)
Definition drawTextLayer (layer : TextLayer) : DrawOp :=
  Text
    (mkTextDraw (tl_x layer) (tl_y layer)
       (rotation layer * PI / 180)
       (fontSize layer) (fontFamily layer)
       (if Js.gtb (backgroundOpacity layer) 0 then
          let metrics_width :=
            measureText (text layer) (fontSize layer)
              (fontFamily layer) in
          let rectW := metrics_width + padding layer * 2 in
          let rectH := fontSize layer + padding layer * 2 in
          let rectX := - rectW / 2 in
          let rectY := - rectH / 2 in
          Some (backgroundOpacity layer, backgroundColor layer,
                mkRect rectX rectY rectW rectH)
        else None)
       (if shadow layer then Some (10, 5, 5) else None)
       (color layer) (text layer)).

Definition backgroundFill (bg : BackgroundState) : string :=
  match bg with
  | BgColor v => if Js.truthy v
                 then match v with Some c => c | None => "#F3F4F6" end
                 else "#F3F4F6"
  | BgImage _ => "#F3F4F6"
  end.

(** [drawCanvas] on a canvas of [W] by [H] pixels.
    [debouncedTextLayers] is the debounced copy of [textLayers] as the
    memoised callback holds it: the dependency list of [useCallback] names
    [textLayers] and not the copy, so the callback is rebuilt when the
    layers change and keeps the copy of that render, which lags behind.
    Only the test for the upload prompt reads it; the layers painted are
    [textLayers]. *)
Definition drawCanvas (s : State) (debouncedTextLayers : list TextLayer)
    (W H : R) : list DrawOp :=
  ClearRect (mkRect 0 0 W H)
  :: match background s, loadedBackgroundImage s with
     | BgImage _, Some b => DrawBackground b (mkRect 0 0 W H)
     | bg, _ => FillBackground (backgroundFill bg) (mkRect 0 0 W H)
     end
  :: if (List.length (images s) =? 0)%nat
        && (List.length debouncedTextLayers =? 0)%nat
        && match watermark s with Some _ => false | None => true end
     then [Prompt (W / 2) (H / 2)]
     else value (drawLayout s W H)
          ++ drawWatermark s W H
          ++ map drawTextLayer (textLayers s).

(** *** Pointer handlers *)

(** The body of the text hit-test loop of [handleMouseDown] for one
    layer. *)
Definition hitsText (layer : TextLayer) (mouseX mouseY : R) : bool :=
  let textMetrics_width :=
    measureText (text layer) (fontSize layer) (fontFamily layer) in
  let textWidth := textMetrics_width + padding layer * 2 in
  let textHeight := fontSize layer + padding layer * 2 in
  let angle := rotation layer * PI / 180 in
  let cos := cos (- angle) in
  let sin := sin (- angle) in
  let dx := mouseX - tl_x layer in
  let dy := mouseY - tl_y layer in
  let rotatedX := dx * cos - dy * sin in
  let rotatedY := dx * sin + dy * cos in
  Js.ltb (Js.Math_abs rotatedX) (textWidth / 2)
  && Js.ltb (Js.Math_abs rotatedY) (textHeight / 2).

(** [for (let i = textLayers.length - 1; i >= 0; i--)]: the first layer
    hit, from the last index down. *)
Definition hitTextLayer (layers : list TextLayer) (mouseX mouseY : R)
    : option TextLayer :=
  List.find (fun layer => hitsText layer mouseX mouseY) (rev layers).

(** [for (const img of sortedImages)] with its [continue] and [break]:
    the clicked image and the click mode, if any. *)
Fixpoint scanImages (sel : option string) (mouseX mouseY : R)
    (sortedImages : list ImageState) : option (ImageState * Mode) :=
  match sortedImages with
  | [] => None
  | img :: rest =>
      match x img, y img, width img, height img with
      | Some ix, Some iy, Some iw, Some ih =>
          let handleSize := 12 in
          let brHandleX := ix + iw in
          let brHandleY := iy + ih in
          if is_selected sel (id img)
             && (Js.geb mouseX (brHandleX - handleSize)
                 && Js.leb mouseX (brHandleX + handleSize)
                 && Js.geb mouseY (brHandleY - handleSize)
                 && Js.leb mouseY (brHandleY + handleSize))
          then Some (img, resizing_br)
          else if Js.gtb mouseX ix && Js.ltb mouseX (ix + iw)
                  && Js.gtb mouseY iy && Js.ltb mouseY (iy + ih)
          then Some (img, dragging)
          else scanImages sel mouseX mouseY rest
      | _, _, _, _ => scanImages sel mouseX mouseY rest
      end
  end.

(** [handleMouseDown] at canvas coordinates [(mouseX, mouseY)]. *)
Definition handleMouseDown (mouseX mouseY : R) (s : State) : State :=
  match hitTextLayer (textLayers s) mouseX mouseY with
  | Some layer =>
      setInteractionState
        (mkInteraction dragging (Some target_text) (Some (tl_id layer))
           (Some (mouseX - tl_x layer)) (Some (mouseY - tl_y layer)))
        (setSelectedImageId None
           (setSelectedTextId (Some (tl_id layer)) s))
  | None =>
      if LayoutMode_eqb (layoutMode s) freeform then
        let sortedImages :=
          Js.sort (fun a b => Js.or0 (zIndex b) - Js.or0 (zIndex a))
            (images s) in
        let s1 := setSelectedTextId None s in
        match scanImages (selectedImageId s) mouseX mouseY
                sortedImages with
        | Some (clickedImage, clickMode) =>
            let s2 :=
              if is_selected (selectedImageId s) (id clickedImage)
              then s1
              else setSelectedImageId (Some (id clickedImage)) s1 in
            let s3 :=
              match clickMode with
              | dragging => setImages (bringToFront (id clickedImage)) s2
              | _ => s2
              end in
            setInteractionState
              (mkInteraction clickMode (Some target_image)
                 (Some (id clickedImage))
                 (option_map (fun ix => mouseX - ix) (x clickedImage))
                 (option_map (fun iy => mouseY - iy) (y clickedImage)))
              s3
        | None =>
            setInteractionState idle_state (setSelectedImageId None s1)
        end
      else setSelectedTextId None (setSelectedImageId None s)
  end.

(** [handleMouseMove]: the state update run in the animation frame (the
    cursor style it also sets is not part of the state). *)
Definition handleMouseMove (mouseX mouseY : R) (s : State) : State :=
  let st := interactionState s in
  match mode st with
  | idle => s
  | _ =>
      match target st with
      | Some target_text =>
          if Js.truthy (ist_id st) then
            setTextLayers
              (map (fun layer =>
                 if is_selected (ist_id st) (tl_id layer)
                 then layer_with_xy layer
                        (mouseX - Js.or0 (offsetX st))
                        (mouseY - Js.or0 (offsetY st))
                 else layer)) s
          else s
      | Some target_image =>
          if Js.truthy (ist_id st) then
            setImages
              (map (fun img =>
                 if negb (is_selected (ist_id st) (id img)) then img
                 else
                   match mode st with
                   | dragging =>
                       with_xy img
                         (mouseX - Js.or0 (offsetX st))
                         (mouseY - Js.or0 (offsetY st))
                   | resizing_br =>
                       match x img, y img with
                       | Some ix, Some iy =>
                           let newWidth :=
                             Js.Math_max 20 [mouseX - ix] in
                           let newHeight :=
                             Js.Math_max 20 [mouseY - iy] in
                           with_size img newWidth newHeight
                       | _, _ => img
                       end
                   | idle => img
                   end)) s
          else s
      | None => s
      end
  end.

(** [handleMouseUp] (also bound to [onMouseLeave]). *)
Definition handleMouseUp (s : State) : State :=
  setInteractionState idle_state s.

End Canvas.

(** Pointer events on the canvas. *)
Inductive Event :=
| MouseDown (mouseX mouseY : R)
| MouseMove (mouseX mouseY : R)
| MouseUp.

Definition step (measureText : string -> R -> string -> R) (e : Event)
    (s : State) : State :=
  match e with
  | MouseDown mx my => handleMouseDown measureText mx my s
  | MouseMove mx my => handleMouseMove mx my s
  | MouseUp => handleMouseUp s
  end.

(** [handleExport]: the message posted to the worker.  [imageBitmaps],
    [watermarkBitmap] and [backgroundBitmap] are what [createImageBitmap]
    resolves to; [W] and [H] are the size of the on-screen canvas. *)
Definition serializableImage (img : ImageState) : SerializableImageState :=
  mkSerializable (id img) (x img) (y img) (width img) (height img)
    (zIndex img).

(** An image background with a value keeps its type; every other
    background is posted as [{ type: 'color', value: background.value }]. *)
Definition serializableBackground (bg : BackgroundState)
    : BackgroundState :=
  match bg with
  | BgImage (Some i) => BgImage (Some i)
  | BgImage None => BgColor None
  | BgColor v => BgColor v
  end.

Definition workerState (s : State) : WorkerStatePayload :=
  mkWorkerState (layoutMode s) (map serializableImage (images s))
    (textLayers s) (watermark s) (serializableBackground (background s))
    (gap s) (globalZoom s) (imageFit s) (mainZoom s) (bgBlur s)
    (bgOpacity s).

Definition handleExport (s : State) (W H : R)
    (imageBitmaps : list Bitmap)
    (watermarkBitmap backgroundBitmap : option Bitmap)
    : WorkerMessageData :=
  mkWorkerMessage 2000 1500 W H (workerState s)
    (mkWorkerBitmaps imageBitmaps
       (match watermark s with
        | Some _ => watermarkBitmap
        | None => None
        end)
       (match background s with
        | BgImage (Some _) => backgroundBitmap
        | _ => None
        end)).

(** *** Text layer management *)

(** [addTextLayer]; [newId] is what [randomUUID] returns and [canvas] the
    size of [canvasRef.current] when there is one. *)
Definition addTextLayer (newId : string) (canvas : option (R * R))
    (s : State) : State :=
  let newLayer :=
    mkTextLayer newId "New Text"
      (match canvas with Some (w, _) => w / 2 | None => 400 end)
      (match canvas with Some (_, h) => h / 2 | None => 300 end)
      48 "Montserrat" "#FFFFFF" 0 true "#000000" 0.5 10 in
  setSelectedTextId (Some newId)
    (setTextLayers (fun prev => prev ++ [newLayer]) s).

(** [deleteTextLayer] *)
Definition deleteTextLayer (id0 : string) (s : State) : State :=
  let s1 :=
    setTextLayers
      (filter (fun layer => negb (Js.str_eqb (tl_id layer) id0))) s in
  if is_selected (selectedTextId s) id0 then setSelectedTextId None s1
  else s1.

(** [selectedLayer] and [selectedImage] (the two [useMemo] lookups). *)
Definition selectedLayer (s : State) : option TextLayer :=
  if Js.truthy (selectedTextId s) then
    Js.find (fun layer => is_selected (selectedTextId s) (tl_id layer))
      (textLayers s)
  else None.

Definition selectedImage (s : State) : option ImageState :=
  if Js.truthy (selectedImageId s) then
    Js.find (fun img => is_selected (selectedImageId s) (id img)) (images s)
  else None.

(** The [onClick] of an entry of the text layer list. *)
Definition selectTextLayer (id0 : string) (s : State) : State :=
  setSelectedImageId None (setSelectedTextId (Some id0) s).

(** *** Thumbnails *)

(** The [onClick] of a thumbnail. *)
Definition thumbnailClick (id0 : string) (s : State) : State :=
  if LayoutMode_eqb (layoutMode s) freeform then
    setImages (bringToFront id0) (setSelectedImageId (Some id0) s)
  else s.

(** The [onClick] of the bin button of a thumbnail. *)
Definition removeImage (id0 : string) (s : State) : State :=
  let s1 :=
    if is_selected (selectedImageId s) id0 then setSelectedImageId None s
    else s in
  setImages
    (fun _ => filter (fun i => negb (Js.str_eqb (id i) id0)) (images s)) s1.

(** [arr.splice(k, 1)] and [arr.splice(k, 0, a)] on a copy. *)
Definition splice_remove {A : Type} (k : nat) (l : list A) : list A :=
  firstn k l ++ skipn (S k) l.

Definition splice_insert {A : Type} (k : nat) (a : A) (l : list A)
    : list A :=
  firstn k l ++ a :: skipn k l.

(** [handleDrop] on the thumbnail [targetId]; [draggedId] is the state set
    by [handleDragStart].  The result is the new [draggedId] and the new
    state. *)
Definition handleDrop (targetId : string) (draggedId : option string)
    (s : State) : option string * State :=
  if negb (Js.truthy draggedId) then (draggedId, s)
  else
    let draggedIndex :=
      Js.findIndex (fun img => is_selected draggedId (id img)) (images s) in
    let targetIndex :=
      Js.findIndex (fun img => Js.str_eqb (id img) targetId) (images s) in
    (None,
     match draggedIndex, targetIndex with
     | Some d, Some t =>
         match nth_error (images s) d with
         | Some draggedItem =>
             setImages
               (fun _ =>
                  splice_insert t draggedItem (splice_remove d (images s)))
               s
         | None => s
         end
     | _, _ => s
     end).

(** *** Editing the selected text layer *)

(** [Partial<TextLayer>]: the properties an update carries. *)
Record LayerProps := mkLayerProps {
  p_id : option string;
  p_text : option string;
  p_x : option R;
  p_y : option R;
  p_fontSize : option R;
  p_fontFamily : option string;
  p_color : option string;
  p_rotation : option R;
  p_shadow : option bool;
  p_backgroundColor : option string;
  p_backgroundOpacity : option R;
  p_padding : option R
}.

Definition over {A : Type} (old : A) (new : option A) : A :=
  match new with Some v => v | None => old end.

(** [{ ...layer, ...props }] *)
Definition spread (layer : TextLayer) (props : LayerProps) : TextLayer :=
  mkTextLayer (over (tl_id layer) (p_id props))
    (over (text layer) (p_text props))
    (over (tl_x layer) (p_x props))
    (over (tl_y layer) (p_y props))
    (over (fontSize layer) (p_fontSize props))
    (over (fontFamily layer) (p_fontFamily props))
    (over (color layer) (p_color props))
    (over (rotation layer) (p_rotation props))
    (over (shadow layer) (p_shadow props))
    (over (backgroundColor layer) (p_backgroundColor props))
    (over (backgroundOpacity layer) (p_backgroundOpacity props))
    (over (padding layer) (p_padding props)).

(** [updateSelectedLayer] *)
Definition updateSelectedLayer (props : LayerProps) (s : State) : State :=
  if negb (Js.truthy (selectedTextId s)) then s
  else
    setTextLayers
      (map (fun layer =>
              if is_selected (selectedTextId s) (tl_id layer)
              then spread layer props
              else layer)) s.

(** The two buttons of the free-placement panel, which is rendered when
    [layoutMode === 'freeform' && selectedImage]. *)
Definition frontButton (s : State) : State :=
  match selectedImage s with
  | Some img =>
      if LayoutMode_eqb (layoutMode s) freeform
      then setImages (bringToFront (id img)) s
      else s
  | None => s
  end.

Definition backButton (s : State) : State :=
  match selectedImage s with
  | Some img =>
      if LayoutMode_eqb (layoutMode s) freeform
      then setImages (sendToBack (id img)) s
      else s
  | None => s
  end.

Definition setLayoutMode (m : LayoutMode) (s : State) : State :=
  mkState (images s) (globalZoom s) (gap s) m (imageFit s)
    (mainZoom s) (bgBlur s) (bgOpacity s) (background s) (watermark s)
    (textLayers s) (selectedTextId s) (interactionState s)
    (selectedImageId s) (loadedGridImages s) (loadedWatermark s)
    (loadedBackgroundImage s).

(** *** Cursor feedback *)

Inductive Cursor :=
| cursor_default | cursor_grab | cursor_grabbing | cursor_nwse_resize.

(** The [canvas.style.cursor] that the animation frame of
    [handleMouseMove] sets. *)
Definition cursorOnMove (mouseX mouseY : R) (s : State) : Cursor :=
  match mode (interactionState s) with
  | idle =>
      if LayoutMode_eqb (layoutMode s) freeform then
        let onHandle :=
          if Js.truthy (selectedImageId s) then
            match Js.find
                    (fun i => is_selected (selectedImageId s) (id i))
                    (images s) with
            | Some img =>
                match x img, y img, width img, height img with
                | Some ix, Some iy, Some iw, Some ih =>
                    let handleSize := 12 in
                    let brHandleX := ix + iw in
                    let brHandleY := iy + ih in
                    Js.geb mouseX (brHandleX - handleSize)
                    && Js.leb mouseX (brHandleX + handleSize)
                    && Js.geb mouseY (brHandleY - handleSize)
                    && Js.leb mouseY (brHandleY + handleSize)
                | _, _, _, _ => false
                end
            | None => false
            end
          else false in
        if onHandle then cursor_nwse_resize else cursor_grab
      else cursor_default
  | resizing_br => cursor_nwse_resize
  | dragging => cursor_grabbing
  end.

(** The cursor that [handleMouseUp] sets. *)
Definition cursorOnUp (s : State) : Cursor :=
  if LayoutMode_eqb (layoutMode s) freeform then cursor_grab
  else cursor_default.

End App.

(** ** The export worker *)

Module Worker.

Section Canvas.

Variable measureText : string -> R -> string -> R.

(** The worker's own [drawImage] helper. *)
Definition drawImage (globalZoom : R) (imageFit : ImageFit)
    (img : Bitmap) (x y w h extraZoom : R) : DrawOp :=
  let zoom := globalZoom * extraZoom in
  let imgRatio := bm_width img / bm_height img in
  let cellRatio := w / h in
  let byHeight :=
    match imageFit with
    | cover => Js.gtb imgRatio cellRatio
    | contain => Js.ltb imgRatio cellRatio
    end in
  let renderH := if byHeight then h * zoom else w * zoom / imgRatio in
  let renderW := if byHeight then h * zoom * imgRatio else w * zoom in
  let renderX := x + (w - renderW) / 2 in
  let renderY := y + (h - renderH) / 2 in
  ClippedImage img (mkRect x y w h)
    (mkRect renderX renderY renderW renderH).

(** The [switch (layoutMode)] block of [drawExportCanvas]. *)
Definition drawLayout (EXPORT_WIDTH EXPORT_HEIGHT scaleX scaleY : R)
    (st : WorkerStatePayload) (bm : WorkerBitmapsPayload)
    : Div (list DrawOp) :=
  let layoutMode := w_layoutMode st in
  let images := w_images st in
  let draw := drawImage (w_globalZoom st) (w_imageFit st) in
  let exportGapX := w_gap st * scaleX in
  let exportGapY := w_gap st * scaleY in
  let loadedGridImages := b_grid bm in
  match layoutMode with
  | grid =>
      let cols :=
        Js.Math_ceil (sqrt (INR (List.length loadedGridImages))) in
      q <- divide (INR (List.length loadedGridImages)) (IZR cols) ;;
      let rows := Js.Math_ceil q in
      cellWidth <-
        divide (EXPORT_WIDTH - IZR (cols + 1) * exportGapX) (IZR cols) ;;
      cellHeight <-
        divide (EXPORT_HEIGHT - IZR (rows + 1) * exportGapY)
          (IZR rows) ;;
      forEach loadedGridImages (fun img i =>
        col <- modulo (Z.of_nat i) cols ;;
        r <- divide (INR i) (IZR cols) ;;
        let row := Js.Math_floor r in
        let x := exportGapX + IZR col * (cellWidth + exportGapX) in
        let y := exportGapY + IZR row * (cellHeight + exportGapY) in
        ret [draw img x y cellWidth cellHeight 1])
  | left_big | right_big =>
      let isLeftBig := LayoutMode_eqb layoutMode left_big in
      big <- match loadedGridImages with
             | img0 :: _ =>
                 bigX <- (if isLeftBig then ret exportGapX
                          else a <- divide EXPORT_WIDTH 2 ;;
                               b <- divide exportGapX 2 ;;
                               ret (a + b)) ;;
                 hw <- divide EXPORT_WIDTH 2 ;;
                 let bigW := hw - exportGapX * 1.5 in
                 let bigH := EXPORT_HEIGHT - exportGapY * 2 in
                 ret [draw img0 bigX exportGapY bigW bigH 1]
             | [] => ret []
             end ;;
      rest <- (if (1 <? List.length loadedGridImages)%nat then
                 let gridImages := slice1 loadedGridImages in
                 let cols :=
                   Z.max 1
                     (Js.Math_ceil
                        (sqrt (INR (List.length gridImages)))) in
                 q <- divide (INR (List.length gridImages))
                        (IZR cols) ;;
                 let rows := Z.max 1 (Js.Math_ceil q) in
                 startX <- (if isLeftBig
                            then a <- divide EXPORT_WIDTH 2 ;;
                                 b <- divide exportGapX 2 ;;
                                 ret (a + b)
                            else ret exportGapX) ;;
                 hw <- divide EXPORT_WIDTH 2 ;;
                 let availableWidth := hw - exportGapX * 1.5 in
                 cellWidth <-
                   divide (availableWidth - IZR (cols - 1) * exportGapX)
                     (IZR cols) ;;
                 cellHeight <-
                   divide (EXPORT_HEIGHT - IZR (rows + 1) * exportGapY)
                     (IZR rows) ;;
                 forEach gridImages (fun img i =>
                   col <- modulo (Z.of_nat i) cols ;;
                   r <- divide (INR i) (IZR cols) ;;
                   let row := Js.Math_floor r in
                   let x :=
                     startX + IZR col * (cellWidth + exportGapX) in
                   let y :=
                     exportGapY + IZR row * (cellHeight + exportGapY) in
                   ret [draw img x y cellWidth cellHeight 1])
               else ret []) ;;
      ret (big ++ rest)
  | top_big | bottom_big =>
      let isTopBig := LayoutMode_eqb layoutMode top_big in
      big <- match loadedGridImages with
             | img0 :: _ =>
                 bigY <- (if isTopBig then ret exportGapY
                          else a <- divide EXPORT_HEIGHT 2 ;;
                               b <- divide exportGapY 2 ;;
                               ret (a + b)) ;;
                 let bigW := EXPORT_WIDTH - exportGapX * 2 in
                 hh <- divide EXPORT_HEIGHT 2 ;;
                 let bigH := hh - exportGapY * 1.5 in
                 ret [draw img0 exportGapX bigY bigW bigH 1]
             | [] => ret []
             end ;;
      rest <- (if (1 <? List.length loadedGridImages)%nat then
                 let gridImages := slice1 loadedGridImages in
                 startY <- (if isTopBig
                            then a <- divide EXPORT_HEIGHT 2 ;;
                                 b <- divide exportGapY 2 ;;
                                 ret (a + b)
                            else ret exportGapY) ;;
                 hh <- divide EXPORT_HEIGHT 2 ;;
                 let gridHeight := hh - exportGapY * 1.5 in
                 let cols :=
                   Z.max 1
                     (Js.Math_ceil
                        (sqrt (INR (List.length gridImages)))) in
                 q <- divide (INR (List.length gridImages))
                        (IZR cols) ;;
                 let rows := Z.max 1 (Js.Math_ceil q) in
                 cellWidth <-
                   divide (EXPORT_WIDTH - IZR (cols + 1) * exportGapX)
                     (IZR cols) ;;
                 cellHeight <-
                   divide (gridHeight - IZR (rows - 1) * exportGapY)
                     (IZR rows) ;;
                 forEach gridImages (fun img i =>
                   col <- modulo (Z.of_nat i) cols ;;
                   r <- divide (INR i) (IZR cols) ;;
                   let row := Js.Math_floor r in
                   let x :=
                     exportGapX + IZR col * (cellWidth + exportGapX) in
                   let y :=
                     startY + IZR row * (cellHeight + exportGapY) in
                   ret [draw img x y cellWidth cellHeight 1])
               else ret []) ;;
      ret (big ++ rest)
  | single_blur =>
      let bgImages := slice1 loadedGridImages in
      backdrop <- (if (0 <? List.length bgImages)%nat then
                     let cols :=
                       Js.Math_ceil
                         (sqrt (INR (List.length bgImages))) in
                     q <- divide (INR (List.length bgImages))
                            (IZR cols) ;;
                     let rows := Js.Math_ceil q in
                     cellWidth <- divide EXPORT_WIDTH (IZR cols) ;;
                     cellHeight <- divide EXPORT_HEIGHT (IZR rows) ;;
                     forEach bgImages (fun img i =>
                       col <- modulo (Z.of_nat i) cols ;;
                       r <- divide (INR i) (IZR cols) ;;
                       let row := Js.Math_floor r in
                       ret [BackdropTile (w_bgBlur st * scaleX)
                              (w_bgOpacity st) img
                              (mkRect (IZR col * cellWidth)
                                 (IZR row * cellHeight)
                                 cellWidth cellHeight)])
                   else ret []) ;;
      main <- match loadedGridImages with
              | img0 :: _ =>
                  let maxW := EXPORT_WIDTH * 0.8 in
                  let maxH := EXPORT_HEIGHT * 0.9 in
                  cellX <- divide (EXPORT_WIDTH - maxW) 2 ;;
                  cellY <- divide (EXPORT_HEIGHT - maxH) 2 ;;
                  ret [draw img0 cellX cellY maxW maxH (w_mainZoom st)]
              | [] => ret []
              end ;;
      ret (backdrop ++ main)
  | freeform =>
      let sortedImageStates :=
        Js.sort (fun a b => Js.or0 (s_zIndex a) - Js.or0 (s_zIndex b))
          images in
      forEach sortedImageStates (fun imgState index =>
        let loadedImg :=
          Js.at_index loadedGridImages
            (Js.findIndex
               (fun i => Js.str_eqb (s_id i) (s_id imgState)) images) in
        match loadedImg, s_x imgState, s_y imgState,
              s_width imgState, s_height imgState with
        | Some li, Some ix, Some iy, Some iw, Some ih =>
            ret [PlainImage li
                   (mkRect (ix * scaleX) (iy * scaleY)
                      (iw * scaleX) (ih * scaleY))]
        | _, _, _, _, _ => ret []
        end)
  end.

(** Stage 3, the watermark. *)
Definition drawWatermark (EXPORT_WIDTH EXPORT_HEIGHT scaleX scaleY : R)
    (st : WorkerStatePayload) (bm : WorkerBitmapsPayload)
    : list DrawOp :=
  match w_watermark st, b_watermark bm with
  | Some wm, Some bmp =>
      let aspect := bm_width bmp / bm_height bmp in
      let w := EXPORT_WIDTH / 100 * size wm in
      let h := w / aspect in
      let marginX := w_gap st * scaleX in
      let marginY := w_gap st * scaleY in
      let xy :=
        match position wm with
        | top_left => (marginX, marginY)
        | top_right => (EXPORT_WIDTH - w - marginX, marginY)
        | bottom_left => (marginX, EXPORT_HEIGHT - h - marginY)
        | bottom_right =>
            (EXPORT_WIDTH - w - marginX, EXPORT_HEIGHT - h - marginY)
        | center => ((EXPORT_WIDTH - w) / 2, (EXPORT_HEIGHT - h) / 2)
        end in
      [Watermark bmp (opacity wm) (mkRect (fst xy) (snd xy) w h)]
  | _, _ => []
  end.

(** Stage 4, one text layer (the font string quotes the family name,
    which names the same family). *)
Definition drawTextLayer (scaleX scaleY : R) (layer : TextLayer)
    : DrawOp :=
  let scaledFontSize := fontSize layer * scaleY in
  let scaledPadding := padding layer * scaleY in
  Text
    (mkTextDraw (tl_x layer * scaleX) (tl_y layer * scaleY)
       (rotation layer * PI / 180)
       scaledFontSize (fontFamily layer)
       (if Js.gtb (backgroundOpacity layer) 0 then
          let metrics_width :=
            measureText (text layer) scaledFontSize
              (fontFamily layer) in
          let rectW := metrics_width + scaledPadding * 2 in
          let rectH := scaledFontSize + scaledPadding * 2 in
          Some (backgroundOpacity layer, backgroundColor layer,
                mkRect (- rectW / 2) (- rectH / 2) rectW rectH)
        else None)
       (if shadow layer
        then Some (10 * scaleY, 5 * scaleX, 5 * scaleY)
        else None)
       (color layer) (text layer)).

(** [drawExportCanvas] *)
Definition drawExportCanvas (EXPORT_WIDTH EXPORT_HEIGHT : R)
    (sourceDimensions_width sourceDimensions_height : R)
    (st : WorkerStatePayload) (bm : WorkerBitmapsPayload)
    : list DrawOp :=
  let scaleX := EXPORT_WIDTH / sourceDimensions_width in
  let scaleY := EXPORT_HEIGHT / sourceDimensions_height in
  ClearRect (mkRect 0 0 EXPORT_WIDTH EXPORT_HEIGHT)
  :: match w_background st, b_background bm with
     | BgImage _, Some b =>
         DrawBackground b (mkRect 0 0 EXPORT_WIDTH EXPORT_HEIGHT)
     | bg, _ =>
         FillBackground (App.backgroundFill bg)
           (mkRect 0 0 EXPORT_WIDTH EXPORT_HEIGHT)
     end
  :: value (drawLayout EXPORT_WIDTH EXPORT_HEIGHT scaleX scaleY st bm)
     ++ drawWatermark EXPORT_WIDTH EXPORT_HEIGHT scaleX scaleY st bm
     ++ map (drawTextLayer scaleX scaleY) (w_textLayers st).

(** [self.onmessage]: the operations painted before the blob is
    posted. *)
Definition onmessage (data : WorkerMessageData) : list DrawOp :=
  drawExportCanvas (canvas_width data) (canvas_height data)
    (sourceDimensions_width data) (sourceDimensions_height data)
    (state data) (bitmaps data).

End Canvas.

End Worker.

(** ** Reading and scaling lists of drawing operations *)

(** The rectangle an image operation is confined to: the clip cell of the
    [drawImage] helper, the rectangle of a backdrop tile or of a
    free-placement image. *)
Definition cellOf (op : DrawOp) : list Rect :=
  match op with
  | ClippedImage _ cell _ => [cell]
  | BackdropTile _ _ _ r => [r]
  | PlainImage _ r => [r]
  | _ => []
  end.

Definition cellsOf (ops : list DrawOp) : list Rect := flat_map cellOf ops.

(** The picture an image operation paints. *)
Definition pictureOf (op : DrawOp) : list Bitmap :=
  match op with
  | ClippedImage b _ _ => [b]
  | BackdropTile _ _ b _ => [b]
  | PlainImage b _ => [b]
  | _ => []
  end.

Definition textOf (op : DrawOp) : list TextDraw :=
  match op with Text t => [t] | _ => [] end.

Definition textsOf (ops : list DrawOp) : list TextDraw := flat_map textOf ops.

(** Operations that belong to the composition, as opposed to the editing
    aids only the page paints (the upload prompt, the selection outline and
    its handle). *)
Definition composed (op : DrawOp) : bool :=
  match op with
  | Prompt _ _ | Selection _ _ => false
  | _ => true
  end.

Definition scaleRect (sx sy : R) (r : Rect) : Rect :=
  mkRect (rx r * sx) (ry r * sy) (rw r * sx) (rh r * sy).

(** A painted text layer scaled: position by axis; font size, box and
    shadow blur by the vertical factor; shadow offsets by axis. *)
Definition scaleText (sx sy : R) (t : TextDraw) : TextDraw :=
  mkTextDraw (td_x t * sx) (td_y t * sy) (td_angle t)
    (td_fontSize t * sy) (td_fontFamily t)
    (match td_box t with
     | Some (a, c, r) => Some (a, c, scaleRect sy sy r)
     | None => None
     end)
    (match td_shadow t with
     | Some (b, ox, oy) => Some (b * sy, ox * sx, oy * sy)
     | None => None
     end)
    (td_color t) (td_text t).

Definition scaleOp (sx sy : R) (op : DrawOp) : DrawOp :=
  match op with
  | ClearRect r => ClearRect (scaleRect sx sy r)
  | FillBackground c r => FillBackground c (scaleRect sx sy r)
  | DrawBackground b r => DrawBackground b (scaleRect sx sy r)
  | Prompt px py => Prompt (px * sx) (py * sy)
  | ClippedImage b cell render =>
      ClippedImage b (scaleRect sx sy cell) (scaleRect sx sy render)
  | BackdropTile blur alpha b r =>
      BackdropTile (blur * sx) alpha b (scaleRect sx sy r)
  | PlainImage b r => PlainImage b (scaleRect sx sy r)
  | Selection o h => Selection (scaleRect sx sy o) (scaleRect sx sy h)
  | Watermark b alpha r => Watermark b alpha (scaleRect sx sy r)
  | Text t => Text (scaleText sx sy t)
  end.

(** Horizontal translation of an image operation. *)
Definition shiftRect (dx : R) (r : Rect) : Rect :=
  mkRect (rx r + dx) (ry r) (rw r) (rh r).

Definition shiftOp (dx : R) (op : DrawOp) : DrawOp :=
  match op with
  | ClippedImage b cell render =>
      ClippedImage b (shiftRect dx cell) (shiftRect dx render)
  | other => other
  end.

(** The state with only the layout mode and the decoded pictures
    replaced: what grid mode would do with these pictures. *)
Definition asGrid (s : App.State) (pictures : list Bitmap) : App.State :=
  App.mkState (App.images s) (App.globalZoom s) (App.gap s) grid
    (App.imageFit s) (App.mainZoom s) (App.bgBlur s) (App.bgOpacity s)
    (App.background s) (App.watermark s) (App.textLayers s)
    (App.selectedTextId s) (App.interactionState s) (App.selectedImageId s)
    pictures (App.loadedWatermark s) (App.loadedBackgroundImage s).

Definition asGridPayload (st : WorkerStatePayload) : WorkerStatePayload :=
  mkWorkerState grid (w_images st) (w_textLayers st) (w_watermark st)
    (w_background st) (w_gap st) (w_globalZoom st) (w_imageFit st)
    (w_mainZoom st) (w_bgBlur st) (w_bgOpacity st).

Definition withGridBitmaps (bm : WorkerBitmapsPayload)
    (pictures : list Bitmap) : WorkerBitmapsPayload :=
  mkWorkerBitmaps pictures (b_watermark bm) (b_background bm).

(** The decoded pictures have settled: one per image, in the order of
    [images], the page element of each loaded from the image's object URL;
    identifiers and URLs are unique. *)
Definition settled (s : App.State) : Prop :=
  map src (App.loadedGridImages s) = map url (App.images s)
  /\ NoDup (map id (App.images s))
  /\ NoDup (map url (App.images s)).

(** Font metrics scale with the font size. *)
Definition linearMetrics (measureText : string -> R -> string -> R) : Prop :=
  forall t f k family, measureText t (f * k) family = measureText t f family * k.

(** An image state carries complete free-placement geometry. *)
Definition geometry (img : ImageState) : option Rect :=
  match x img, y img, width img, height img with
  | Some ix, Some iy, Some iw, Some ih => Some (mkRect ix iy iw ih)
  | _, _, _, _ => None
  end.

(** [ceil (sqrt n)] on a natural number, through the integer square
    root. *)
Definition ceil_sqrt (n : nat) : Z :=
  match n with
  | O => 0%Z
  | S m => Z.of_nat (S (Nat.sqrt m))
  end.

(** ** Sample scenes *)

(** Metrics of a monospaced face: half the font size per character. *)
Definition sampleMetrics : string -> R -> string -> R :=
  fun t f _ => INR (String.length t) * f / 2.

Definition sampleImage (i u : string) (ix iy iw ih z : R) : ImageState :=
  mkImageState i u (Some ix) (Some iy) (Some iw) (Some ih) (Some z).

Definition sampleLayer (i t : string) (lx ly deg : R) : TextLayer :=
  mkTextLayer i t lx ly 48 "Montserrat" "#FFFFFF" deg true "#000000"
    (1 / 2) 10.

Definition sampleState (m : LayoutMode) (imgs : list ImageState)
    (layers : list TextLayer) (pictures : list Bitmap) : App.State :=
  App.mkState imgs 1 16 m cover 1 10 (3 / 10) (BgColor (Some "#F3F4F6"%string))
    None layers None App.idle_state None pictures None None.

Definition withInteraction (st : App.InteractionState) (s : App.State)
    : App.State :=
  App.setInteractionState st s.

Definition imgA : ImageState := sampleImage "a" "blob:a" 50 50 300 200 1.
Definition imgB : ImageState := sampleImage "b" "blob:b" 80 80 300 200 5.
Definition picA : Bitmap := mkBitmap "blob:a" 640 480.
Definition picB : Bitmap := mkBitmap "blob:b" 480 640.

(** A sequence of pointer events, applied in order. *)
Definition run (measureText : string -> R -> string -> R)
    (events : list App.Event) (s : App.State) : App.State :=
  fold_left (fun st e => App.step measureText e st) events s.

Definition resizingA : App.State :=
  withInteraction
    (App.mkInteraction App.resizing_br (Some App.target_image) (Some "a"%string)
       (Some 0) (Some 0))
    (sampleState freeform [imgA; imgB] [] [picA; picB]).

Definition layerHi : TextLayer := sampleLayer "t1" "Hi" 100 100 0.

Definition gridWithText : App.State := sampleState grid [] [layerHi] [].

Definition leftBigPair : App.State :=
  sampleState left_big [] [] [picA; picB].

(** The four modes with one big picture, and the cell of that picture. *)
Definition big_mode (m : LayoutMode) : Prop :=
  m = left_big \/ m = right_big \/ m = top_big \/ m = bottom_big.

Definition big_cell (m : LayoutMode) (W H gx gy : R) : Rect :=
  match m with
  | left_big => mkRect gx gy (W / 2 - gx * 1.5) (H - gy * 2)
  | right_big => mkRect (W / 2 + gx / 2) gy (W / 2 - gx * 1.5) (H - gy * 2)
  | top_big => mkRect gx gy (W - gx * 2) (H / 2 - gy * 1.5)
  | _ => mkRect gx (H / 2 + gy / 2) (W - gx * 2) (H / 2 - gy * 1.5)
  end.

Definition singleBottomBig : App.State :=
  sampleState bottom_big [] [] [picA].

Definition s_geometry (img : SerializableImageState) : option Rect :=
  match s_x img, s_y img, s_width img, s_height img with
  | Some ix, Some iy, Some iw, Some ih => Some (mkRect ix iy iw ih)
  | _, _, _, _ => None
  end.



(** What the export operation [e] has in common with the page operation
    [p] at horizontal factor [sx] and vertical factor [sy].  A fitted image
    keeps its picture and has its clip cell scaled by axis; its rendered
    rectangle, which keeps the picture's aspect ratio, is the scaled one
    when the two factors agree.  A watermark keeps picture and opacity and
    has its width and horizontal position scaled by [sx]; its rectangle,
    whose height follows the width, is the scaled one when the factors
    agree.  Every other operation of the composition is the page operation
    scaled ([scaleOp]).  The prompt and the selection overlay have no
    counterpart. *)
Definition corresponds (sx sy : R) (p e : DrawOp) : Prop :=
  match p, e with
  | Prompt _ _, _ | Selection _ _, _ => False
  | ClippedImage b cell render, ClippedImage b' cell' render' =>
      b' = b /\ cell' = scaleRect sx sy cell
      /\ (sx = sy -> render' = scaleRect sx sy render)
  | Watermark b alpha r, Watermark b' alpha' r' =>
      b' = b /\ alpha' = alpha
      /\ rx r' = rx r * sx /\ rw r' = rw r * sx
      /\ (sx = sy -> r' = scaleRect sx sy r)
  | _, _ => e = scaleOp sx sy p
  end.

Definition picW : Bitmap := mkBitmap "blob:w" 100 50.

(** A scene with only a watermark, anchored bottom right. *)
Definition watermarkScene : App.State :=
  App.mkState [] 1 16 grid cover 1 10 (3 / 10)
    (BgColor (Some "#F3F4F6"%string))
    (Some (mkWatermarkState "w" (1 / 2) 20 bottom_right))
    [] None App.idle_state None [] (Some picW) None.

Definition twoImagesAndText : App.State :=
  sampleState grid [imgA; imgB] [layerHi] [picA; picB].

Definition watermarkOf (op : DrawOp) : list Rect :=
  match op with Watermark _ _ r => [r] | _ => [] end.


(** ** Further readings of the operations *)

(** Vertical translation of an image operation. *)
Definition shiftRectY (dy : R) (r : Rect) : Rect :=
  mkRect (rx r) (ry r + dy) (rw r) (rh r).

Definition shiftOpY (dy : R) (op : DrawOp) : DrawOp :=
  match op with
  | ClippedImage b cell render =>
      ClippedImage b (shiftRectY dy cell) (shiftRectY dy render)
  | other => other
  end.

(** The point [(px, py)] lies in the rectangle, edges included. *)
Definition inside (px py : R) (r : Rect) : Prop :=
  rx r <= px <= rx r + rw r /\ ry r <= py <= ry r + rh r.

(** The rectangle [a] lies in the rectangle [b]. *)
Definition within (a b : Rect) : Prop :=
  rx b <= rx a /\ rx a + rw a <= rx b + rw b
  /\ ry b <= ry a /\ ry a + rh a <= ry b + rh b.

(** Two rectangles are at least [gx] apart horizontally or at least [gy]
    apart vertically. *)
Definition apart (gx gy : R) (a b : Rect) : Prop :=
  rx a + rw a + gx <= rx b \/ rx b + rw b + gx <= rx a
  \/ ry a + rh a + gy <= ry b \/ ry b + rh b + gy <= ry a.

(** The rendered rectangle of a fitted image. *)
Definition renderOf (op : DrawOp) : list Rect :=
  match op with ClippedImage _ _ render => [render] | _ => [] end.

(** The canvas without a margin of [gx] left and right and [gy] top and
    bottom. *)
Definition margins (W H gx gy : R) : Rect :=
  mkRect gx gy (W - 2 * gx) (H - 2 * gy).

(** The cell that the grid formulas give picture [i] of [n] on a canvas of
    [W] by [H] with gaps [gx] and [gy]. *)
Definition gridCell (W H gx gy : R) (n i : nat) : Rect :=
  let cols := Js.Math_ceil (sqrt (INR n)) in
  let rows := Js.Math_ceil (INR n / IZR cols) in
  let cellW := (W - IZR (cols + 1) * gx) / IZR cols in
  let cellH := (H - IZR (rows + 1) * gy) / IZR rows in
  mkRect (gx + IZR (Z.of_nat i mod cols) * (cellW + gx))
         (gy + IZR (Js.Math_floor (INR i / IZR cols)) * (cellH + gy))
         cellW cellH.

Definition fourGrid : App.State :=
  sampleState grid [] [] [picA; picB; picA; picB].

(** The cell of secondary picture [i] of [m] in a big mode: the grid cell
    on the half of the canvas widened by half a gap, moved to the side that
    the big picture leaves free. *)
Definition secondaryCell (mode : LayoutMode) (W H gx gy : R) (m i : nat)
    : Rect :=
  match mode with
  | left_big =>
      shiftRect (W / 2 - gx / 2) (gridCell (W / 2 + gx / 2) H gx gy m i)
  | right_big => gridCell (W / 2 + gx / 2) H gx gy m i
  | top_big =>
      shiftRectY (H / 2 - gy / 2) (gridCell W (H / 2 + gy / 2) gx gy m i)
  | _ => gridCell W (H / 2 + gy / 2) gx gy m i
  end.

Definition topBigTrio : App.State :=
  sampleState top_big [] [] [picA; picB; picA].

Definition focusTrio : App.State :=
  sampleState single_blur [] [] [picA; picB; picA].

(** The pointer is strictly inside the rectangle (the body test of
    [handleMouseDown]); the pointer is within the pick square of the
    bottom-right corner (the handle test). *)
Definition onBody (px py : R) (r : Rect) : Prop :=
  rx r < px < rx r + rw r /\ ry r < py < ry r + rh r.

Definition onHandle (px py : R) (r : Rect) : Prop :=
  rx r + rw r - 12 <= px <= rx r + rw r + 12
  /\ ry r + rh r - 12 <= py <= ry r + rh r + 12.

(** The stored [zIndex] of [a] is not above that of [b], an image that
    stores none standing at 0, as the sorts read it. *)
Definition notAbove (a b : ImageState) : Prop :=
  match zIndex a, zIndex b with
  | Some u, Some v => u <= v
  | Some u, None => u <= 0
  | None, Some v => 0 <= v
  | None, None => True
  end.

Definition layerHo : TextLayer := sampleLayer "t2" "Ho" 100 100 0.

Definition twoLayers : App.State :=
  sampleState grid [] [layerHi; layerHo] [].

(** An image is missed by the scan: its body does not contain the pointer
    and, if it is the selected image, neither does its handle square. *)
Definition missed (sel : option string) (mouseX mouseY : R)
    (a : ImageState) : Prop :=
  forall r, geometry a = Some r ->
    ~ onBody mouseX mouseY r
    /\ ~ (App.is_selected sel (id a) = true /\ onHandle mouseX mouseY r).

Definition freeformPair : App.State :=
  sampleState freeform [imgA; imgB] [] [picA; picB].

(** The two tests of the scan on a complete rectangle. *)
Definition handleTest (mouseX mouseY : R) (r : Rect) : bool :=
  Js.geb mouseX (rx r + rw r - 12) && Js.leb mouseX (rx r + rw r + 12)
  && Js.geb mouseY (ry r + rh r - 12) && Js.leb mouseY (ry r + rh r + 12).

Definition bodyTest (mouseX mouseY : R) (r : Rect) : bool :=
  Js.gtb mouseX (rx r) && Js.ltb mouseX (rx r + rw r)
  && Js.gtb mouseY (ry r) && Js.ltb mouseY (ry r + rh r).


Definition freeformPairB : App.State :=
  App.setSelectedImageId (Some "b"%string) freeformPair.

(** What a state holds apart from placement: the images without geometry
    and stacking order, the text layers without position, every setting and
    decoded picture; selection and interaction are forgotten. *)
Definition content (s : App.State) : App.State :=
  App.mkState
    (map (fun a => mkImageState (id a) (url a) None None None None None)
       (App.images s))
    (App.globalZoom s) (App.gap s) (App.layoutMode s) (App.imageFit s)
    (App.mainZoom s) (App.bgBlur s) (App.bgOpacity s) (App.background s)
    (App.watermark s)
    (map (fun l => App.layer_with_xy l 0 0) (App.textLayers s))
    None App.idle_state None
    (App.loadedGridImages s) (App.loadedWatermark s)
    (App.loadedBackgroundImage s).


(** The handlers of the page that change images, text layers or selection,
    as actions on the state. *)
Inductive Action :=
| Pointer (e : App.Event)
| Upload (files : list App.UploadedFile)
| ThumbClick (i : string)
| ThumbRemove (i : string)
| ThumbDrop (target : string) (dragged : option string)
| FrontButton
| BackButton
| SetLayout (m : LayoutMode)
| AddText (newId : string) (canvas : option (R * R))
| EditText (props : App.LayerProps)
| ListSelect (i : string)
| ListDelete (i : string).

Definition act (measureText : string -> R -> string -> R) (a : Action)
    (s : App.State) : App.State :=
  match a with
  | Pointer e => App.step measureText e s
  | Upload files => App.handleImageUpload files s
  | ThumbClick i => App.thumbnailClick i s
  | ThumbRemove i => App.removeImage i s
  | ThumbDrop target dragged => snd (App.handleDrop target dragged s)
  | FrontButton => App.frontButton s
  | BackButton => App.backButton s
  | SetLayout m => App.setLayoutMode m s
  | AddText newId canvas => App.addTextLayer newId canvas s
  | EditText props => App.updateSelectedLayer props s
  | ListSelect i => App.selectTextLayer i s
  | ListDelete i => App.deleteTextLayer i s
  end.

(** What the page offers in state [s]: a thumbnail or a list entry exists
    for each image and each text layer, and the controls of the text panel
    never send an identifier. *)
Definition offered (a : Action) (s : App.State) : Prop :=
  match a with
  | ThumbClick i | ThumbRemove i => In i (map id (App.images s))
  | ThumbDrop target _ => In target (map id (App.images s))
  | ListSelect i | ListDelete i => In i (map tl_id (App.textLayers s))
  | EditText props => App.p_id props = None
  | _ => True
  end.

Fixpoint session (measureText : string -> R -> string -> R)
    (actions : list Action) (s : App.State) : App.State :=
  match actions with
  | [] => s
  | a :: rest => session measureText rest (act measureText a s)
  end.

Fixpoint offeredAll (measureText : string -> R -> string -> R)
    (actions : list Action) (s : App.State) : Prop :=
  match actions with
  | [] => True
  | a :: rest =>
      offered a s /\ offeredAll measureText rest (act measureText a s)
  end.

(** The selections name existing items. *)
Definition selectionValid (s : App.State) : Prop :=
  (forall i, App.selectedTextId s = Some i ->
             In i (map tl_id (App.textLayers s)))
  /\ (forall i, App.selectedImageId s = Some i ->
               In i (map id (App.images s))).

(** The state of a freshly mounted page. *)
Definition initialState : App.State :=
  App.mkState [] 1 16 grid cover 1 10 (3 / 10)
    (BgColor (Some "#F3F4F6"%string)) None [] None App.idle_state None
    [] None None.

Definition fileA : App.UploadedFile := App.mkUploadedFile "a" "blob:a".
Definition fileB : App.UploadedFile := App.mkUploadedFile "b" "blob:b".

Definition sampleSession : list Action :=
  [Upload [fileA; fileB]; SetLayout freeform; ThumbClick "b"%string;
   AddText "t1"%string (Some (800, 600)); ThumbRemove "b"%string;
   ListSelect "t1"%string].

(** Pointer moves through the points [pts], in order. *)
Definition moves (pts : list (R * R)) : list App.Event :=
  map (fun p => App.MouseMove (fst p) (snd p)) pts.

(** What the free-placement loop paints for one image, the selection
    overlay apart. *)
Definition freePaint (loaded : list Bitmap) (im : ImageState)
    : list DrawOp :=
  match Js.find (fun li => Js.str_eqb (src li) (url im)) loaded,
        geometry im with
  | Some li, Some r => [PlainImage li r]
  | _, _ => []
  end.

(** The canvas point of the local point [(lx, ly)] under the transform
    [ctx.translate(x, y); ctx.rotate(angle)] a text layer is painted
    under. *)
Definition toCanvas (t : TextDraw) (lx ly : R) : R * R :=
  (td_x t + (lx * cos (td_angle t) - ly * sin (td_angle t)),
   td_y t + (lx * sin (td_angle t) + ly * cos (td_angle t))).

(** The stacking value the two sorts compare: [zIndex || 0]. *)
Definition stackKey (a : ImageState) : R := Js.or0 (zIndex a).

(** Identifiers are distinct and so are stacking values. *)
Definition wellStacked (s : App.State) : Prop :=
  NoDup (map id (App.images s)) /\ NoDup (map stackKey (App.images s)).

(** [randomUUID] returns identifiers that are new. *)
Definition freshUpload (a : Action) (s : App.State) : Prop :=
  match a with
  | Upload files => NoDup (map id (App.images s) ++ map App.uuid files)
  | _ => True
  end.

Fixpoint freshAll (measureText : string -> R -> string -> R)
    (actions : list Action) (s : App.State) : Prop :=
  match actions with
  | [] => True
  | a :: rest =>
      freshUpload a s /\ freshAll measureText rest (act measureText a s)
  end.
(** ** Number lemmas *)

Lemma Math_ceil_spec (r : R) (z : Z) :
  IZR z - 1 < r <= IZR z -> Js.Math_ceil r = z.
Proof.
  intros [Hlo Hhi]. unfold Js.Math_ceil.
  assert (E : (1 - z)%Z = up (- r)).
  { apply tech_up; rewrite minus_IZR; lra. }
  rewrite <- E. lia.
Qed.

Lemma Math_floor_spec (r : R) (z : Z) :
  IZR z <= r < IZR z + 1 -> Js.Math_floor r = z.
Proof.
  intros [Hlo Hhi]. unfold Js.Math_floor.
  assert (E : (z + 1)%Z = up r).
  { apply up_tech; [assumption | rewrite plus_IZR; lra]. }
  rewrite <- E. lia.
Qed.

Lemma Math_ceil_IZR (z : Z) : Js.Math_ceil (IZR z) = z.
Proof. apply Math_ceil_spec. lra. Qed.

Lemma Math_ceil_sqrt (n : nat) :
  Js.Math_ceil (sqrt (INR n)) = ceil_sqrt n.
Proof.
  destruct n as [|m].
  - simpl. rewrite sqrt_0. apply Math_ceil_spec. simpl. lra.
  - unfold ceil_sqrt. apply Math_ceil_spec.
    pose proof (Nat.sqrt_spec m (Nat.le_0_l m)) as [Hlo Hhi].
    set (k := Nat.sqrt m) in *.
    rewrite <- INR_IZR_INZ.
    assert (Hk : 0 <= INR k) by apply pos_INR.
    assert (Hk1 : 0 <= INR (S k)) by apply pos_INR.
    split.
    + rewrite S_INR.
      replace (INR k + 1 - 1) with (sqrt (INR k * INR k))
        by (rewrite sqrt_square; lra).
      apply sqrt_lt_1_alt. split; [nra|].
      rewrite <- mult_INR. apply lt_INR. lia.
    + rewrite <- (sqrt_square (INR (S k))) by assumption.
      apply sqrt_le_1_alt. rewrite <- mult_INR. apply le_INR. lia.
Qed.

Lemma ceil_sqrt_pos (n : nat) : (1 <= n)%nat -> (1 <= ceil_sqrt n)%Z.
Proof. destruct n; [lia | unfold ceil_sqrt; lia]. Qed.

Lemma ceil_sqrt_bounds (n : nat) :
  (1 <= n)%nat ->
  ((ceil_sqrt n - 1) * (ceil_sqrt n - 1) < Z.of_nat n
   <= ceil_sqrt n * ceil_sqrt n)%Z.
Proof.
  destruct n as [|m]; [lia|]. intros _. unfold ceil_sqrt.
  pose proof (Nat.sqrt_spec m (Nat.le_0_l m)) as [Hlo Hhi].
  nia.
Qed.

Lemma Math_ceil_div (n : nat) (c : Z) :
  (0 < c)%Z ->
  Js.Math_ceil (INR n / IZR c) = ((Z.of_nat n + c - 1) / c)%Z.
Proof.
  intros Hc. apply Math_ceil_spec.
  set (z := ((Z.of_nat n + c - 1) / c)%Z).
  pose proof (Z.div_mod (Z.of_nat n + c - 1) c ltac:(lia)) as Hdm.
  pose proof (Z.mod_pos_bound (Z.of_nat n + c - 1) c Hc) as Hm.
  fold z in Hdm.
  assert (H1 : ((z - 1) * c < Z.of_nat n)%Z) by nia.
  assert (H2 : (Z.of_nat n <= z * c)%Z) by nia.
  apply IZR_lt in H1. apply IZR_le in H2. apply IZR_lt in Hc.
  rewrite mult_IZR, minus_IZR in H1. rewrite mult_IZR in H2.
  rewrite <- INR_IZR_INZ in H1, H2.
  split.
  - apply Rmult_lt_reg_r with (IZR c); [assumption|].
    unfold Rdiv. rewrite Rmult_assoc, Rinv_l by lra. lra.
  - apply Rmult_le_reg_r with (IZR c); [assumption|].
    unfold Rdiv. rewrite Rmult_assoc, Rinv_l by lra. lra.
Qed.

Lemma Math_floor_div (i : nat) (c : Z) :
  (0 < c)%Z -> Js.Math_floor (INR i / IZR c) = (Z.of_nat i / c)%Z.
Proof.
  intros Hc. apply Math_floor_spec.
  set (z := (Z.of_nat i / c)%Z).
  pose proof (Z.div_mod (Z.of_nat i) c ltac:(lia)) as Hdm.
  pose proof (Z.mod_pos_bound (Z.of_nat i) c Hc) as Hm.
  fold z in Hdm.
  assert (H1 : (z * c <= Z.of_nat i)%Z) by nia.
  assert (H2 : (Z.of_nat i < (z + 1) * c)%Z) by nia.
  apply IZR_le in H1. apply IZR_lt in H2. apply IZR_lt in Hc.
  rewrite mult_IZR in H1. rewrite mult_IZR, plus_IZR in H2.
  rewrite <- INR_IZR_INZ in H1, H2.
  split.
  - apply Rmult_le_reg_r with (IZR c); [assumption|].
    unfold Rdiv. rewrite Rmult_assoc, Rinv_l by lra. lra.
  - apply Rmult_lt_reg_r with (IZR c); [assumption|].
    unfold Rdiv. rewrite Rmult_assoc, Rinv_l by lra. lra.
Qed.

Lemma Math_max_init (l : list R) (a : R) : a <= Js.Math_max a l.
Proof.
  unfold Js.Math_max. revert a.
  induction l as [|b l IH]; intros a; simpl; [lra|].
  eapply Rle_trans; [apply (Rmax_l a b) | apply IH].
Qed.

Lemma Math_max_in (l : list R) (a v : R) : In v l -> v <= Js.Math_max a l.
Proof.
  unfold Js.Math_max. revert a.
  induction l as [|b l IH]; intros a Hin; simpl in *; [contradiction|].
  destruct Hin as [-> | Hin].
  - eapply Rle_trans; [apply (Rmax_r a v) | apply (Math_max_init l)].
  - apply IH, Hin.
Qed.

Lemma Math_min_init (l : list R) (a : R) : Js.Math_min a l <= a.
Proof.
  unfold Js.Math_min. revert a.
  induction l as [|b l IH]; intros a; simpl; [lra|].
  eapply Rle_trans; [apply IH | apply (Rmin_l a b)].
Qed.

Lemma Math_min_in (l : list R) (a v : R) : In v l -> Js.Math_min a l <= v.
Proof.
  unfold Js.Math_min. revert a.
  induction l as [|b l IH]; intros a Hin; simpl in *; [contradiction|].
  destruct Hin as [-> | Hin].
  - eapply Rle_trans; [apply (Math_min_init l) | apply (Rmin_r a v)].
  - apply IH, Hin.
Qed.

(** The maximum is attained, by the seed or by a listed value. *)
Lemma Math_max_attained (l : list R) (a : R) :
  Js.Math_max a l = a \/ In (Js.Math_max a l) l.
Proof.
  unfold Js.Math_max. revert a.
  induction l as [|b l IH]; intros a; simpl; [now left|].
  destruct (IH (Rmax a b)) as [E | Hin].
  - rewrite E. unfold Rmax. destruct (Rle_dec a b); auto.
  - right. now right.
Qed.

Lemma str_eqb_eq (a b : string) : Js.str_eqb a b = true <-> a = b.
Proof. apply String.eqb_eq. Qed.

Lemma str_eqb_neq (a b : string) : Js.str_eqb a b = false <-> a <> b.
Proof. apply String.eqb_neq. Qed.

Lemma nth_error_mapi_from {A B : Type} (f : A -> nat -> B) (l : list A)
    (k j : nat) :
  nth_error (mapi_from k f l) j
  = option_map (fun a => f a (k + j)%nat) (nth_error l j).
Proof.
  revert k j. induction l as [|a l IH]; intros k j.
  - destruct j; reflexivity.
  - destruct j as [|j]; simpl.
    + now rewrite Nat.add_0_r.
    + rewrite IH. now replace (S k + j)%nat with (k + S j)%nat by lia.
Qed.

Lemma length_mapi_from {A B : Type} (f : A -> nat -> B) (l : list A)
    (k : nat) :
  List.length (mapi_from k f l) = List.length l.
Proof. revert k. induction l; intros k; simpl; auto. Qed.

(** ** Z-order *)

Section ZOrder.

Variable prev : list ImageState.
Variable id0 : string.

Let zs := map (fun i => Js.or0 (zIndex i)) prev.

Lemma bringToFront_others (b : ImageState) :
  In b (App.bringToFront id0 prev) -> id b <> id0 ->
  In b prev.
Proof.
  unfold App.bringToFront. intros Hin Hne.
  apply in_map_iff in Hin as [a [E Ha]].
  destruct (Js.str_eqb (id a) id0) eqn:Eid.
  - subst b. apply str_eqb_eq in Eid. simpl in Hne. contradiction.
  - now subst b.
Qed.

Lemma sendToBack_others (b : ImageState) :
  In b (App.sendToBack id0 prev) -> id b <> id0 ->
  In b prev.
Proof.
  unfold App.sendToBack. intros Hin Hne.
  apply in_map_iff in Hin as [a [E Ha]].
  destruct (Js.str_eqb (id a) id0) eqn:Eid.
  - subst b. apply str_eqb_eq in Eid. simpl in Hne. contradiction.
  - now subst b.
Qed.

Lemma below_front (b : ImageState) :
  In b prev -> Js.or0 (zIndex b) < Js.Math_max 0 zs + 1.
Proof.
  intros Hb.
  assert (Js.or0 (zIndex b) <= Js.Math_max 0 zs).
  { apply Math_max_in. unfold zs.
    apply (in_map (fun i => Js.or0 (zIndex i))), Hb. }
  lra.
Qed.

Lemma above_back (b : ImageState) :
  In b prev -> Js.Math_min 0 zs - 1 < Js.or0 (zIndex b).
Proof.
  intros Hb.
  assert (Js.Math_min 0 zs <= Js.or0 (zIndex b)).
  { apply Math_min_in. unfold zs.
    apply (in_map (fun i => Js.or0 (zIndex i))), Hb. }
  lra.
Qed.

End ZOrder.

Lemma Math_min_attained (l : list R) (a : R) :
  Js.Math_min a l = a \/ In (Js.Math_min a l) l.
Proof.
  unfold Js.Math_min. revert a.
  induction l as [|b l IH]; intros a; simpl; [now left|].
  destruct (IH (Rmin a b)) as [E | Hin].
  - rewrite E. unfold Rmin. destruct (Rle_dec a b); auto.
  - right. now right.
Qed.

(** A value of the list of [zIndex || 0] is a stored [zIndex], or 0. *)
Lemma stored_or_zero (prev : list ImageState) (v : R) :
  In v (map (fun i => Js.or0 (zIndex i)) prev) ->
  v = 0 \/ exists t, In t prev /\ zIndex t = Some v.
Proof.
  intros H. apply in_map_iff in H as [t [E Ht]].
  destruct (zIndex t) as [z|] eqn:Ez; simpl in E.
  - right. exists t. subst. auto.
  - now left.
Qed.

(** [bringToFront] written out on the stored fields: one value [zf] is
    stored in every image of the identifier, whose other fields stay; it is
    positive, is 1 or a stored [zIndex] plus 1, and lies above every stored
    [zIndex] of the list. *)
Lemma bringToFront_stored (id0 : string) (prev : list ImageState) :
  exists zf,
    App.bringToFront id0 prev
    = map (fun a =>
             if Js.str_eqb (id a) id0
             then mkImageState (id a) (url a) (x a) (y a) (width a)
                    (height a) (Some zf)
             else a) prev
    /\ 0 < zf
    /\ (zf = 1 \/ exists t z, In t prev /\ zIndex t = Some z /\ zf = z + 1)
    /\ (forall b z, In b prev -> zIndex b = Some z -> z < zf).
Proof.
  exists (Js.Math_max 0 (map (fun i => Js.or0 (zIndex i)) prev) + 1).
  split; [reflexivity|]. split.
  { pose proof (Math_max_init (map (fun i => Js.or0 (zIndex i)) prev) 0).
    lra. }
  split.
  { destruct (Math_max_attained (map (fun i => Js.or0 (zIndex i)) prev) 0)
      as [E | Hin].
    - left. rewrite E. lra.
    - destruct (stored_or_zero prev _ Hin) as [E | [t [Ht Ez]]].
      + left. rewrite E. lra.
      + right. exists t, (Js.Math_max 0 (map (fun i => Js.or0 (zIndex i)) prev)).
        auto. }
  intros b z Hb Ez.
  pose proof (below_front prev b Hb) as Hlt.
  rewrite Ez in Hlt. exact Hlt.
Qed.

Lemma or0_notAbove (a b : ImageState) :
  Js.or0 (zIndex a) <= Js.or0 (zIndex b) -> notAbove a b.
Proof.
  unfold notAbove.
  destruct (zIndex a), (zIndex b); simpl; intros H; auto.
Qed.

(** C6.  For an image [a] of the list with identifier [id0]:
    after [bringToFront id0] the image at the same index is [a] with only
    its [zIndex] replaced; the stored value is 1 or a stored [zIndex] of the
    list plus 1, is positive, and is strictly above the stored [zIndex] of
    every image with another identifier.  After [sendToBack id0] likewise:
    the stored value is -1 or a stored [zIndex] minus 1, is negative, and
    is strictly below the stored [zIndex] of every image with another
    identifier.  (An image without a stored [zIndex] is read as 0 by the
    sorts; the new value is above, respectively below, 0 too.)  Every image
    with another identifier is left as it was by both operations. *)
Theorem z_order_front_and_back
    (prev : list ImageState) (id0 : string) (i : nat) (a : ImageState) :
  nth_error prev i = Some a -> id a = id0 ->
  (exists a' zf,
      nth_error (App.bringToFront id0 prev) i = Some a'
      /\ zIndex a' = Some zf
      /\ id a' = id a /\ url a' = url a /\ geometry a' = geometry a
      /\ x a' = x a /\ y a' = y a
      /\ (zf = 1 \/ exists t z, In t prev /\ zIndex t = Some z /\ zf = z + 1)
      /\ 0 < zf
      /\ forall b z, In b (App.bringToFront id0 prev) -> id b <> id0 ->
                     zIndex b = Some z -> z < zf)
  /\ (exists a' zb,
      nth_error (App.sendToBack id0 prev) i = Some a'
      /\ zIndex a' = Some zb
      /\ id a' = id a /\ url a' = url a /\ geometry a' = geometry a
      /\ x a' = x a /\ y a' = y a
      /\ (zb = -1 \/ exists t z, In t prev /\ zIndex t = Some z /\ zb = z - 1)
      /\ zb < 0
      /\ forall b z, In b (App.sendToBack id0 prev) -> id b <> id0 ->
                     zIndex b = Some z -> zb < z)
  /\ (forall j b, nth_error prev j = Some b -> id b <> id0 ->
        nth_error (App.bringToFront id0 prev) j = Some b
        /\ nth_error (App.sendToBack id0 prev) j = Some b).
Proof.
  intros Hi Hid.
  assert (Eid : Js.str_eqb (id a) id0 = true) by now apply str_eqb_eq.
  set (zs := map (fun i => Js.or0 (zIndex i)) prev).
  split; [|split].
  - exists (App.with_zIndex a (Js.Math_max 0 zs + 1)), (Js.Math_max 0 zs + 1).
    split.
    { unfold App.bringToFront. rewrite nth_error_map, Hi. simpl.
      rewrite Eid. reflexivity. }
    split; [reflexivity|]. split; [reflexivity|]. split; [reflexivity|].
    split; [reflexivity|]. split; [reflexivity|]. split; [reflexivity|].
    split.
    { destruct (Math_max_attained zs 0) as [E | Hin].
      - left. rewrite E. lra.
      - destruct (stored_or_zero prev _ Hin) as [E | [t [Ht Ez]]].
        + left. rewrite E. lra.
        + right. exists t, (Js.Math_max 0 zs). auto. }
    split.
    { pose proof (Math_max_init zs 0). lra. }
    intros b z Hb Hne Hz.
    pose proof (below_front prev b
                  (bringToFront_others prev id0 b Hb Hne)) as H.
    rewrite Hz in H. exact H.
  - exists (App.with_zIndex a (Js.Math_min 0 zs - 1)), (Js.Math_min 0 zs - 1).
    split.
    { unfold App.sendToBack. rewrite nth_error_map, Hi. simpl.
      rewrite Eid. reflexivity. }
    split; [reflexivity|]. split; [reflexivity|]. split; [reflexivity|].
    split; [reflexivity|]. split; [reflexivity|]. split; [reflexivity|].
    split.
    { destruct (Math_min_attained zs 0) as [E | Hin].
      - left. rewrite E. lra.
      - destruct (stored_or_zero prev _ Hin) as [E | [t [Ht Ez]]].
        + left. rewrite E. lra.
        + right. exists t, (Js.Math_min 0 zs). auto. }
    split.
    { pose proof (Math_min_init zs 0). lra. }
    intros b z Hb Hne Hz.
    pose proof (above_back prev b
                  (sendToBack_others prev id0 b Hb Hne)) as H.
    rewrite Hz in H. exact H.
  - intros j b Hj Hne. apply str_eqb_neq in Hne.
    unfold App.bringToFront, App.sendToBack.
    rewrite !nth_error_map, Hj. simpl. now rewrite Hne.
Qed.

(** On the images with stacking values 1 and 5, raising the first stores 6
    and lowering it stores -1. *)
Lemma z_order_front_and_back_witness :
  (exists a',
      nth_error (App.bringToFront "a" [imgA; imgB]) 0 = Some a'
      /\ zIndex a' = Some 6)
  /\ (exists a',
      nth_error (App.sendToBack "a" [imgA; imgB]) 0 = Some a'
      /\ zIndex a' = Some (-1))
  /\ nth_error (App.bringToFront "a" [imgA; imgB]) 1 = Some imgB
  /\ nth_error (App.sendToBack "a" [imgA; imgB]) 1 = Some imgB.
Proof.
  destruct (z_order_front_and_back [imgA; imgB] "a" 0 imgA eq_refl eq_refl)
    as [[f [zf [Ef [Hzf [_ [_ [_ [_ [_ [Hf [_ Hbf]]]]]]]]]]]
          [[k [zb [Ek [Hzb [_ [_ [_ [_ [_ [Hk [Hneg _]]]]]]]]]]] Hrest]].
  assert (HB : nth_error (App.bringToFront "a" [imgA; imgB]) 1 = Some imgB
               /\ nth_error (App.sendToBack "a" [imgA; imgB]) 1 = Some imgB).
  { apply (Hrest 1%nat imgB); [reflexivity | discriminate]. }
  destruct HB as [HB1 HB2].
  split; [|split; [|split; [exact HB1 | exact HB2]]].
  - exists f. split; [exact Ef|]. rewrite Hzf. f_equal.
    assert (H5 : 5 < zf).
    { apply (Hbf imgB 5); [now apply nth_error_In with 1%nat
                          | discriminate | reflexivity]. }
    destruct Hf as [E | [t [z [Ht [Ez E]]]]]; [lra|].
    destruct Ht as [<- | [<- | []]]; simpl in Ez; inversion Ez; lra.
  - exists k. split; [exact Ek|]. rewrite Hzb. f_equal.
    destruct Hk as [E | [t [z [Ht [Ez E]]]]]; [lra|].
    destruct Ht as [<- | [<- | []]]; simpl in Ez; inversion Ez; lra.
Defined.

(** ** Upload *)

(** The base of the new [zIndex] values: the expression
    [images.length > 0 ? Math.max(...images.map(i => i.zIndex || 0)) : 0]. *)
Lemma upload_base_is_max (imgs : list ImageState) :
  let base :=
    match map (fun i => Js.or0 (zIndex i)) imgs with
    | z :: zs => Js.Math_max z zs
    | [] => 0
    end in
  (imgs = [] -> base = 0)
  /\ (imgs <> [] ->
      exists top, In top imgs /\ base = Js.or0 (zIndex top))
  /\ (forall old, In old imgs -> Js.or0 (zIndex old) <= base).
Proof.
  destruct imgs as [|a imgs]; simpl.
  - split; [reflexivity|]. split; [intros H; now elim H | tauto].
  - split; [discriminate|]. split.
    + intros _.
      destruct (Math_max_attained
                  (map (fun i => Js.or0 (zIndex i)) imgs)
                  (Js.or0 (zIndex a))) as [E | Hin].
      * exists a. split; [now left | exact E].
      * apply in_map_iff in Hin as [t [E Ht]].
        exists t. split; [now right | now symmetry].
    + intros old [<- | Hin].
      * apply Math_max_init.
      * apply Math_max_in.
        apply (in_map (fun i => Js.or0 (zIndex i))), Hin.
Qed.

(** The base of the upload, in terms of the stored [zIndex] values. *)
Lemma upload_base_stored (imgs : list ImageState) :
  let base :=
    match map (fun i => Js.or0 (zIndex i)) imgs with
    | z :: zs => Js.Math_max z zs
    | [] => 0
    end in
  (imgs <> [] ->
   exists top, In top imgs
               /\ (zIndex top = Some base \/ (zIndex top = None /\ base = 0)))
  /\ (forall old z, In old imgs -> zIndex old = Some z -> z <= base)
  /\ (forall old, In old imgs -> zIndex old = None -> 0 <= base).
Proof.
  intros base.
  destruct (upload_base_is_max imgs) as [_ [Htop Hle]]. fold base in Htop, Hle.
  split; [|split].
  - intros Hne. destruct (Htop Hne) as [top [Hin E]]. exists top.
    split; [exact Hin|].
    destruct (zIndex top) as [z|]; simpl in E; [left | right]; subst; auto.
  - intros old z Hin Ez. specialize (Hle old Hin). now rewrite Ez in Hle.
  - intros old Hin Ez. specialize (Hle old Hin). now rewrite Ez in Hle.
Qed.

(** C9.  Whatever the layout mode, the [j]-th uploaded file is appended
    after the existing images (which are kept as they are) with
    [x = y = 50 + 30 j], [width = 300], [height = 200] and the stored
    [zIndex = base + j + 1].  Here [base] is 0 when there is no image;
    otherwise it is the [zIndex] stored in one of the existing images (0
    for an image that stores none) and no stored [zIndex] is above it.  So
    the new [zIndex] is strictly above the [zIndex] stored in every
    existing image and strictly above that of every earlier file of the
    batch. *)
Theorem upload_default_geometry
    (files : list App.UploadedFile) (s : App.State) (j : nat)
    (f : App.UploadedFile) :
  nth_error files j = Some f ->
  exists base,
    (App.images s = [] -> base = 0)
    /\ (App.images s <> [] ->
        exists top,
          In top (App.images s)
          /\ (zIndex top = Some base \/ (zIndex top = None /\ base = 0)))
    /\ (forall old z, In old (App.images s) -> zIndex old = Some z ->
          z <= base)
    /\ (forall old, In old (App.images s) -> zIndex old = None -> 0 <= base)
    /\ nth_error (App.images (App.handleImageUpload files s))
         (List.length (App.images s) + j)
       = Some (mkImageState (App.uuid f) (App.objectURL f)
                 (Some (50 + 30 * INR j)) (Some (50 + 30 * INR j))
                 (Some 300) (Some 200) (Some (base + INR j + 1)))
    /\ (forall i old, nth_error (App.images s) i = Some old ->
          nth_error (App.images (App.handleImageUpload files s)) i
          = Some old)
    /\ List.length (App.images (App.handleImageUpload files s))
       = (List.length (App.images s) + List.length files)%nat
    /\ (forall old z, In old (App.images s) -> zIndex old = Some z ->
          z < base + INR j + 1)
    /\ (forall k g, (k < j)%nat -> nth_error files k = Some g ->
          exists earlier zk,
            nth_error (App.images (App.handleImageUpload files s))
              (List.length (App.images s) + k) = Some earlier
            /\ id earlier = App.uuid g
            /\ zIndex earlier = Some zk /\ zk < base + INR j + 1)
    /\ App.layoutMode (App.handleImageUpload files s) = App.layoutMode s.
Proof.
  intros Hj.
  destruct (upload_base_is_max (App.images s)) as [H0 _].
  destruct (upload_base_stored (App.images s)) as [Htop [Hle Hnone]].
  assert (Hnew : forall k g, nth_error files k = Some g ->
            nth_error (App.images (App.handleImageUpload files s))
              (List.length (App.images s) + k)
            = Some (mkImageState (App.uuid g) (App.objectURL g)
                      (Some (50 + 30 * INR k)) (Some (50 + 30 * INR k))
                      (Some 300) (Some 200)
                      (Some (match map (fun i => Js.or0 (zIndex i))
                                     (App.images s) with
                             | z :: zs => Js.Math_max z zs
                             | [] => 0
                             end + INR k + 1)))).
  { intros k g Hk. unfold App.handleImageUpload, mapi. simpl.
    rewrite nth_error_app2 by lia.
    replace (List.length (App.images s) + k - List.length (App.images s))%nat
      with k by lia.
    rewrite nth_error_mapi_from, Hk. simpl.
    do 2 f_equal; f_equal; lra. }
  eexists. split; [exact H0|]. split; [exact Htop|]. split; [exact Hle|].
  split; [exact Hnone|].
  split; [exact (Hnew j f Hj)|].
  split; [|split; [|split; [|split]]].
  - intros i old Hi. unfold App.handleImageUpload. simpl.
    rewrite nth_error_app1; [assumption|].
    apply nth_error_Some. congruence.
  - unfold App.handleImageUpload, mapi. simpl.
    now rewrite length_app, length_mapi_from.
  - intros old z Hold Ez. pose proof (Hle old z Hold Ez).
    pose proof (pos_INR j). lra.
  - intros k g Hk Hg. eexists. eexists.
    split; [exact (Hnew k g Hg)|].
    split; [reflexivity|]. split; [reflexivity|].
    apply lt_INR in Hk. lra.
  - reflexivity.
Qed.

(** Two files uploaded over the images with stored [zIndex] 1 and 5 get
    the stored [zIndex] 6 and 7, at (50, 50) and (80, 80). *)
Lemma upload_default_geometry_witness :
  nth_error
    (App.images
       (App.handleImageUpload [App.mkUploadedFile "u0" "blob:u0";
           App.mkUploadedFile "u1" "blob:u1"]
          (sampleState grid [imgA; imgB] [] []))) 2
  = Some (mkImageState "u0" "blob:u0" (Some 50) (Some 50) (Some 300)
            (Some 200) (Some 6))
  /\ nth_error
       (App.images
          (App.handleImageUpload [App.mkUploadedFile "u0" "blob:u0";
           App.mkUploadedFile "u1" "blob:u1"]
             (sampleState grid [imgA; imgB] [] []))) 3
     = Some (mkImageState "u1" "blob:u1" (Some 80) (Some 80) (Some 300)
               (Some 200) (Some 7)).
Proof.
  assert (Hbase : forall base,
            (exists top,
                In top [imgA; imgB]
                /\ (zIndex top = Some base
                    \/ (zIndex top = None /\ base = 0))) ->
            (forall old z, In old [imgA; imgB] -> zIndex old = Some z ->
                           z <= base) ->
            base = 5).
  { intros base [top [Hin Htop]] Hle.
    assert (H5 : 5 <= base).
    { apply (Hle imgB 5); [right; left; reflexivity | reflexivity]. }
    destruct Hin as [<- | [<- | []]];
      destruct Htop as [E | [E _]]; simpl in E; inversion E; lra. }
  split.
  - destruct (upload_default_geometry [App.mkUploadedFile "u0" "blob:u0";
           App.mkUploadedFile "u1" "blob:u1"]
                (sampleState grid [imgA; imgB] [] []) 0
                (App.mkUploadedFile "u0" "blob:u0") eq_refl)
      as [base [_ [Htop [Hle [_ [E _]]]]]].
    rewrite (Hbase base (Htop ltac:(discriminate)) Hle) in E.
    change (List.length (App.images (sampleState grid [imgA; imgB] [] []))
            + 0)%nat with 2%nat in E.
    rewrite E. cbn [App.uuid App.objectURL INR].
    do 2 f_equal; f_equal; lra.
  - destruct (upload_default_geometry [App.mkUploadedFile "u0" "blob:u0";
           App.mkUploadedFile "u1" "blob:u1"]
                (sampleState grid [imgA; imgB] [] []) 1
                (App.mkUploadedFile "u1" "blob:u1") eq_refl)
      as [base [_ [Htop [Hle [_ [E _]]]]]].
    rewrite (Hbase base (Htop ltac:(discriminate)) Hle) in E.
    change (List.length (App.images (sampleState grid [imgA; imgB] [] []))
            + 1)%nat with 3%nat in E.
    rewrite E. cbn [App.uuid App.objectURL INR].
    do 2 f_equal; f_equal; lra.
Defined.

(** ** Resize *)

(** C4.  While a bottom-right resize of image [tid] is in progress, a
    pointer move to [(mouseX, mouseY)] leaves at the image's index an image
    whose stored width is [max 20 (mouseX - ix)] and whose stored height is
    [max 20 (mouseY - iy)], where [(ix, iy)] is the position the image
    carries: each from its own axis only, so the width is [mouseX - ix]
    from 20 upward and 20 below, whatever the height, and likewise the
    height.  The stored width and height are at least 20 for every pointer
    position; position, identifier, URL and stacking value are as
    before. *)
Theorem resize_clamps_to_20
    (s : App.State) (mouseX mouseY : R) (tid : string) (i : nat)
    (img : ImageState) (ix iy : R) :
  App.mode (App.interactionState s) = App.resizing_br ->
  App.target (App.interactionState s) = Some App.target_image ->
  App.ist_id (App.interactionState s) = Some tid -> tid <> ""%string ->
  nth_error (App.images s) i = Some img -> id img = tid ->
  x img = Some ix -> y img = Some iy ->
  exists img' w h,
    nth_error (App.images (App.handleMouseMove mouseX mouseY s)) i
    = Some img'
    /\ width img' = Some w /\ height img' = Some h
    /\ w = Rmax 20 (mouseX - ix) /\ h = Rmax 20 (mouseY - iy)
    /\ 20 <= w /\ 20 <= h
    /\ (20 <= mouseX - ix -> w = mouseX - ix)
    /\ (mouseX - ix <= 20 -> w = 20)
    /\ (20 <= mouseY - iy -> h = mouseY - iy)
    /\ (mouseY - iy <= 20 -> h = 20)
    /\ x img' = Some ix /\ y img' = Some iy
    /\ id img' = id img /\ url img' = url img /\ zIndex img' = zIndex img.
Proof.
  intros Hmode Htarget Hid Hne Hi Himg Hx Hy.
  assert (E : nth_error (App.images (App.handleMouseMove mouseX mouseY s)) i
              = Some (App.with_size img (Rmax 20 (mouseX - ix))
                        (Rmax 20 (mouseY - iy)))).
  { unfold App.handleMouseMove. rewrite Hmode, Htarget, Hid.
    assert (Ht : Js.truthy (Some tid) = true).
    { destruct tid; [congruence | reflexivity]. }
    rewrite Ht. simpl.
    rewrite nth_error_map, Hi. simpl.
    assert (E : Js.str_eqb (id img) tid = true) by now apply str_eqb_eq.
    rewrite E. simpl. rewrite Hx, Hy. reflexivity. }
  exists (App.with_size img (Rmax 20 (mouseX - ix)) (Rmax 20 (mouseY - iy))),
         (Rmax 20 (mouseX - ix)), (Rmax 20 (mouseY - iy)).
  split; [exact E|].
  split; [reflexivity|]. split; [reflexivity|].
  split; [reflexivity|]. split; [reflexivity|].
  split; [apply Rmax_l|]. split; [apply Rmax_l|].
  split; [intros H; now apply Rmax_right|].
  split; [intros H; now apply Rmax_left|].
  split; [intros H; now apply Rmax_right|].
  split; [intros H; now apply Rmax_left|].
  split; [exact Hx|]. split; [exact Hy|].
  repeat split; reflexivity.
Qed.

Lemma resize_clamps_to_20_witness :
  exists img',
    nth_error (App.images (App.handleMouseMove 60 500 resizingA)) 0
    = Some img'
    /\ width img' = Some 20 /\ height img' = Some 450
    /\ x img' = Some 50 /\ y img' = Some 50.
Proof.
  destruct (resize_clamps_to_20 resizingA 60 500 "a" 0 imgA 50 50
              eq_refl eq_refl eq_refl ltac:(discriminate) eq_refl eq_refl
              eq_refl eq_refl)
    as [img' [w [h [E [Hw [Hh [_ [_ [_ [_ [_ [Ew [Eh [_ [Ex [Ey _]]]]]]]]]]]]]]]].
  exists img'. split; [exact E|].
  split; [rewrite Hw; f_equal; apply Ew; lra|].
  split; [rewrite Hh; f_equal; rewrite Eh by lra; lra|].
  split; [exact Ex | exact Ey].
Defined.

(** A resize or an image drag is only ever started on an image of the
    list that carries complete geometry. *)
Lemma scanImages_found (sel : option string) (mouseX mouseY : R)
    (l : list ImageState) (img : ImageState) (m : App.Mode) :
  App.scanImages sel mouseX mouseY l = Some (img, m) ->
  In img l /\ geometry img <> None /\ m <> App.idle.
Proof.
  induction l as [|a l IH]; simpl; [discriminate|].
  unfold geometry.
  destruct (x a) eqn:Ex, (y a) eqn:Ey, (width a) eqn:Ew,
           (height a) eqn:Eh;
    try (intros H; apply IH in H; tauto).
  match goal with
  | |- context [if ?c then _ else _] => destruct c
  end.
  - intros H; inversion H; subst. rewrite Ex, Ey, Ew, Eh.
    repeat split; auto; discriminate.
  - match goal with
    | |- context [if ?c then _ else _] => destruct c
    end.
    + intros H; inversion H; subst. rewrite Ex, Ey, Ew, Eh.
      repeat split; auto; discriminate.
    + intros H; apply IH in H; tauto.
Qed.

(** ** Text hit test *)

Lemma ltb_true (a b : R) : Js.ltb a b = true <-> a < b.
Proof.
  unfold Js.ltb. destruct (Rlt_dec a b); split; auto; discriminate.
Qed.

Lemma ltb_false (a b : R) : Js.ltb a b = false <-> b <= a.
Proof.
  unfold Js.ltb. destruct (Rlt_dec a b); split; auto; try discriminate; lra.
Qed.

Lemma leb_true (a b : R) : Js.leb a b = true <-> a <= b.
Proof.
  unfold Js.leb. destruct (Rle_dec a b); split; auto; discriminate.
Qed.

Lemma leb_false (a b : R) : Js.leb a b = false <-> b < a.
Proof.
  unfold Js.leb. destruct (Rle_dec a b); split; auto; try discriminate; lra.
Qed.

Section HitTest.

Variable measureText : string -> R -> string -> R.
Variable layer : TextLayer.

Let boxW :=
  measureText (text layer) (fontSize layer) (fontFamily layer)
  + 2 * padding layer.
Let boxH := fontSize layer + 2 * padding layer.
Let a := rotation layer * PI / 180.

Lemma hitsText_iff (mouseX mouseY : R) :
  App.hitsText measureText layer mouseX mouseY = true <->
  Rabs ((mouseX - tl_x layer) * cos (- a)
        - (mouseY - tl_y layer) * sin (- a)) < boxW / 2
  /\ Rabs ((mouseX - tl_x layer) * sin (- a)
           + (mouseY - tl_y layer) * cos (- a)) < boxH / 2.
Proof.
  unfold App.hitsText, Js.Math_abs.
  rewrite andb_true_iff, !ltb_true.
  replace (measureText (text layer) (fontSize layer) (fontFamily layer)
           + padding layer * 2) with boxW by (unfold boxW; ring).
  replace (fontSize layer + padding layer * 2) with boxH
    by (unfold boxH; ring).
  reflexivity.
Qed.

Lemma hitsText_center :
  0 < boxW -> 0 < boxH ->
  App.hitsText measureText layer (tl_x layer) (tl_y layer) = true.
Proof.
  intros HW HH. apply hitsText_iff.
  replace ((tl_x layer - tl_x layer) * cos (- a)
           - (tl_y layer - tl_y layer) * sin (- a)) with 0 by ring.
  replace ((tl_x layer - tl_x layer) * sin (- a)
           + (tl_y layer - tl_y layer) * cos (- a)) with 0 by ring.
  rewrite Rabs_R0. lra.
Qed.

Lemma local_x_of_axis_point (d : R) :
  (tl_x layer + d * cos a - tl_x layer) * cos (- a)
  - (tl_y layer + d * sin a - tl_y layer) * sin (- a) = d.
Proof.
  rewrite cos_neg, sin_neg.
  pose proof (sin2_cos2 a) as H. unfold Rsqr in H.
  replace ((tl_x layer + d * cos a - tl_x layer) * cos a
           - (tl_y layer + d * sin a - tl_y layer) * - sin a)
    with (d * (sin a * sin a + cos a * cos a)) by ring.
  rewrite H. ring.
Qed.

Lemma hitsText_axis_miss (d : R) :
  boxW / 2 <= Rabs d ->
  App.hitsText measureText layer
    (tl_x layer + d * cos a) (tl_y layer + d * sin a) = false.
Proof.
  intros Hd. apply not_true_is_false. intros Hhit.
  apply hitsText_iff in Hhit as [HX _].
  rewrite local_x_of_axis_point in HX. lra.
Qed.

End HitTest.

(** C5.  The hit test of a text layer subtracts the layer position from the
    pointer, rotates the difference by minus the layer rotation, and tests
    it against the box of width [measured width + 2 padding] and height
    [fontSize + 2 padding] centred at the origin.  Hence, when the box has
    positive width and height, the pointer at the layer position is a hit
    whatever the rotation; and a pointer on the box's own horizontal axis at
    a distance of at least half the box width from the layer position is a
    miss whatever the rotation. *)
Theorem text_hit_test
    (measureText : string -> R -> string -> R) (layer : TextLayer) :
  let boxW :=
    measureText (text layer) (fontSize layer) (fontFamily layer)
    + 2 * padding layer in
  let boxH := fontSize layer + 2 * padding layer in
  let a := rotation layer * PI / 180 in
  (forall mouseX mouseY,
      App.hitsText measureText layer mouseX mouseY = true <->
      Rabs ((mouseX - tl_x layer) * cos (- a)
            - (mouseY - tl_y layer) * sin (- a)) < boxW / 2
      /\ Rabs ((mouseX - tl_x layer) * sin (- a)
               + (mouseY - tl_y layer) * cos (- a)) < boxH / 2)
  /\ (0 < boxW -> 0 < boxH ->
      App.hitsText measureText layer (tl_x layer) (tl_y layer) = true)
  /\ (forall d, boxW / 2 <= Rabs d ->
      App.hitsText measureText layer
        (tl_x layer + d * cos a) (tl_y layer + d * sin a) = false).
Proof.
  intros boxW boxH a. split; [|split].
  - apply hitsText_iff.
  - apply hitsText_center.
  - apply hitsText_axis_miss.
Qed.

Lemma layerHi_box :
  0 < sampleMetrics (text layerHi) (fontSize layerHi) (fontFamily layerHi)
      + 2 * padding layerHi
  /\ 0 < fontSize layerHi + 2 * padding layerHi.
Proof.
  unfold sampleMetrics, layerHi, sampleLayer. simpl. lra.
Qed.

Lemma text_hit_test_witness :
  App.hitsText sampleMetrics layerHi (tl_x layerHi) (tl_y layerHi) = true.
Proof.
  apply (text_hit_test sampleMetrics layerHi).
  - unfold sampleMetrics, layerHi, sampleLayer. simpl. lra.
  - unfold layerHi, sampleLayer. simpl. lra.
Defined.

(** ** Pointer-down outside free placement *)

Lemma hitTextLayer_some (measureText : string -> R -> string -> R)
    (layers : list TextLayer) (mouseX mouseY : R) (layer : TextLayer) :
  App.hitTextLayer measureText layers mouseX mouseY = Some layer ->
  In layer layers /\ App.hitsText measureText layer mouseX mouseY = true.
Proof.
  unfold App.hitTextLayer. intros H.
  apply find_some in H as [Hin Hhit]. split; [|assumption].
  now apply in_rev.
Qed.

Lemma not_freeform (m : LayoutMode) :
  m <> freeform -> LayoutMode_eqb m freeform = false.
Proof. destruct m; simpl; congruence. Qed.

Section OutsideFreeform.

Variable measureText : string -> R -> string -> R.

Lemma step_layoutMode (e : App.Event) (s : App.State) :
  App.layoutMode (App.step measureText e s) = App.layoutMode s.
Proof.
  destruct e as [mx my | mx my |]; simpl.
  - unfold App.handleMouseDown.
    destruct (App.hitTextLayer measureText (App.textLayers s) mx my);
      [reflexivity|].
    destruct (LayoutMode_eqb (App.layoutMode s) freeform); [|reflexivity].
    destruct (App.scanImages _ _ _ _) as [[c m]|]; [|reflexivity].
    destruct (App.is_selected _ _), m; reflexivity.
  - unfold App.handleMouseMove.
    destruct (App.mode (App.interactionState s));
      [reflexivity | |];
      destruct (App.target (App.interactionState s)) as [[|]|];
      try reflexivity;
      destruct (Js.truthy _); reflexivity.
  - reflexivity.
Qed.

Lemma step_keeps_images (e : App.Event) (s : App.State) :
  App.layoutMode s <> freeform ->
  App.target (App.interactionState s) <> Some App.target_image ->
  App.images (App.step measureText e s) = App.images s
  /\ App.target (App.interactionState (App.step measureText e s))
     <> Some App.target_image.
Proof.
  intros Hm Ht. destruct e as [mx my | mx my |]; simpl.
  - unfold App.handleMouseDown.
    destruct (App.hitTextLayer measureText (App.textLayers s) mx my).
    + simpl. split; [reflexivity | discriminate].
    + rewrite (not_freeform _ Hm). simpl. split; [reflexivity | exact Ht].
  - unfold App.handleMouseMove.
    destruct (App.mode (App.interactionState s)); [tauto | |];
      destruct (App.target (App.interactionState s)) as [[|]|] eqn:E;
      try tauto; try (now elim Ht);
      try (destruct (Js.truthy (App.ist_id (App.interactionState s)));
           simpl; rewrite ?E; split; try reflexivity; discriminate).
  - split; [reflexivity | discriminate].
Qed.

Lemma run_keeps_images (events : list App.Event) (s : App.State) :
  App.layoutMode s <> freeform ->
  App.target (App.interactionState s) <> Some App.target_image ->
  App.images (run measureText events s) = App.images s
  /\ App.target (App.interactionState (run measureText events s))
     <> Some App.target_image.
Proof.
  revert s. induction events as [|e events IH]; intros s Hm Ht; simpl.
  - tauto.
  - destruct (step_keeps_images e s Hm Ht) as [Hi Ht'].
    destruct (IH (App.step measureText e s)) as [Hi2 Ht2].
    + now rewrite step_layoutMode.
    + exact Ht'.
    + split; [congruence | exact Ht2].
Qed.

End OutsideFreeform.

(** C8, as the code has it.  In a layout mode other than free placement a
    pointer-down never changes an image or a text layer and leaves no image
    selected.  When it hits no text layer it only clears the selection (the
    interaction state is not touched).  When it hits a text layer it selects
    that layer and starts dragging it, in every layout mode.  Starting from
    a state that is not acting on an image, no sequence of pointer events
    changes the images or makes an image the target of a drag or resize. *)
Theorem pointer_down_outside_freeform
    (measureText : string -> R -> string -> R) (s : App.State)
    (mouseX mouseY : R) :
  App.layoutMode s <> freeform ->
  App.images (App.handleMouseDown measureText mouseX mouseY s) = App.images s
  /\ App.textLayers (App.handleMouseDown measureText mouseX mouseY s)
     = App.textLayers s
  /\ App.selectedImageId (App.handleMouseDown measureText mouseX mouseY s)
     = None
  /\ (App.hitTextLayer measureText (App.textLayers s) mouseX mouseY = None ->
      App.handleMouseDown measureText mouseX mouseY s
      = App.setSelectedTextId None (App.setSelectedImageId None s))
  /\ (forall layer,
        App.hitTextLayer measureText (App.textLayers s) mouseX mouseY
        = Some layer ->
        In layer (App.textLayers s)
        /\ App.hitsText measureText layer mouseX mouseY = true
        /\ App.selectedTextId
             (App.handleMouseDown measureText mouseX mouseY s)
           = Some (tl_id layer)
        /\ App.interactionState
             (App.handleMouseDown measureText mouseX mouseY s)
           = App.mkInteraction App.dragging (Some App.target_text)
               (Some (tl_id layer)) (Some (mouseX - tl_x layer))
               (Some (mouseY - tl_y layer)))
  /\ (forall events,
        App.target (App.interactionState s) <> Some App.target_image ->
        App.images (run measureText events s) = App.images s
        /\ App.target (App.interactionState (run measureText events s))
           <> Some App.target_image).
Proof.
  intros Hm. unfold App.handleMouseDown.
  destruct (App.hitTextLayer measureText (App.textLayers s) mouseX mouseY)
    as [layer|] eqn:Hhit.
  - split; [reflexivity|]. split; [reflexivity|]. split; [reflexivity|].
    split; [discriminate|]. split.
    + intros l E. inversion E; subst l.
      destruct (hitTextLayer_some _ _ _ _ _ Hhit) as [Hin Hh].
      split; [exact Hin|]. split; [exact Hh|]. split; reflexivity.
    + intros events Ht. apply run_keeps_images; assumption.
  - rewrite (not_freeform _ Hm).
    split; [reflexivity|]. split; [reflexivity|]. split; [reflexivity|].
    split; [reflexivity|]. split.
    + intros l E. discriminate.
    + intros events Ht. apply run_keeps_images; assumption.
Qed.

Lemma pointer_down_outside_freeform_witness :
  App.images (App.handleMouseDown sampleMetrics 100 100 gridWithText)
  = App.images gridWithText.
Proof.
  refine (proj1 (pointer_down_outside_freeform sampleMetrics gridWithText
                   100 100 _)).
  simpl. discriminate.
Defined.

Lemma layerHi_hit :
  App.hitTextLayer sampleMetrics (App.textLayers gridWithText) 100 100
  = Some layerHi.
Proof.
  unfold App.hitTextLayer. simpl App.textLayers.
  change (rev [layerHi]) with [layerHi].
  cbn [List.find].
  change (App.hitsText sampleMetrics layerHi 100 100)
    with (App.hitsText sampleMetrics layerHi (tl_x layerHi) (tl_y layerHi)).
  destruct layerHi_box as [HW HH].
  now rewrite (hitsText_center sampleMetrics layerHi HW HH).
Qed.

(** C8 as stated fails: in grid mode a pointer-down on a text layer does
    more than clear the selection; it selects the layer and starts a drag,
    and the next pointer move moves the layer. *)
Lemma pointer_down_in_grid_mode_starts_text_drag :
  App.layoutMode gridWithText = grid
  /\ App.handleMouseDown sampleMetrics 100 100 gridWithText
     <> App.setSelectedTextId None (App.setSelectedImageId None gridWithText)
  /\ App.mode
       (App.interactionState
          (App.handleMouseDown sampleMetrics 100 100 gridWithText))
     = App.dragging
  /\ App.selectedTextId
       (App.handleMouseDown sampleMetrics 100 100 gridWithText)
     = Some "t1"%string
  /\ map tl_x (App.textLayers gridWithText) = [100]
  /\ map tl_x
       (App.textLayers
          (App.handleMouseMove 150 120
             (App.handleMouseDown sampleMetrics 100 100 gridWithText)))
     = [150].
Proof.
  assert (E : App.handleMouseDown sampleMetrics 100 100 gridWithText
              = App.setInteractionState
                  (App.mkInteraction App.dragging (Some App.target_text)
                     (Some (tl_id layerHi)) (Some (100 - tl_x layerHi))
                     (Some (100 - tl_y layerHi)))
                  (App.setSelectedImageId None
                     (App.setSelectedTextId (Some (tl_id layerHi))
                        gridWithText))).
  { unfold App.handleMouseDown. now rewrite layerHi_hit. }
  rewrite E. split; [reflexivity|]. split.
  - intros H. apply (f_equal App.selectedTextId) in H. discriminate.
  - split; [reflexivity|]. split; [reflexivity|]. split; [reflexivity|].
    simpl. f_equal. lra.
Qed.

(** ** The layout writer *)

Lemma value_bind {A B : Type} (m : Div A) (f : A -> Div B) :
  value (bind m f) = value (f (value m)).
Proof. reflexivity. Qed.

Lemma divisors_bind {A B : Type} (m : Div A) (f : A -> Div B) :
  divisors (bind m f) = divisors m ++ divisors (f (value m)).
Proof. reflexivity. Qed.

Lemma value_forEach_from {A B : Type} (body : A -> nat -> Div (list B))
    (l : list A) (k : nat) :
  value (forEach_from k l body)
  = List.concat (mapi_from k (fun a i => value (body a i)) l).
Proof.
  revert k. induction l as [|a l IH]; intros k.
  - reflexivity.
  - cbn [forEach_from mapi_from List.concat].
    rewrite !value_bind. cbn [value ret fst]. f_equal. apply IH.
Qed.

Lemma divisors_forEach_from {A B : Type} (body : A -> nat -> Div (list B))
    (l : list A) (k : nat) :
  divisors (forEach_from k l body)
  = List.concat (mapi_from k (fun a i => divisors (body a i)) l).
Proof.
  revert k. induction l as [|a l IH]; intros k.
  - reflexivity.
  - cbn [forEach_from mapi_from List.concat].
    rewrite !divisors_bind. cbn [divisors ret snd]. rewrite app_nil_r.
    f_equal. apply IH.
Qed.

(** A loop whose body issues exactly one operation per element. *)
Lemma value_forEach_single {A B : Type} (body : A -> nat -> Div (list B))
    (g : A -> nat -> B) (l : list A) (k : nat) :
  (forall a i, value (body a i) = [g a i]) ->
  value (forEach_from k l body) = mapi_from k g l.
Proof.
  intros Hb. rewrite value_forEach_from. revert k.
  induction l as [|a l IH]; intros k; simpl; [reflexivity|].
  now rewrite Hb, IH.
Qed.

Lemma Forall2_forEach_from {A B : Type} (P : B -> B -> Prop)
    (body1 body2 : A -> nat -> Div (list B)) (l : list A) (k : nat) :
  (forall a i, Forall2 P (value (body1 a i)) (value (body2 a i))) ->
  Forall2 P (value (forEach_from k l body1)) (value (forEach_from k l body2)).
Proof.
  intros Hb. rewrite !value_forEach_from. revert k.
  induction l as [|a l IH]; intros k; simpl; [constructor|].
  apply Forall2_app; [apply Hb | apply IH].
Qed.

Lemma cellsOf_app (l1 l2 : list DrawOp) :
  cellsOf (l1 ++ l2) = cellsOf l1 ++ cellsOf l2.
Proof. unfold cellsOf. apply flat_map_app. Qed.

Lemma cellsOf_mapi_clipped {A : Type} (g : A -> nat -> DrawOp)
    (c : A -> nat -> Rect) (l : list A) (k : nat) :
  (forall a i, cellOf (g a i) = [c a i]) ->
  cellsOf (mapi_from k g l) = mapi_from k c l.
Proof.
  intros Hc. revert k. induction l as [|a l IH]; intros k; simpl.
  - reflexivity.
  - now rewrite Hc, IH.
Qed.

(** ** Grid mode *)

Lemma App_grid_cells (s : App.State) (W H : R) :
  App.layoutMode s = grid ->
  let n := List.length (App.loadedGridImages s) in
  let g := App.gap s in
  let cols := Js.Math_ceil (sqrt (INR n)) in
  let rows := Js.Math_ceil (INR n / IZR cols) in
  let cellW := (W - IZR (cols + 1) * g) / IZR cols in
  let cellH := (H - IZR (rows + 1) * g) / IZR rows in
  cellsOf (value (App.drawLayout s W H))
  = mapi (fun (_ : Bitmap) i =>
            mkRect (g + IZR (Z.of_nat i mod cols) * (cellW + g))
                   (g + IZR (Js.Math_floor (INR i / IZR cols)) * (cellH + g))
                   cellW cellH)
      (App.loadedGridImages s).
Proof.
  intros Hm n g cols rows cellW cellH.
  unfold App.drawLayout. rewrite Hm.
  rewrite !value_bind. unfold forEach, mapi.
  erewrite value_forEach_single; [|intros a i; reflexivity].
  apply cellsOf_mapi_clipped. intros a i. reflexivity.
Qed.

Lemma Worker_grid_cells (W H sx sy : R) (st : WorkerStatePayload)
    (bm : WorkerBitmapsPayload) :
  w_layoutMode st = grid ->
  let n := List.length (b_grid bm) in
  let gx := w_gap st * sx in
  let gy := w_gap st * sy in
  let cols := Js.Math_ceil (sqrt (INR n)) in
  let rows := Js.Math_ceil (INR n / IZR cols) in
  let cellW := (W - IZR (cols + 1) * gx) / IZR cols in
  let cellH := (H - IZR (rows + 1) * gy) / IZR rows in
  cellsOf (value (Worker.drawLayout W H sx sy st bm))
  = mapi (fun (_ : Bitmap) i =>
            mkRect (gx + IZR (Z.of_nat i mod cols) * (cellW + gx))
                   (gy + IZR (Js.Math_floor (INR i / IZR cols))
                         * (cellH + gy))
                   cellW cellH)
      (b_grid bm).
Proof.
  intros Hm n gx gy cols rows cellW cellH.
  unfold Worker.drawLayout. rewrite Hm.
  rewrite !value_bind. unfold forEach, mapi.
  erewrite value_forEach_single; [|intros a i; reflexivity].
  apply cellsOf_mapi_clipped. intros a i. reflexivity.
Qed.

Lemma grid_counts (n : nat) :
  (1 <= n)%nat ->
  let cols := Js.Math_ceil (sqrt (INR n)) in
  let rows := Js.Math_ceil (INR n / IZR cols) in
  cols = ceil_sqrt n
  /\ (1 <= cols)%Z
  /\ ((cols - 1) * (cols - 1) < Z.of_nat n <= cols * cols)%Z
  /\ rows = ((Z.of_nat n + cols - 1) / cols)%Z
  /\ (1 <= rows)%Z
  /\ ((rows - 1) * cols < Z.of_nat n <= rows * cols)%Z.
Proof.
  intros Hn cols rows.
  assert (Ec : cols = ceil_sqrt n) by apply Math_ceil_sqrt.
  pose proof (ceil_sqrt_pos n Hn) as Hpos.
  pose proof (ceil_sqrt_bounds n Hn) as Hb.
  rewrite <- Ec in Hpos, Hb.
  assert (Er : rows = ((Z.of_nat n + cols - 1) / cols)%Z).
  { unfold rows. apply Math_ceil_div. lia. }
  pose proof (Z.div_mod (Z.of_nat n + cols - 1) cols ltac:(lia)) as Hdm.
  pose proof (Z.mod_pos_bound (Z.of_nat n + cols - 1) cols ltac:(lia)) as Hmb.
  rewrite <- Er in Hdm.
  repeat split; try assumption; try lia; nia.
Qed.

(** The operation that grid mode issues for picture [i]. *)
Lemma App_grid_op (s : App.State) (W H : R) (i : nat) (img : Bitmap) :
  App.layoutMode s = grid ->
  nth_error (App.loadedGridImages s) i = Some img ->
  let n := List.length (App.loadedGridImages s) in
  let g := App.gap s in
  let cols := Js.Math_ceil (sqrt (INR n)) in
  let rows := Js.Math_ceil (INR n / IZR cols) in
  let cellW := (W - IZR (cols + 1) * g) / IZR cols in
  let cellH := (H - IZR (rows + 1) * g) / IZR rows in
  nth_error (value (App.drawLayout s W H)) i
  = Some (App.drawImage (App.globalZoom s) (App.imageFit s) img
            (g + IZR (Z.of_nat i mod cols) * (cellW + g))
            (g + IZR (Js.Math_floor (INR i / IZR cols)) * (cellH + g))
            cellW cellH 1)
  /\ List.length (value (App.drawLayout s W H)) = n.
Proof.
  intros Hm Hi n g cols rows cellW cellH.
  unfold App.drawLayout. rewrite Hm.
  rewrite !value_bind. unfold forEach.
  erewrite value_forEach_single; [|intros a k; reflexivity].
  rewrite nth_error_mapi_from, Hi, length_mapi_from. split; reflexivity.
Qed.

Lemma Worker_grid_op (W H sx sy : R) (st : WorkerStatePayload)
    (bm : WorkerBitmapsPayload) (i : nat) (img : Bitmap) :
  w_layoutMode st = grid ->
  nth_error (b_grid bm) i = Some img ->
  let n := List.length (b_grid bm) in
  let gx := w_gap st * sx in
  let gy := w_gap st * sy in
  let cols := Js.Math_ceil (sqrt (INR n)) in
  let rows := Js.Math_ceil (INR n / IZR cols) in
  let cellW := (W - IZR (cols + 1) * gx) / IZR cols in
  let cellH := (H - IZR (rows + 1) * gy) / IZR rows in
  nth_error (value (Worker.drawLayout W H sx sy st bm)) i
  = Some (Worker.drawImage (w_globalZoom st) (w_imageFit st) img
            (gx + IZR (Z.of_nat i mod cols) * (cellW + gx))
            (gy + IZR (Js.Math_floor (INR i / IZR cols)) * (cellH + gy))
            cellW cellH 1)
  /\ List.length (value (Worker.drawLayout W H sx sy st bm)) = n.
Proof.
  intros Hm Hi n gx gy cols rows cellW cellH.
  unfold Worker.drawLayout. rewrite Hm.
  rewrite !value_bind. unfold forEach.
  erewrite value_forEach_single; [|intros a k; reflexivity].
  rewrite nth_error_mapi_from, Hi, length_mapi_from. split; reflexivity.
Qed.

(** C2.  In grid mode image [i] of [n >= 1] decoded pictures is confined to
    the cell of size [((W - (cols+1) g) / cols, (H - (rows+1) g) / rows)]
    at [(g + col (cellW + g), g + row (cellH + g))], with
    [cols = ceil (sqrt n)], [rows = ceil (n / cols)], [col = i mod cols],
    [row = floor (i / cols)]; here [cols] is the least integer whose square
    reaches [n] and [rows] the least number of rows of [cols] cells that
    holds [n].  The layout issues one operation per picture, and the
    [i]-th paints picture [i] itself, clipped to that cell.  The page
    renderer uses the gap itself, the export renderer the gap scaled by its
    horizontal and vertical factor.  For four pictures, gap 16 and a canvas
    of 800 by 600 the four pictures are painted in their order in cells of
    376 by 276 at (16,16), (408,16), (16,308) and (408,308). *)
Theorem grid_mode_placement :
  (forall (s : App.State) (W H : R) (i : nat) (img : Bitmap),
      App.layoutMode s = grid ->
      nth_error (App.loadedGridImages s) i = Some img ->
      let n := List.length (App.loadedGridImages s) in
      let g := App.gap s in
      let cols := Js.Math_ceil (sqrt (INR n)) in
      let rows := Js.Math_ceil (INR n / IZR cols) in
      let cellW := (W - IZR (cols + 1) * g) / IZR cols in
      let cellH := (H - IZR (rows + 1) * g) / IZR rows in
      let col := (Z.of_nat i mod cols)%Z in
      let row := Js.Math_floor (INR i / IZR cols) in
      (exists render,
          nth_error (value (App.drawLayout s W H)) i
          = Some (ClippedImage img
                    (mkRect (g + IZR col * (cellW + g))
                       (g + IZR row * (cellH + g)) cellW cellH)
                    render))
      /\ List.length (value (App.drawLayout s W H)) = n
      /\ nth_error (cellsOf (value (App.drawLayout s W H))) i
         = Some (mkRect (g + IZR col * (cellW + g))
                   (g + IZR row * (cellH + g)) cellW cellH)
      /\ ((cols - 1) * (cols - 1) < Z.of_nat n <= cols * cols)%Z
      /\ ((rows - 1) * cols < Z.of_nat n <= rows * cols)%Z
      /\ row = (Z.of_nat i / cols)%Z
      /\ (0 <= col < cols)%Z /\ (0 <= row < rows)%Z)
  /\ (forall (W H sx sy : R) (st : WorkerStatePayload)
        (bm : WorkerBitmapsPayload) (i : nat) (img : Bitmap),
      w_layoutMode st = grid ->
      nth_error (b_grid bm) i = Some img ->
      let n := List.length (b_grid bm) in
      let gx := w_gap st * sx in
      let gy := w_gap st * sy in
      let cols := Js.Math_ceil (sqrt (INR n)) in
      let rows := Js.Math_ceil (INR n / IZR cols) in
      let cellW := (W - IZR (cols + 1) * gx) / IZR cols in
      let cellH := (H - IZR (rows + 1) * gy) / IZR rows in
      let col := (Z.of_nat i mod cols)%Z in
      let row := Js.Math_floor (INR i / IZR cols) in
      (exists render,
          nth_error (value (Worker.drawLayout W H sx sy st bm)) i
          = Some (ClippedImage img
                    (mkRect (gx + IZR col * (cellW + gx))
                       (gy + IZR row * (cellH + gy)) cellW cellH)
                    render))
      /\ List.length (value (Worker.drawLayout W H sx sy st bm)) = n
      /\ nth_error (cellsOf (value (Worker.drawLayout W H sx sy st bm))) i
         = Some (mkRect (gx + IZR col * (cellW + gx))
                   (gy + IZR row * (cellH + gy)) cellW cellH))
  /\ (forall (s : App.State) (a b c d : Bitmap),
      App.layoutMode s = grid -> App.gap s = 16 ->
      App.loadedGridImages s = [a; b; c; d] ->
      Js.Math_ceil (sqrt (INR 4)) = 2%Z
      /\ Js.Math_ceil (INR 4 / IZR 2) = 2%Z
      /\ flat_map pictureOf (value (App.drawLayout s 800 600))
         = [a; b; c; d]
      /\ cellsOf (value (App.drawLayout s 800 600))
         = [mkRect 16 16 376 276; mkRect 408 16 376 276;
            mkRect 16 308 376 276; mkRect 408 308 376 276]).
Proof.
  split; [|split].
  - intros s W H i img Hm Hi n g cols rows cellW cellH col row.
    destruct (App_grid_op s W H i img Hm Hi) as [Hop Hlen].
    split; [eexists; rewrite Hop; reflexivity|].
    split; [exact Hlen|].
    assert (Hn : (i < n)%nat) by (apply nth_error_Some; congruence).
    destruct (grid_counts n ltac:(lia))
      as [Ec [Hc [Hcb [Er [Hr Hrb]]]]].
    fold cols in Ec, Hc, Hcb, Er, Hr, Hrb. fold rows in Er, Hr, Hrb.
    assert (Erow : row = (Z.of_nat i / cols)%Z).
    { unfold row. apply Math_floor_div. lia. }
    split; [|split; [exact Hcb | split; [exact Hrb | split; [exact Erow|]]]].
    + rewrite (App_grid_cells s W H Hm). unfold mapi.
      rewrite nth_error_mapi_from, Hi. reflexivity.
    + split; [apply Z.mod_pos_bound; lia|].
      rewrite Erow. split; [apply Z.div_pos; lia|].
      apply Z.div_lt_upper_bound; [lia|]. nia.
  - intros W H sx sy st bm i img Hm Hi n gx gy cols rows cellW cellH col row.
    destruct (Worker_grid_op W H sx sy st bm i img Hm Hi) as [Hop Hlen].
    split; [eexists; rewrite Hop; reflexivity|].
    split; [exact Hlen|].
    rewrite (Worker_grid_cells W H sx sy st bm Hm). unfold mapi.
    rewrite nth_error_mapi_from, Hi. reflexivity.
  - intros s a b c d Hm Hg Hl.
    assert (Ec : Js.Math_ceil (sqrt (INR 4)) = 2%Z).
    { rewrite Math_ceil_sqrt. reflexivity. }
    assert (Er : Js.Math_ceil (INR 4 / IZR 2) = 2%Z).
    { rewrite Math_ceil_div by lia. reflexivity. }
    split; [exact Ec|]. split; [exact Er|].
    split.
    { unfold App.drawLayout. rewrite Hm, Hl.
      rewrite !value_bind. unfold forEach.
      erewrite value_forEach_single; [|intros u k; reflexivity].
      reflexivity. }
    rewrite (App_grid_cells s 800 600 Hm). rewrite Hl, Hg.
    cbn [List.length]. rewrite Ec, Er.
    unfold mapi. cbn [mapi_from].
    rewrite !Math_floor_div by lia.
    change (Z.of_nat 0 mod 2)%Z with 0%Z.
    change (Z.of_nat 1 mod 2)%Z with 1%Z.
    change (Z.of_nat 2 mod 2)%Z with 0%Z.
    change (Z.of_nat 3 mod 2)%Z with 1%Z.
    change (Z.of_nat 0 / 2)%Z with 0%Z.
    change (Z.of_nat 1 / 2)%Z with 0%Z.
    change (Z.of_nat 2 / 2)%Z with 1%Z.
    change (Z.of_nat 3 / 2)%Z with 1%Z.
    change (2 + 1)%Z with 3%Z.
    repeat (f_equal; try lra).
Qed.

Lemma grid_mode_placement_witness :
  Js.Math_ceil (sqrt (INR 4)) = 2%Z
  /\ Js.Math_ceil (INR 4 / IZR 2) = 2%Z
  /\ flat_map pictureOf
       (value
          (App.drawLayout (sampleState grid [] [] [picA; picB; picA; picB])
             800 600))
     = [picA; picB; picA; picB]
  /\ cellsOf
       (value
          (App.drawLayout (sampleState grid [] [] [picA; picB; picA; picB])
             800 600))
     = [mkRect 16 16 376 276; mkRect 408 16 376 276;
        mkRect 16 308 376 276; mkRect 408 308 376 276].
Proof.
  apply (proj2 (proj2 grid_mode_placement)
           (sampleState grid [] [] [picA; picB; picA; picB])
           picA picB picA picB); reflexivity.
Defined.

(** ** Left-big and right-big modes *)

Lemma mapi_from_ext {A B : Type} (f g : A -> nat -> B) (l : list A)
    (k : nat) :
  (forall a i, f a i = g a i) -> mapi_from k f l = mapi_from k g l.
Proof.
  intros H. revert k. induction l as [|a l IH]; intros k; simpl.
  - reflexivity.
  - now rewrite H, IH.
Qed.

Lemma map_mapi_from {A B C : Type} (h : B -> C) (f : A -> nat -> B)
    (l : list A) (k : nat) :
  map h (mapi_from k f l) = mapi_from k (fun a i => h (f a i)) l.
Proof.
  revert k. induction l as [|a l IH]; intros k; simpl.
  - reflexivity.
  - now rewrite IH.
Qed.

Lemma secondary_counts (m : nat) :
  (1 <= m)%nat ->
  Z.max 1 (Js.Math_ceil (sqrt (INR m))) = Js.Math_ceil (sqrt (INR m))
  /\ Z.max 1 (Js.Math_ceil (INR m / IZR (Js.Math_ceil (sqrt (INR m)))))
     = Js.Math_ceil (INR m / IZR (Js.Math_ceil (sqrt (INR m)))).
Proof.
  intros Hm. destruct (grid_counts m Hm) as [_ [Hc [_ [_ [Hr _]]]]].
  split; apply Z.max_r; assumption.
Qed.

Lemma App_drawImage_shift (z : R) (f : ImageFit) (img : Bitmap)
    (x y w h e dx : R) :
  shiftOp dx (App.drawImage z f img x y w h e)
  = App.drawImage z f img (x + dx) y w h e.
Proof.
  unfold App.drawImage, shiftOp, shiftRect. simpl.
  f_equal; f_equal; lra.
Qed.

Lemma Worker_drawImage_shift (z : R) (f : ImageFit) (img : Bitmap)
    (x y w h e dx : R) :
  shiftOp dx (Worker.drawImage z f img x y w h e)
  = Worker.drawImage z f img (x + dx) y w h e.
Proof.
  unfold Worker.drawImage, shiftOp, shiftRect. simpl.
  f_equal; f_equal; lra.
Qed.

Lemma App_side_big_value (s : App.State) (W H : R) (img0 : Bitmap)
    (rest : list Bitmap) :
  App.layoutMode s = left_big \/ App.layoutMode s = right_big ->
  App.loadedGridImages s = img0 :: rest -> rest <> [] ->
  let g := App.gap s in
  let isLeft := LayoutMode_eqb (App.layoutMode s) left_big in
  let cols := Js.Math_ceil (sqrt (INR (List.length rest))) in
  let rows := Js.Math_ceil (INR (List.length rest) / IZR cols) in
  let startX := if isLeft then W / 2 + g / 2 else g in
  let cellW := (W / 2 - g * 1.5 - IZR (cols - 1) * g) / IZR cols in
  let cellH := (H - IZR (rows + 1) * g) / IZR rows in
  value (App.drawLayout s W H)
  = App.drawImage (App.globalZoom s) (App.imageFit s) img0
      (if isLeft then g else W / 2 + g / 2) g (W / 2 - g * 1.5) (H - g * 2) 1
    :: mapi (fun img i =>
               App.drawImage (App.globalZoom s) (App.imageFit s) img
                 (startX + IZR (Z.of_nat i mod cols) * (cellW + g))
                 (g + IZR (Js.Math_floor (INR i / IZR cols)) * (cellH + g))
                 cellW cellH 1)
         rest.
Proof.
  intros Hm Hl Hrest g isLeft cols rows startX cellW cellH.
  assert (Hlen : (1 <= List.length rest)%nat).
  { destruct rest; [congruence | simpl; lia]. }
  destruct (secondary_counts _ Hlen) as [Ec Er].
  assert (Hguard : (1 <? List.length (img0 :: rest))%nat = true).
  { apply Nat.ltb_lt. simpl. lia. }
  unfold App.drawLayout.
  destruct Hm as [Hm | Hm]; rewrite Hm, Hl, Hguard;
    unfold startX, isLeft; rewrite Hm; cbn [LayoutMode_eqb slice1 tl];
    rewrite !value_bind; cbn [value ret fst app];
    f_equal;
    unfold forEach, mapi;
    (erewrite value_forEach_single; [|intros a i; reflexivity]);
    apply mapi_from_ext; intros a i;
    cbn [value divide fst ret];
    rewrite !Ec, !Er; reflexivity.
Qed.

Lemma Worker_side_big_value (W H sx sy : R) (st : WorkerStatePayload)
    (bm : WorkerBitmapsPayload) (img0 : Bitmap) (rest : list Bitmap) :
  w_layoutMode st = left_big \/ w_layoutMode st = right_big ->
  b_grid bm = img0 :: rest -> rest <> [] ->
  let gx := w_gap st * sx in
  let gy := w_gap st * sy in
  let isLeft := LayoutMode_eqb (w_layoutMode st) left_big in
  let cols := Js.Math_ceil (sqrt (INR (List.length rest))) in
  let rows := Js.Math_ceil (INR (List.length rest) / IZR cols) in
  let startX := if isLeft then W / 2 + gx / 2 else gx in
  let cellW := (W / 2 - gx * 1.5 - IZR (cols - 1) * gx) / IZR cols in
  let cellH := (H - IZR (rows + 1) * gy) / IZR rows in
  value (Worker.drawLayout W H sx sy st bm)
  = Worker.drawImage (w_globalZoom st) (w_imageFit st) img0
      (if isLeft then gx else W / 2 + gx / 2) gy
      (W / 2 - gx * 1.5) (H - gy * 2) 1
    :: mapi (fun img i =>
               Worker.drawImage (w_globalZoom st) (w_imageFit st) img
                 (startX + IZR (Z.of_nat i mod cols) * (cellW + gx))
                 (gy + IZR (Js.Math_floor (INR i / IZR cols)) * (cellH + gy))
                 cellW cellH 1)
         rest.
Proof.
  intros Hm Hl Hrest gx gy isLeft cols rows startX cellW cellH.
  assert (Hlen : (1 <= List.length rest)%nat).
  { destruct rest; [congruence | simpl; lia]. }
  destruct (secondary_counts _ Hlen) as [Ec Er].
  assert (Hguard : (1 <? List.length (img0 :: rest))%nat = true).
  { apply Nat.ltb_lt. simpl. lia. }
  unfold Worker.drawLayout.
  destruct Hm as [Hm | Hm]; rewrite Hm, Hl, Hguard;
    unfold startX, isLeft; rewrite Hm; cbn [LayoutMode_eqb slice1 tl];
    rewrite !value_bind; cbn [value ret fst app];
    f_equal;
    unfold forEach, mapi;
    (erewrite value_forEach_single; [|intros a i; reflexivity]);
    apply mapi_from_ext; intros a i;
    cbn [value divide fst ret];
    rewrite !Ec, !Er; reflexivity.
Qed.

Lemma App_grid_value (s : App.State) (W H : R) :
  App.layoutMode s = grid ->
  let n := List.length (App.loadedGridImages s) in
  let g := App.gap s in
  let cols := Js.Math_ceil (sqrt (INR n)) in
  let rows := Js.Math_ceil (INR n / IZR cols) in
  let cellW := (W - IZR (cols + 1) * g) / IZR cols in
  let cellH := (H - IZR (rows + 1) * g) / IZR rows in
  value (App.drawLayout s W H)
  = mapi (fun img i =>
            App.drawImage (App.globalZoom s) (App.imageFit s) img
              (g + IZR (Z.of_nat i mod cols) * (cellW + g))
              (g + IZR (Js.Math_floor (INR i / IZR cols)) * (cellH + g))
              cellW cellH 1)
      (App.loadedGridImages s).
Proof.
  intros Hm n g cols rows cellW cellH.
  unfold App.drawLayout. rewrite Hm.
  rewrite !value_bind. unfold forEach, mapi.
  erewrite value_forEach_single; [|intros a i; reflexivity].
  reflexivity.
Qed.

Lemma Worker_grid_value (W H sx sy : R) (st : WorkerStatePayload)
    (bm : WorkerBitmapsPayload) :
  w_layoutMode st = grid ->
  let n := List.length (b_grid bm) in
  let gx := w_gap st * sx in
  let gy := w_gap st * sy in
  let cols := Js.Math_ceil (sqrt (INR n)) in
  let rows := Js.Math_ceil (INR n / IZR cols) in
  let cellW := (W - IZR (cols + 1) * gx) / IZR cols in
  let cellH := (H - IZR (rows + 1) * gy) / IZR rows in
  value (Worker.drawLayout W H sx sy st bm)
  = mapi (fun img i =>
            Worker.drawImage (w_globalZoom st) (w_imageFit st) img
              (gx + IZR (Z.of_nat i mod cols) * (cellW + gx))
              (gy + IZR (Js.Math_floor (INR i / IZR cols)) * (cellH + gy))
              cellW cellH 1)
      (b_grid bm).
Proof.
  intros Hm n gx gy cols rows cellW cellH.
  unfold Worker.drawLayout. rewrite Hm.
  rewrite !value_bind. unfold forEach, mapi.
  erewrite value_forEach_single; [|intros a i; reflexivity].
  reflexivity.
Qed.

(** The cell width with [cols - 1] inner gaps across [W/2 - 1.5 g] is the
    grid cell width with [cols + 1] gaps across [W/2 + g/2]. *)
Lemma side_cell_width (W g : R) (cols : Z) :
  (W / 2 - g * 1.5 - IZR (cols - 1) * g) / IZR cols
  = (W / 2 + g / 2 - IZR (cols + 1) * g) / IZR cols.
Proof.
  rewrite minus_IZR, plus_IZR. f_equal. lra.
Qed.

(** C3, as the code has it.  In left-big and right-big modes with at least
    two pictures the first picture is confined to a cell of width
    [W/2 - 1.5 g] and height [H - 2 g] on its named side ([x = g] on the
    left, [x = W/2 + g/2] on the right).  The remaining pictures are
    placed as grid mode places them on a canvas of width [W/2 + g/2] and
    full height, moved to the other side: same [cols] and [rows], cell
    height [(H - (rows+1) g) / rows], and cell width
    [(W/2 - 1.5 g - (cols-1) g) / cols], that is [cols - 1] gaps across the
    width [W/2 - 1.5 g] left free beside the first picture (equally,
    [cols + 1] gaps across [W/2 + g/2]).  The export renderer does the same
    with the gap scaled per axis. *)
Theorem side_big_placement :
  (forall (s : App.State) (W H : R) (img0 : Bitmap) (rest : list Bitmap),
      App.layoutMode s = left_big \/ App.layoutMode s = right_big ->
      App.loadedGridImages s = img0 :: rest -> rest <> [] ->
      let g := App.gap s in
      let isLeft := LayoutMode_eqb (App.layoutMode s) left_big in
      let cols := Js.Math_ceil (sqrt (INR (List.length rest))) in
      let rows := Js.Math_ceil (INR (List.length rest) / IZR cols) in
      let cellW := (W / 2 - g * 1.5 - IZR (cols - 1) * g) / IZR cols in
      let cellH := (H - IZR (rows + 1) * g) / IZR rows in
      value (App.drawLayout s W H)
      = App.drawImage (App.globalZoom s) (App.imageFit s) img0
          (if isLeft then g else W / 2 + g / 2) g
          (W / 2 - g * 1.5) (H - g * 2) 1
        :: map (shiftOp (if isLeft then W / 2 - g / 2 else 0))
             (value (App.drawLayout (asGrid s rest) (W / 2 + g / 2) H))
      /\ forall i img, nth_error rest i = Some img ->
           nth_error (cellsOf (value (App.drawLayout s W H))) (S i)
           = Some (mkRect
                     ((if isLeft then W / 2 + g / 2 else g)
                      + IZR (Z.of_nat i mod cols) * (cellW + g))
                     (g + IZR (Js.Math_floor (INR i / IZR cols))
                          * (cellH + g))
                     cellW cellH))
  /\ (forall (W H sx sy : R) (st : WorkerStatePayload)
        (bm : WorkerBitmapsPayload) (img0 : Bitmap) (rest : list Bitmap),
      w_layoutMode st = left_big \/ w_layoutMode st = right_big ->
      b_grid bm = img0 :: rest -> rest <> [] ->
      let gx := w_gap st * sx in
      let gy := w_gap st * sy in
      let isLeft := LayoutMode_eqb (w_layoutMode st) left_big in
      let cols := Js.Math_ceil (sqrt (INR (List.length rest))) in
      let rows := Js.Math_ceil (INR (List.length rest) / IZR cols) in
      let cellW := (W / 2 - gx * 1.5 - IZR (cols - 1) * gx) / IZR cols in
      let cellH := (H - IZR (rows + 1) * gy) / IZR rows in
      value (Worker.drawLayout W H sx sy st bm)
      = Worker.drawImage (w_globalZoom st) (w_imageFit st) img0
          (if isLeft then gx else W / 2 + gx / 2) gy
          (W / 2 - gx * 1.5) (H - gy * 2) 1
        :: map (shiftOp (if isLeft then W / 2 - gx / 2 else 0))
             (value (Worker.drawLayout (W / 2 + gx / 2) H sx sy
                       (asGridPayload st) (withGridBitmaps bm rest)))
      /\ forall i img, nth_error rest i = Some img ->
           nth_error (cellsOf (value (Worker.drawLayout W H sx sy st bm)))
             (S i)
           = Some (mkRect
                     ((if isLeft then W / 2 + gx / 2 else gx)
                      + IZR (Z.of_nat i mod cols) * (cellW + gx))
                     (gy + IZR (Js.Math_floor (INR i / IZR cols))
                           * (cellH + gy))
                     cellW cellH)).
Proof.
  split.
  - intros s W H img0 rest Hm Hl Hrest g isLeft cols rows cellW cellH.
    rewrite (App_side_big_value s W H img0 rest Hm Hl Hrest).
    fold g isLeft cols rows cellW cellH. split.
    + f_equal.
      rewrite (App_grid_value (asGrid s rest) (W / 2 + g / 2) H eq_refl).
      cbn [asGrid App.loadedGridImages App.gap App.globalZoom App.imageFit].
      fold g cols rows.
      unfold mapi. rewrite map_mapi_from. apply mapi_from_ext.
      intros a i. rewrite App_drawImage_shift.
      rewrite <- (side_cell_width W g cols). fold cellW cellH.
      f_equal. destruct isLeft; lra.
    + intros i img Hi. cbn [cellsOf flat_map cellOf App.drawImage app].
      cbn [nth_error]. fold (cellsOf).
      unfold mapi.
      erewrite cellsOf_mapi_clipped; [|intros a k; reflexivity].
      rewrite nth_error_mapi_from, Hi. reflexivity.
  - intros W H sx sy st bm img0 rest Hm Hl Hrest gx gy isLeft cols rows
      cellW cellH.
    rewrite (Worker_side_big_value W H sx sy st bm img0 rest Hm Hl Hrest).
    fold gx gy isLeft cols rows cellW cellH. split.
    + f_equal.
      rewrite (Worker_grid_value (W / 2 + gx / 2) H sx sy
                 (asGridPayload st) (withGridBitmaps bm rest) eq_refl).
      cbn [asGridPayload withGridBitmaps b_grid w_gap w_globalZoom
           w_imageFit].
      fold gx gy cols rows.
      unfold mapi. rewrite map_mapi_from. apply mapi_from_ext.
      intros a i. rewrite Worker_drawImage_shift.
      rewrite <- (side_cell_width W gx cols). fold cellW cellH.
      f_equal. destruct isLeft; lra.
    + intros i img Hi. cbn [cellsOf flat_map cellOf Worker.drawImage app].
      cbn [nth_error]. fold (cellsOf).
      unfold mapi.
      erewrite cellsOf_mapi_clipped; [|intros a k; reflexivity].
      rewrite nth_error_mapi_from, Hi. reflexivity.
Qed.

Lemma side_big_placement_witness :
  value (App.drawLayout leftBigPair 800 600)
  = App.drawImage (App.globalZoom leftBigPair) (App.imageFit leftBigPair)
      picA
      (if LayoutMode_eqb (App.layoutMode leftBigPair) left_big
       then App.gap leftBigPair
       else 800 / 2 + App.gap leftBigPair / 2)
      (App.gap leftBigPair)
      (800 / 2 - App.gap leftBigPair * 1.5)
      (600 - App.gap leftBigPair * 2) 1
    :: map (shiftOp
              (if LayoutMode_eqb (App.layoutMode leftBigPair) left_big
               then 800 / 2 - App.gap leftBigPair / 2
               else 0))
         (value (App.drawLayout (asGrid leftBigPair [picB])
                   (800 / 2 + App.gap leftBigPair / 2) 600)).
Proof.
  refine (proj1 (proj1 side_big_placement leftBigPair 800 600 picA [picB]
                   _ _ _)).
  - left. reflexivity.
  - reflexivity.
  - discriminate.
Defined.

Lemma counts_of_one :
  Js.Math_ceil (sqrt (INR 1)) = 1%Z
  /\ Js.Math_ceil (INR 1 / IZR 1) = 1%Z
  /\ Js.Math_floor (INR 0 / IZR 1) = 0%Z.
Proof.
  split; [|split].
  - rewrite Math_ceil_sqrt. reflexivity.
  - rewrite Math_ceil_div by lia. reflexivity.
  - rewrite Math_floor_div by lia. reflexivity.
Qed.

(** C3 as stated fails.  With two pictures, gap 16 and a canvas of 800 by
    600 in left-big mode, the second picture's cell is 376 wide at
    [x = 408].  Grid mode confined to the half-width column (width 400,
    starting at 400) gives a cell 368 wide at [x = 416], which is the
    [(cols + 1)]-gap formula [(400 - 2 * 16) / 1]. *)
Lemma left_big_secondary_cell_differs_from_half_column_grid :
  cellsOf (value (App.drawLayout leftBigPair 800 600))
  = [mkRect 16 16 376 568; mkRect 408 16 376 568]
  /\ map (shiftRect (800 / 2))
       (cellsOf (value (App.drawLayout (asGrid leftBigPair [picB])
                          (800 / 2) 600)))
     = [mkRect 416 16 368 568]
  /\ cellsOf (value (App.drawLayout leftBigPair 800 600))
     <> mkRect 16 16 376 568
        :: map (shiftRect (800 / 2))
             (cellsOf (value (App.drawLayout (asGrid leftBigPair [picB])
                                (800 / 2) 600))).
Proof.
  destruct counts_of_one as [Ec [Er Ef]].
  assert (E1 : cellsOf (value (App.drawLayout leftBigPair 800 600))
               = [mkRect 16 16 376 568; mkRect 408 16 376 568]).
  { rewrite (App_side_big_value leftBigPair 800 600 picA [picB]
               (or_introl eq_refl) eq_refl ltac:(discriminate)).
    cbn [leftBigPair sampleState App.gap App.layoutMode LayoutMode_eqb
         List.length mapi mapi_from cellsOf flat_map cellOf App.drawImage
         app].
    rewrite Ec, Er, Ef.
    change (Z.of_nat 0 mod 1)%Z with 0%Z.
    change (1 - 1)%Z with 0%Z. change (1 + 1)%Z with 2%Z.
    repeat (f_equal; try lra). }
  assert (E2 : map (shiftRect (800 / 2))
                 (cellsOf (value (App.drawLayout (asGrid leftBigPair [picB])
                                    (800 / 2) 600)))
               = [mkRect 416 16 368 568]).
  { rewrite (App_grid_cells (asGrid leftBigPair [picB]) (800 / 2) 600
               eq_refl).
    cbn [leftBigPair sampleState asGrid App.gap App.loadedGridImages
         List.length mapi mapi_from map shiftRect rx ry rw rh].
    rewrite Ec, Er, Ef.
    change (Z.of_nat 0 mod 1)%Z with 0%Z. change (1 + 1)%Z with 2%Z.
    unfold shiftRect. cbn [rx ry rw rh].
    repeat (f_equal; try lra). }
  split; [exact E1|]. split; [exact E2|].
  rewrite E1, E2. intros H. inversion H. lra.
Qed.

(** ** No picture, one picture *)

Lemma App_layout_empty (s : App.State) (W H : R) :
  App.loadedGridImages s = [] -> App.layoutMode s <> freeform ->
  value (App.drawLayout s W H) = [].
Proof.
  intros Hl Hm. unfold App.drawLayout. rewrite Hl.
  destruct (App.layoutMode s); try reflexivity. congruence.
Qed.

Lemma Worker_layout_empty (W H sx sy : R) (st : WorkerStatePayload)
    (bm : WorkerBitmapsPayload) :
  b_grid bm = [] -> w_layoutMode st <> freeform ->
  value (Worker.drawLayout W H sx sy st bm) = [].
Proof.
  intros Hl Hm. unfold Worker.drawLayout. rewrite Hl.
  destruct (w_layoutMode st); try reflexivity. congruence.
Qed.

Lemma Forall_two (l : list R) :
  Forall (fun d => d = 2) l -> Forall (fun d => d = 2 /\ d <> 0) l.
Proof.
  intros H. eapply Forall_impl; [|exact H]. simpl. intros d ->. lra.
Qed.

Lemma cellsOf_page_texts (measureText : string -> R -> string -> R)
    (layers : list TextLayer) :
  cellsOf (map (App.drawTextLayer measureText) layers) = [].
Proof. induction layers; [reflexivity | assumption]. Qed.

Lemma cellsOf_export_texts (measureText : string -> R -> string -> R)
    (sx sy : R) (layers : list TextLayer) :
  cellsOf (map (Worker.drawTextLayer measureText sx sy) layers) = [].
Proof. induction layers; [reflexivity | assumption]. Qed.

Lemma App_canvas_cells_empty (measureText : string -> R -> string -> R)
    (s : App.State) (debounced : list TextLayer) (W H : R) :
  App.loadedGridImages s = [] -> App.layoutMode s <> freeform ->
  cellsOf (App.drawCanvas measureText s debounced W H) = [].
Proof.
  intros Hl Hm. unfold App.drawCanvas.
  change (cellsOf (?a :: ?b :: ?l)) with (cellOf a ++ cellOf b ++ cellsOf l).
  assert (Hb : cellOf
                 match App.background s, App.loadedBackgroundImage s with
                 | BgImage _, Some b => DrawBackground b (mkRect 0 0 W H)
                 | bg, _ =>
                     FillBackground (App.backgroundFill bg)
                       (mkRect 0 0 W H)
                 end = []).
  { destruct (App.background s), (App.loadedBackgroundImage s);
      reflexivity. }
  rewrite Hb. cbn [cellOf app].
  destruct (_ && _ && _); [reflexivity|].
  rewrite !cellsOf_app, (App_layout_empty s W H Hl Hm), cellsOf_page_texts.
  unfold App.drawWatermark.
  destruct (App.watermark s), (App.loadedWatermark s); reflexivity.
Qed.

Lemma Worker_canvas_cells_empty (measureText : string -> R -> string -> R)
    (We He Wp Hp : R) (st : WorkerStatePayload) (bm : WorkerBitmapsPayload) :
  b_grid bm = [] -> w_layoutMode st <> freeform ->
  cellsOf (Worker.drawExportCanvas measureText We He Wp Hp st bm) = [].
Proof.
  intros Hl Hm. unfold Worker.drawExportCanvas.
  change (cellsOf (?a :: ?b :: ?l)) with (cellOf a ++ cellOf b ++ cellsOf l).
  assert (Hb : cellOf
                 match w_background st, b_background bm with
                 | BgImage _, Some b => DrawBackground b (mkRect 0 0 We He)
                 | bg, _ =>
                     FillBackground (App.backgroundFill bg)
                       (mkRect 0 0 We He)
                 end = []).
  { destruct (w_background st), (b_background bm); reflexivity. }
  rewrite Hb. cbn [cellOf app].
  rewrite !cellsOf_app, (Worker_layout_empty _ _ _ _ st bm Hl Hm),
    cellsOf_export_texts.
  unfold Worker.drawWatermark.
  destruct (w_watermark st), (b_watermark bm); reflexivity.
Qed.

(** C7.  With no decoded picture every algorithmic layout mode issues no
    image operation, in both renderers, and neither whole paint confines
    any picture to a rectangle.  With one picture, each of the four
    big modes issues exactly one image operation, confined to the big cell
    of the mode; the secondary grid is not computed: every division the
    layout evaluates is a division by the constant 2, none by [cols],
    [rows] or zero. *)
Theorem no_picture_and_single_picture_layouts :
  (forall (s : App.State) (W H : R),
      App.loadedGridImages s = [] -> App.layoutMode s <> freeform ->
      value (App.drawLayout s W H) = [])
  /\ (forall (W H sx sy : R) (st : WorkerStatePayload)
        (bm : WorkerBitmapsPayload),
      b_grid bm = [] -> w_layoutMode st <> freeform ->
      value (Worker.drawLayout W H sx sy st bm) = [])
  /\ (forall (s : App.State) (W H : R) (img : Bitmap),
      App.loadedGridImages s = [img] -> big_mode (App.layoutMode s) ->
      List.length (value (App.drawLayout s W H)) = 1%nat
      /\ flat_map pictureOf (value (App.drawLayout s W H)) = [img]
      /\ cellsOf (value (App.drawLayout s W H))
         = [big_cell (App.layoutMode s) W H (App.gap s) (App.gap s)]
      /\ Forall (fun d => d = 2 /\ d <> 0) (divisors (App.drawLayout s W H)))
  /\ (forall (W H sx sy : R) (st : WorkerStatePayload)
        (bm : WorkerBitmapsPayload) (img : Bitmap),
      b_grid bm = [img] -> big_mode (w_layoutMode st) ->
      List.length (value (Worker.drawLayout W H sx sy st bm)) = 1%nat
      /\ flat_map pictureOf (value (Worker.drawLayout W H sx sy st bm))
         = [img]
      /\ cellsOf (value (Worker.drawLayout W H sx sy st bm))
         = [big_cell (w_layoutMode st) W H (w_gap st * sx) (w_gap st * sy)]
      /\ Forall (fun d => d = 2 /\ d <> 0)
           (divisors (Worker.drawLayout W H sx sy st bm)))
  /\ (forall (measureText : string -> R -> string -> R) (s : App.State)
        (debounced : list TextLayer) (W H : R),
      App.loadedGridImages s = [] -> App.layoutMode s <> freeform ->
      cellsOf (App.drawCanvas measureText s debounced W H) = [])
  /\ (forall (measureText : string -> R -> string -> R) (We He Wp Hp : R)
        (st : WorkerStatePayload) (bm : WorkerBitmapsPayload),
      b_grid bm = [] -> w_layoutMode st <> freeform ->
      cellsOf (Worker.drawExportCanvas measureText We He Wp Hp st bm) = []).
Proof.
  split; [exact App_layout_empty|]. split; [exact Worker_layout_empty|].
  split; [|split; [|split;
    [exact App_canvas_cells_empty | exact Worker_canvas_cells_empty]]].
  - intros s W H img Hl Hbig. unfold App.drawLayout. rewrite Hl.
    destruct Hbig as [Hm | [Hm | [Hm | Hm]]]; rewrite Hm;
      (split; [reflexivity|]); (split; [reflexivity|]);
      (split; [reflexivity|]);
      apply Forall_two; cbn; repeat constructor.
  - intros W H sx sy st bm img Hl Hbig. unfold Worker.drawLayout.
    rewrite Hl.
    destruct Hbig as [Hm | [Hm | [Hm | Hm]]]; rewrite Hm;
      (split; [reflexivity|]); (split; [reflexivity|]);
      (split; [reflexivity|]);
      apply Forall_two; cbn; repeat constructor.
Qed.

Lemma no_picture_and_single_picture_layouts_witness :
  List.length (value (App.drawLayout singleBottomBig 800 600)) = 1%nat
  /\ flat_map pictureOf (value (App.drawLayout singleBottomBig 800 600))
     = [picA]
  /\ cellsOf (value (App.drawLayout singleBottomBig 800 600))
     = [big_cell (App.layoutMode singleBottomBig) 800 600
          (App.gap singleBottomBig) (App.gap singleBottomBig)]
  /\ Forall (fun d => d = 2 /\ d <> 0)
       (divisors (App.drawLayout singleBottomBig 800 600)).
Proof.
  apply (proj1 (proj2 (proj2 no_picture_and_single_picture_layouts))
           singleBottomBig 800 600 picA).
  - reflexivity.
  - right. right. right. reflexivity.
Defined.

(** ** The stable sort *)

Section SortByKey.

Context {A : Type} (key : A -> R).

Let cmp : A -> A -> R := fun a b => key a - key b.
Let before : A -> A -> Prop := fun a b => key a <= key b.

Lemma insert_perm (a : A) (l : list A) :
  Permutation (Js.insert cmp a l) (a :: l).
Proof.
  induction l as [|b l IH]; simpl; [reflexivity|].
  destruct (Js.leb (cmp a b) 0); [reflexivity|].
  rewrite IH. apply perm_swap.
Qed.

Lemma sort_perm (l : list A) : Permutation (Js.sort cmp l) l.
Proof.
  induction l as [|a l IH]; simpl; [reflexivity|].
  rewrite insert_perm. now constructor.
Qed.

Lemma insert_sorted (a : A) (l : list A) :
  StronglySorted before l -> StronglySorted before (Js.insert cmp a l).
Proof.
  induction l as [|b l IH]; intros Hs; simpl.
  - constructor; constructor.
  - inversion Hs as [|? ? Hs' Hb]; subst.
    destruct (Js.leb (cmp a b) 0) eqn:E.
    + apply leb_true in E. unfold cmp in E.
      constructor; [assumption|].
      constructor; [unfold before; lra|].
      eapply Forall_impl; [|exact Hb]. unfold before. simpl. intros; lra.
    + apply leb_false in E. unfold cmp in E.
      constructor; [apply IH, Hs'|].
      apply Forall_forall. intros c Hc.
      apply (Permutation_in _ (insert_perm a l)) in Hc.
      destruct Hc as [<- | Hc]; [unfold before; lra|].
      rewrite Forall_forall in Hb. now apply Hb.
Qed.

Lemma sort_sorted (l : list A) : StronglySorted before (Js.sort cmp l).
Proof.
  induction l as [|a l IH]; simpl; [constructor|].
  apply insert_sorted, IH.
Qed.



End SortByKey.

(** ** Free placement *)

Lemma concat_mapi_from_const {A B : Type} (h : A -> list B) (l : list A)
    (k : nat) :
  List.concat (mapi_from k (fun a _ => h a) l) = flat_map h l.
Proof.
  revert k. induction l as [|a l IH]; intros k; simpl.
  - reflexivity.
  - now rewrite IH.
Qed.

Lemma filter_flat_map {A B : Type} (p : B -> bool) (h : A -> list B)
    (l : list A) :
  filter p (flat_map h l) = flat_map (fun a => filter p (h a)) l.
Proof.
  induction l as [|a l IH]; simpl; [reflexivity|].
  now rewrite filter_app, IH.
Qed.

Lemma App_freeform_value (s : App.State) (W H : R) :
  App.layoutMode s = freeform ->
  filter composed (value (App.drawLayout s W H))
  = flat_map
      (fun im =>
         match Js.find (fun li => Js.str_eqb (src li) (url im))
                 (App.loadedGridImages s), geometry im with
         | Some li, Some r => [PlainImage li r]
         | _, _ => []
         end)
      (Js.sort (fun a b => Js.or0 (zIndex a) - Js.or0 (zIndex b))
         (App.images s)).
Proof.
  intros Hm. unfold App.drawLayout. rewrite Hm.
  unfold forEach. rewrite value_forEach_from.
  rewrite concat_mapi_from_const, filter_flat_map.
  apply flat_map_ext. intros im. unfold geometry.
  destruct (Js.find _ _), (x im), (y im), (width im), (height im);
    try reflexivity.
  destruct (App.is_selected _ _); reflexivity.
Qed.

Lemma Worker_freeform_value (W H sx sy : R) (st : WorkerStatePayload)
    (bm : WorkerBitmapsPayload) :
  w_layoutMode st = freeform ->
  value (Worker.drawLayout W H sx sy st bm)
  = flat_map
      (fun im =>
         match Js.at_index (b_grid bm)
                 (Js.findIndex (fun i => Js.str_eqb (s_id i) (s_id im))
                    (w_images st)), s_geometry im with
         | Some li, Some r => [PlainImage li (scaleRect sx sy r)]
         | _, _ => []
         end)
      (Js.sort (fun a b => Js.or0 (s_zIndex a) - Js.or0 (s_zIndex b))
         (w_images st)).
Proof.
  intros Hm. unfold Worker.drawLayout. rewrite Hm.
  unfold forEach. rewrite value_forEach_from.
  rewrite concat_mapi_from_const.
  apply flat_map_ext. intros im. unfold s_geometry.
  destruct (Js.at_index _ _), (s_x im), (s_y im), (s_width im),
           (s_height im); reflexivity.
Qed.




(** ** The export against the page *)

Section Corresponds.

Variables sx sy : R.

Lemma corresponds_cell (p e : DrawOp) :
  corresponds sx sy p e -> cellOf e = map (scaleRect sx sy) (cellOf p).
Proof.
  destruct p, e; simpl; intros H; try contradiction; try discriminate H;
    try (inversion H; subst; reflexivity).
  destruct H as [_ [-> _]]. reflexivity.
Qed.

Lemma corresponds_text (p e : DrawOp) :
  corresponds sx sy p e -> textOf e = map (scaleText sx sy) (textOf p).
Proof.
  destruct p, e; simpl; intros H; try contradiction; try discriminate H;
    try (inversion H; subst; reflexivity); reflexivity.
Qed.

Lemma corresponds_composed (p e : DrawOp) :
  corresponds sx sy p e -> composed p = true.
Proof. destruct p; simpl; intros H; try contradiction; reflexivity. Qed.

Lemma corresponds_uniform (p e : DrawOp) :
  sx = sy -> corresponds sx sy p e -> e = scaleOp sx sy p.
Proof.
  intros Hs. destruct p, e; simpl; intros H; try contradiction;
    try discriminate H; try exact H.
  - destruct H as [-> [-> Hr]]. now rewrite (Hr Hs).
  - destruct H as [-> [-> [_ [_ Hr]]]]. now rewrite (Hr Hs).
Qed.

Lemma Forall2_corresponds_cells (P E : list DrawOp) :
  Forall2 (corresponds sx sy) P E ->
  cellsOf E = map (scaleRect sx sy) (cellsOf P).
Proof.
  induction 1 as [|p e P E Hpe _ IH]; [reflexivity|].
  unfold cellsOf in *. simpl.
  now rewrite map_app, (corresponds_cell p e Hpe), IH.
Qed.

Lemma Forall2_corresponds_texts (P E : list DrawOp) :
  Forall2 (corresponds sx sy) P E ->
  textsOf E = map (scaleText sx sy) (textsOf P).
Proof.
  induction 1 as [|p e P E Hpe _ IH]; [reflexivity|].
  unfold textsOf in *. simpl.
  now rewrite map_app, (corresponds_text p e Hpe), IH.
Qed.

Lemma Forall2_corresponds_uniform (P E : list DrawOp) :
  sx = sy -> Forall2 (corresponds sx sy) P E ->
  E = map (scaleOp sx sy) P.
Proof.
  intros Hs. induction 1 as [|p e P E Hpe _ IH]; [reflexivity|].
  simpl. now rewrite (corresponds_uniform p e Hs Hpe), IH.
Qed.

Lemma Forall2_corresponds_filter (P E : list DrawOp) :
  Forall2 (corresponds sx sy) P E ->
  Forall2 (corresponds sx sy) (filter composed P) E.
Proof.
  induction 1 as [|p e P E Hpe HPE IH]; [constructor|].
  simpl. rewrite (corresponds_composed p e Hpe). now constructor.
Qed.

Lemma ratio_scaled (w h : R) : sx <> 0 -> w * sx / (h * sx) = w / h.
Proof.
  intros Hs. unfold Rdiv. rewrite Rinv_mult.
  replace (w * sx * (/ h * / sx)) with (w * / h * (sx * / sx)) by ring.
  rewrite Rinv_r by assumption. ring.
Qed.

Lemma drawImage_corresponds (z : R) (f : ImageFit) (img : Bitmap)
    (x y w h e x' y' w' h' : R) :
  sx <> 0 ->
  x' = x * sx -> y' = y * sy -> w' = w * sx -> h' = h * sy ->
  corresponds sx sy (App.drawImage z f img x y w h e)
    (Worker.drawImage z f img x' y' w' h' e).
Proof.
  intros Hs -> -> -> ->. unfold App.drawImage, Worker.drawImage. simpl.
  split; [reflexivity|]. split; [reflexivity|].
  intros <-. rewrite (ratio_scaled w h Hs).
  unfold scaleRect. simpl.
  destruct f;
    match goal with
    | |- context [if ?c then _ else _] => destruct c
    end;
    f_equal; unfold Rdiv; ring.
Qed.

End Corresponds.

Lemma value_bind_app {A : Type} (m n : Div (list A)) :
  value (a <- m ;; b <- n ;; ret (a ++ b)) = value m ++ value n.
Proof. reflexivity. Qed.

Ltac layout_arith :=
  cbn [value divide modulo fst]; unfold Rdiv; ring.

Ltac one_fitted Hs :=
  rewrite ?value_bind; cbn [value ret fst];
  constructor; [|constructor];
  apply drawImage_corresponds; [exact Hs | layout_arith ..].

Lemma algorithmic_corresponds (s : App.State) (Wp Hp sx sy : R)
    (bm : WorkerBitmapsPayload) :
  sx <> 0 -> App.layoutMode s <> freeform ->
  b_grid bm = App.loadedGridImages s ->
  Forall2 (corresponds sx sy)
    (value (App.drawLayout s Wp Hp))
    (value (Worker.drawLayout (Wp * sx) (Hp * sy) sx sy
              (App.workerState s) bm)).
Proof.
  intros Hs Hfree Hgrid.
  unfold App.drawLayout, Worker.drawLayout.
  cbn [App.workerState w_layoutMode w_gap w_globalZoom w_imageFit
       w_mainZoom w_bgBlur w_bgOpacity w_images].
  rewrite Hgrid.
  destruct (App.layoutMode s) eqn:Hm; [| | | | | |congruence].
  - rewrite !value_bind. unfold forEach.
    apply Forall2_forEach_from. intros a i. one_fitted Hs.
  - rewrite !value_bind_app. apply Forall2_app.
    + destruct (App.loadedGridImages s); [constructor|].
      cbn [LayoutMode_eqb]. one_fitted Hs.
    + destruct (1 <? List.length (App.loadedGridImages s))%nat;
        [|constructor].
      cbn [LayoutMode_eqb]. rewrite !value_bind. unfold forEach.
      apply Forall2_forEach_from. intros a i. one_fitted Hs.
  - rewrite !value_bind_app. apply Forall2_app.
    + destruct (App.loadedGridImages s); [constructor|].
      cbn [LayoutMode_eqb]. one_fitted Hs.
    + destruct (1 <? List.length (App.loadedGridImages s))%nat;
        [|constructor].
      cbn [LayoutMode_eqb]. rewrite !value_bind. unfold forEach.
      apply Forall2_forEach_from. intros a i. one_fitted Hs.
  - rewrite !value_bind_app. apply Forall2_app.
    + destruct (App.loadedGridImages s); [constructor|].
      cbn [LayoutMode_eqb]. one_fitted Hs.
    + destruct (1 <? List.length (App.loadedGridImages s))%nat;
        [|constructor].
      cbn [LayoutMode_eqb]. rewrite !value_bind. unfold forEach.
      apply Forall2_forEach_from. intros a i. one_fitted Hs.
  - rewrite !value_bind_app. apply Forall2_app.
    + destruct (App.loadedGridImages s); [constructor|].
      cbn [LayoutMode_eqb]. one_fitted Hs.
    + destruct (1 <? List.length (App.loadedGridImages s))%nat;
        [|constructor].
      cbn [LayoutMode_eqb]. rewrite !value_bind. unfold forEach.
      apply Forall2_forEach_from. intros a i. one_fitted Hs.
  - rewrite !value_bind_app. apply Forall2_app.
    + destruct (0 <? List.length (slice1 (App.loadedGridImages s)))%nat;
        [|constructor].
      rewrite !value_bind. unfold forEach.
      apply Forall2_forEach_from. intros a i.
      rewrite ?value_bind. cbn [value ret fst].
      constructor; [|constructor]. cbn [corresponds scaleOp].
      unfold scaleRect. cbn [rx ry rw rh].
      f_equal. f_equal; layout_arith.
    + destruct (App.loadedGridImages s); [constructor|].
      one_fitted Hs.
Qed.

Lemma insert_map {A B : Type} (f : A -> B) (cmpA : A -> A -> R)
    (cmpB : B -> B -> R) (a : A) (l : list A) :
  (forall u v, cmpB (f u) (f v) = cmpA u v) ->
  Js.insert cmpB (f a) (map f l) = map f (Js.insert cmpA a l).
Proof.
  intros Hc. induction l as [|b l IH]; simpl; [reflexivity|].
  rewrite Hc. destruct (Js.leb (cmpA a b) 0); simpl; [reflexivity|].
  now rewrite IH.
Qed.

Lemma sort_map {A B : Type} (f : A -> B) (cmpA : A -> A -> R)
    (cmpB : B -> B -> R) (l : list A) :
  (forall u v, cmpB (f u) (f v) = cmpA u v) ->
  Js.sort cmpB (map f l) = map f (Js.sort cmpA l).
Proof.
  intros Hc. induction l as [|a l IH]; simpl; [reflexivity|].
  fold (Js.sort cmpB (map f l)). fold (Js.sort cmpA l).
  rewrite IH. now apply insert_map.
Qed.

Lemma flat_map_of_map {A B C : Type} (h : B -> list C) (f : A -> B)
    (l : list A) :
  flat_map h (map f l) = flat_map (fun a => h (f a)) l.
Proof.
  induction l as [|a l IH]; simpl; [reflexivity|]. now rewrite IH.
Qed.

Lemma Forall2_flat_map_in {A B : Type} (P : B -> B -> Prop)
    (h1 h2 : A -> list B) (l : list A) :
  (forall a, In a l -> Forall2 P (h1 a) (h2 a)) ->
  Forall2 P (flat_map h1 l) (flat_map h2 l).
Proof.
  induction l as [|a l IH]; intros H; simpl; [constructor|].
  apply Forall2_app.
  - apply H. now left.
  - apply IH. intros b Hb. apply H. now right.
Qed.

(** With settled pictures, looking a picture up by the image's URL (page)
    and by the image's index among the identifiers (worker) agree. *)
Lemma lookup_agree (imgs : list ImageState) (pictures : list Bitmap)
    (a : ImageState) :
  map src pictures = map url imgs ->
  NoDup (map id imgs) -> NoDup (map url imgs) ->
  In a imgs ->
  Js.find (fun li => Js.str_eqb (src li) (url a)) pictures
  = Js.at_index pictures
      (Js.findIndex
         (fun i => Js.str_eqb (s_id i) (s_id (App.serializableImage a)))
         (map App.serializableImage imgs)).
Proof.
  revert pictures.
  induction imgs as [|b imgs IH]; intros pictures Hsrc Hid Hurl Hin;
    [contradiction|].
  destruct pictures as [|p pictures]; [discriminate|].
  simpl in Hsrc. injection Hsrc as Hp Hsrc.
  inversion Hid as [|? ? Hnid Hid']; subst.
  inversion Hurl as [|? ? Hnurl Hurl']; subst.
  cbn [Js.find List.find map Js.findIndex App.serializableImage s_id].
  destruct Hin as [-> | Hin].
  - rewrite Hp.
    rewrite (proj2 (str_eqb_eq (url a) (url a)) eq_refl).
    rewrite (proj2 (str_eqb_eq (id a) (id a)) eq_refl).
    reflexivity.
  - assert (Hu : Js.str_eqb (src p) (url a) = false).
    { apply str_eqb_neq. rewrite Hp. intros E. apply Hnurl. rewrite E.
      now apply in_map. }
    assert (Hi : Js.str_eqb (id b) (id a) = false).
    { apply str_eqb_neq. intros E. apply Hnid. rewrite E.
      now apply in_map. }
    rewrite Hu, Hi.
    specialize (IH pictures Hsrc Hid' Hurl' Hin).
    unfold Js.find in IH. rewrite IH.
    cbn [App.serializableImage s_id].
    destruct (Js.findIndex _ _); reflexivity.
Qed.

Lemma freeform_corresponds (s : App.State) (Wp Hp sx sy : R)
    (bm : WorkerBitmapsPayload) :
  App.layoutMode s = freeform -> settled s ->
  b_grid bm = App.loadedGridImages s ->
  Forall2 (corresponds sx sy)
    (filter composed (value (App.drawLayout s Wp Hp)))
    (value (Worker.drawLayout (Wp * sx) (Hp * sy) sx sy
              (App.workerState s) bm)).
Proof.
  intros Hm [Hsrc [Hid Hurl]] Hgrid.
  rewrite (App_freeform_value s Wp Hp Hm).
  rewrite (Worker_freeform_value _ _ sx sy (App.workerState s) bm Hm).
  cbn [App.workerState w_images]. rewrite Hgrid.
  rewrite (sort_map App.serializableImage
             (fun a b => Js.or0 (zIndex a) - Js.or0 (zIndex b)))
    by reflexivity.
  rewrite flat_map_of_map.
  apply Forall2_flat_map_in. intros a Ha.
  apply (Permutation_in _ (sort_perm (fun a => Js.or0 (zIndex a)) _)) in Ha.
  rewrite <- (lookup_agree (App.images s) (App.loadedGridImages s) a
                Hsrc Hid Hurl Ha).
  change (s_geometry (App.serializableImage a)) with (geometry a).
  destruct (Js.find _ _); [|constructor].
  destruct (geometry a); [|constructor].
  constructor; [reflexivity | constructor].
Qed.

Lemma layout_corresponds (s : App.State) (Wp Hp sx sy : R)
    (bm : WorkerBitmapsPayload) :
  sx <> 0 -> settled s -> b_grid bm = App.loadedGridImages s ->
  Forall2 (corresponds sx sy)
    (filter composed (value (App.drawLayout s Wp Hp)))
    (value (Worker.drawLayout (Wp * sx) (Hp * sy) sx sy
              (App.workerState s) bm)).
Proof.
  intros Hs Hset Hgrid.
  destruct (LayoutMode_eqb (App.layoutMode s) freeform) eqn:E.
  - apply freeform_corresponds; try assumption.
    destruct (App.layoutMode s); simpl in E; congruence.
  - apply Forall2_corresponds_filter, algorithmic_corresponds;
      try assumption.
    intros H. rewrite H in E. discriminate.
Qed.

Lemma watermark_corresponds (s : App.State) (Wp Hp sx sy : R)
    (bm : WorkerBitmapsPayload) :
  b_watermark bm = App.loadedWatermark s ->
  Forall2 (corresponds sx sy)
    (App.drawWatermark s Wp Hp)
    (Worker.drawWatermark (Wp * sx) (Hp * sy) sx sy (App.workerState s) bm).
Proof.
  intros Hwm. unfold App.drawWatermark, Worker.drawWatermark.
  cbn [App.workerState w_watermark w_gap]. rewrite Hwm.
  destruct (App.watermark s) as [wm|]; [|constructor].
  destruct (App.loadedWatermark s) as [bmp|]; [|constructor].
  constructor; [|constructor].
  cbn [corresponds rx ry rw rh].
  split; [reflexivity|]. split; [reflexivity|].
  split; [|split].
  - destruct (position wm); cbn [fst snd]; unfold Rdiv; ring.
  - unfold Rdiv; ring.
  - intros <-. unfold scaleRect. cbn [rx ry rw rh].
    destruct (position wm); cbn [fst snd]; f_equal; unfold Rdiv; ring.
Qed.

Lemma text_corresponds (measureText : string -> R -> string -> R)
    (sx sy : R) (layers : list TextLayer) :
  linearMetrics measureText ->
  Forall2 (corresponds sx sy)
    (map (App.drawTextLayer measureText) layers)
    (map (Worker.drawTextLayer measureText sx sy) layers).
Proof.
  intros Hlin. induction layers as [|layer layers IH]; [constructor|].
  simpl. constructor; [|exact IH].
  unfold App.drawTextLayer, Worker.drawTextLayer.
  cbn [corresponds scaleOp]. unfold scaleText.
  cbn [td_x td_y td_angle td_fontSize td_fontFamily td_box td_shadow
       td_color td_text].
  rewrite Hlin.
  destruct (Js.gtb (backgroundOpacity layer) 0), (shadow layer);
    unfold scaleRect; cbn [rx ry rw rh];
    repeat (f_equal; try (unfold Rdiv; ring)).
Qed.

Lemma App_layout_nothing (s : App.State) (W H : R) :
  App.images s = [] -> App.loadedGridImages s = [] ->
  value (App.drawLayout s W H) = [].
Proof.
  intros Hi Hl. unfold App.drawLayout. rewrite Hi, Hl.
  destruct (App.layoutMode s); reflexivity.
Qed.

Lemma length_zero {A : Type} (l : list A) :
  (List.length l =? 0)%nat = true -> l = [].
Proof. destruct l; [reflexivity | discriminate]. Qed.

(** The whole operation lists, with the export size written
    [(Wp * sx, Hp * sy)]. *)
Lemma canvas_corresponds (measureText : string -> R -> string -> R)
    (s : App.State) (debounced : list TextLayer) (Wp Hp sx sy : R)
    (bm : WorkerBitmapsPayload) :
  sx <> 0 -> linearMetrics measureText -> settled s ->
  b_grid bm = App.loadedGridImages s ->
  b_watermark bm = App.loadedWatermark s ->
  b_background bm = App.loadedBackgroundImage s ->
  (App.background s = BgImage None -> App.loadedBackgroundImage s = None) ->
  (App.images s = [] -> App.watermark s = None -> debounced = [] ->
   App.textLayers s = []) ->
  Forall2 (corresponds sx sy)
    (filter composed (App.drawCanvas measureText s debounced Wp Hp))
    (ClearRect (mkRect 0 0 (Wp * sx) (Hp * sy))
     :: match w_background (App.workerState s), b_background bm with
        | BgImage _, Some b =>
            DrawBackground b (mkRect 0 0 (Wp * sx) (Hp * sy))
        | bg, _ =>
            FillBackground (App.backgroundFill bg)
              (mkRect 0 0 (Wp * sx) (Hp * sy))
        end
     :: value (Worker.drawLayout (Wp * sx) (Hp * sy) sx sy
                 (App.workerState s) bm)
        ++ Worker.drawWatermark (Wp * sx) (Hp * sy) sx sy
             (App.workerState s) bm
        ++ map (Worker.drawTextLayer measureText sx sy)
             (w_textLayers (App.workerState s))).
Proof.
  intros Hs Hlin Hset Hgrid Hwm Hbg Hnull Hprompt.
  pose proof (layout_corresponds s Wp Hp sx sy bm Hs Hset Hgrid) as HL.
  pose proof (watermark_corresponds s Wp Hp sx sy bm Hwm) as HW.
  pose proof (text_corresponds measureText sx sy (App.textLayers s) Hlin)
    as HT.
  unfold App.drawCanvas.
  cbn [App.workerState w_background w_textLayers]. rewrite Hbg.
  cbn [filter composed].
  constructor.
  { cbn [corresponds scaleOp]. unfold scaleRect. cbn [rx ry rw rh].
    do 2 f_equal; ring. }
  assert (Hb : composed
                 match App.background s, App.loadedBackgroundImage s with
                 | BgImage _, Some b => DrawBackground b (mkRect 0 0 Wp Hp)
                 | bg, _ =>
                     FillBackground (App.backgroundFill bg)
                       (mkRect 0 0 Wp Hp)
                 end = true).
  { destruct (App.background s), (App.loadedBackgroundImage s);
      reflexivity. }
  rewrite Hb. constructor.
  { destruct (App.background s) as [v | [i|]] eqn:Eb,
             (App.loadedBackgroundImage s) eqn:El;
      try (specialize (Hnull eq_refl); discriminate);
      cbn [App.serializableBackground corresponds scaleOp];
      unfold scaleRect; cbn [rx ry rw rh]; do 2 f_equal; ring. }
  destruct ((List.length (App.images s) =? 0)%nat
            && (List.length debounced =? 0)%nat
            && match App.watermark s with
               | Some _ => false
               | None => true
               end) eqn:Eempty.
  - apply andb_true_iff in Eempty as [Eempty Ewm].
    apply andb_true_iff in Eempty as [Eimg Etxt].
    apply length_zero in Eimg. apply length_zero in Etxt.
    assert (Hload : App.loadedGridImages s = []).
    { destruct Hset as [Hsrc _]. rewrite Eimg in Hsrc.
      destruct (App.loadedGridImages s); [reflexivity | discriminate]. }
    rewrite (App_layout_nothing s Wp Hp Eimg Hload) in HL.
    inversion HL as [HE|].
    unfold Worker.drawWatermark. cbn [App.workerState w_watermark].
    destruct (App.watermark s) eqn:Ew; [discriminate|].
    rewrite (Hprompt Eimg eq_refl Etxt).
    constructor.
  - rewrite !filter_app.
    apply Forall2_app; [exact HL|].
    apply Forall2_app.
    + now apply Forall2_corresponds_filter.
    + now apply Forall2_corresponds_filter.
Qed.

(** C1, as the code has it.  Take settled pictures (an image background
    without an uploaded image having no decoded picture), font metrics
    linear in the font size, [scaleX = We / Wp], [scaleY = He / Hp], and a
    page that does not show its upload prompt in place of text layers: the
    prompt test reads the debounced copy of the layers that the paint
    callback holds, so with no image and no watermark that copy is empty
    only if the layers are.  Then the export
    issues one operation for each operation of the page composition (the
    upload prompt and the selection overlay apart), in the same order, and
    - every clip cell, backdrop tile and free-placement rectangle is the
      page's scaled by axis, and it paints the same picture;
    - the backdrop blur is the page's times [scaleX];
    - every text layer is the page's with its position scaled by axis, its
      font size, padding, box and shadow blur scaled by [scaleY] and its
      shadow offsets scaled by axis;
    - the watermark has its width and horizontal position scaled by
      [scaleX];
    - when [scaleX = scaleY] the whole export list, including the rendered
      rectangle of every fitted image and the watermark rectangle, is the
      page list scaled. *)
Theorem export_matches_page
    (measureText : string -> R -> string -> R) (s : App.State)
    (debounced : list TextLayer) (Wp Hp We He : R)
    (bm : WorkerBitmapsPayload) :
  0 < Wp -> 0 < Hp -> 0 < We -> 0 < He ->
  linearMetrics measureText -> settled s ->
  b_grid bm = App.loadedGridImages s ->
  b_watermark bm = App.loadedWatermark s ->
  b_background bm = App.loadedBackgroundImage s ->
  (App.background s = BgImage None -> App.loadedBackgroundImage s = None) ->
  (App.images s = [] -> App.watermark s = None -> debounced = [] ->
   App.textLayers s = []) ->
  let scaleX := We / Wp in
  let scaleY := He / Hp in
  let page :=
    filter composed (App.drawCanvas measureText s debounced Wp Hp) in
  let export :=
    Worker.drawExportCanvas measureText We He Wp Hp (App.workerState s) bm in
  Forall2 (corresponds scaleX scaleY) page export
  /\ cellsOf export = map (scaleRect scaleX scaleY) (cellsOf page)
  /\ textsOf export = map (scaleText scaleX scaleY) (textsOf page)
  /\ (scaleX = scaleY -> export = map (scaleOp scaleX scaleY) page).
Proof.
  intros HWp HHp HWe HHe Hlin Hset Hgrid Hwm Hbg Hnull Hprompt scaleX scaleY
    page export.
  assert (HW : Wp * scaleX = We) by (unfold scaleX; field; lra).
  assert (HH : Hp * scaleY = He) by (unfold scaleY; field; lra).
  assert (Hs : scaleX <> 0).
  { unfold scaleX. apply Rgt_not_eq. apply Rdiv_lt_0_compat; assumption. }
  pose proof (canvas_corresponds measureText s debounced Wp Hp scaleX scaleY
                bm Hs Hlin Hset Hgrid Hwm Hbg Hnull Hprompt) as HC.
  rewrite HW, HH in HC.
  assert (HF : Forall2 (corresponds scaleX scaleY) page export)
    by exact HC.
  split; [exact HF|].
  split; [now apply Forall2_corresponds_cells|].
  split; [now apply Forall2_corresponds_texts|].
  intros E. now apply Forall2_corresponds_uniform.
Qed.

Lemma sampleMetrics_linear : linearMetrics sampleMetrics.
Proof. intros t f k family. unfold sampleMetrics, Rdiv. ring. Qed.

Lemma twoImagesAndText_settled : settled twoImagesAndText.
Proof.
  split; [reflexivity|].
  split; repeat constructor; simpl; intuition discriminate.
Qed.

Lemma export_matches_page_witness :
  Worker.drawExportCanvas sampleMetrics 2000 1500 800 600
    (App.workerState twoImagesAndText)
    (mkWorkerBitmaps [picA; picB] None None)
  = map (scaleOp (2000 / 800) (1500 / 600))
      (filter composed (App.drawCanvas sampleMetrics twoImagesAndText
                          [layerHi] 800 600)).
Proof.
  refine (proj2 (proj2 (proj2
            (export_matches_page sampleMetrics twoImagesAndText [layerHi]
               800 600 2000 1500 (mkWorkerBitmaps [picA; picB] None None)
               _ _ _ _ sampleMetrics_linear twoImagesAndText_settled
               eq_refl eq_refl eq_refl _ _))) _);
    try lra; discriminate.
Defined.

(** C1 as stated fails when the two factors differ.  A page canvas of 800
    by 600 exported at 1600 by 600 ([scaleX = 2], [scaleY = 1]) with a
    watermark of aspect 2 anchored bottom right: the page paints it at
    [(624, 504)] with size 160 by 80, which scaled by axis is [(1248, 504)]
    with size 320 by 80; the export paints it at [(1248, 424)] with size
    320 by 160, its height following its width. *)
Lemma export_watermark_is_not_the_page_watermark_scaled :
  flat_map watermarkOf
    (Worker.drawExportCanvas sampleMetrics 1600 600 800 600
       (App.workerState watermarkScene)
       (mkWorkerBitmaps [] (Some picW) None))
  = [mkRect 1248 424 320 160]
  /\ flat_map watermarkOf
       (map (scaleOp (1600 / 800) (600 / 600))
          (filter composed
             (App.drawCanvas sampleMetrics watermarkScene [] 800 600)))
     = [mkRect 1248 504 320 80]
  /\ Worker.drawExportCanvas sampleMetrics 1600 600 800 600
       (App.workerState watermarkScene)
       (mkWorkerBitmaps [] (Some picW) None)
     <> map (scaleOp (1600 / 800) (600 / 600))
          (filter composed
             (App.drawCanvas sampleMetrics watermarkScene [] 800 600)).
Proof.
  assert (E1 : flat_map watermarkOf
                 (Worker.drawExportCanvas sampleMetrics 1600 600 800 600
                    (App.workerState watermarkScene)
                    (mkWorkerBitmaps [] (Some picW) None))
               = [mkRect 1248 424 320 160]).
  { unfold Worker.drawExportCanvas.
    rewrite Worker_layout_empty by (reflexivity || discriminate).
    cbn [App.workerState watermarkScene App.watermark App.textLayers
         App.background App.serializableBackground App.gap
         w_watermark w_textLayers w_background w_gap b_background
         b_watermark map app flat_map watermarkOf Worker.drawWatermark
         position size opacity picW bm_width bm_height fst snd].
    repeat (f_equal; try lra). }
  assert (E2 : flat_map watermarkOf
                 (map (scaleOp (1600 / 800) (600 / 600))
                    (filter composed
                       (App.drawCanvas sampleMetrics watermarkScene []
                          800 600)))
               = [mkRect 1248 504 320 80]).
  { unfold App.drawCanvas.
    rewrite App_layout_empty by (reflexivity || discriminate).
    cbn [watermarkScene App.watermark App.textLayers App.images
         App.background App.loadedBackgroundImage App.loadedWatermark
         App.gap List.length Nat.eqb andb
         map app flat_map watermarkOf App.drawWatermark filter composed
         scaleOp position size opacity picW bm_width bm_height fst snd].
    unfold scaleRect. cbn [rx ry rw rh].
    repeat (f_equal; try lra). }
  split; [exact E1|]. split; [exact E2|].
  intros H. apply (f_equal (flat_map watermarkOf)) in H.
  rewrite E1, E2 in H. inversion H. lra.
Qed.

(** * Further properties of the code *)

(** ** The fit of a picture in its cell *)

Lemma gtb_true (a b : R) : Js.gtb a b = true <-> b < a.
Proof. unfold Js.gtb. apply ltb_true. Qed.

Lemma gtb_false (a b : R) : Js.gtb a b = false <-> a <= b.
Proof. unfold Js.gtb. apply ltb_false. Qed.

Lemma geb_true (a b : R) : Js.geb a b = true <-> b <= a.
Proof. unfold Js.geb. apply leb_true. Qed.

Lemma geb_false (a b : R) : Js.geb a b = false <-> a < b.
Proof. unfold Js.geb. apply leb_false. Qed.

Section Fit.

Variables (iw ih w h k : R).
Hypothesis (Hiw : 0 < iw) (Hih : 0 < ih) (Hw : 0 < w) (Hh : 0 < h)
  (Hk : 0 < k).

Let r := iw / ih.
Let c := w / h.

Lemma fit_ratio_pos : 0 < r /\ r * ih = iw /\ c * h = w /\ 0 < h * k.
Proof.
  unfold r, c. split; [apply Rdiv_lt_0_compat; assumption|].
  split; [field; lra|]. split; [field; lra|].
  apply Rmult_lt_0_compat; assumption.
Qed.

Lemma fit_by_height_aspect : h * k * r * ih = h * k * iw.
Proof. destruct fit_ratio_pos as [_ [E _]]. rewrite <- E. ring. Qed.

Lemma fit_by_width_aspect : w * k * ih = w * k / r * iw.
Proof. unfold r. field. lra. Qed.

Lemma fit_by_width_back : w * k / r * r = c * (h * k).
Proof. unfold r, c. field. lra. Qed.

Lemma fit_by_width_height_le : c <= r -> w * k / r <= h * k.
Proof.
  intros Hc. destruct fit_ratio_pos as [Hr [_ [_ Hhk]]].
  apply Rmult_le_reg_r with r; [assumption|].
  rewrite fit_by_width_back, (Rmult_comm (h * k) r).
  apply Rmult_le_compat_r; lra.
Qed.

Lemma fit_by_width_height_ge : r <= c -> h * k <= w * k / r.
Proof.
  intros Hc. destruct fit_ratio_pos as [Hr [_ [_ Hhk]]].
  apply Rmult_le_reg_r with r; [assumption|].
  rewrite fit_by_width_back, (Rmult_comm (h * k) r).
  apply Rmult_le_compat_r; lra.
Qed.

Lemma fit_by_height_width_lt : r < c -> h * k * r < w * k.
Proof.
  intros Hc. destruct fit_ratio_pos as [Hr [_ [E Hhk]]].
  replace (w * k) with (h * k * c) by (rewrite <- E; ring).
  apply Rmult_lt_compat_l; assumption.
Qed.

Lemma fit_by_height_width_gt : c < r -> w * k < h * k * r.
Proof.
  intros Hc. destruct fit_ratio_pos as [Hr [_ [E Hhk]]].
  replace (w * k) with (h * k * c) by (rewrite <- E; ring).
  apply Rmult_lt_compat_l; assumption.
Qed.

End Fit.

(** X1.  The [drawImage] helper of both renderers, for a picture and a cell
    of positive size and a positive zoom [k = globalZoom * extraZoom]: the
    picture is clipped to the cell; the rendered rectangle keeps the
    picture's aspect ratio and has the centre of the cell; under [contain]
    it is at most [k] times the cell in both directions and exactly [k]
    times in one (so at zoom 1 the picture is wholly visible), under
    [cover] it is at least [k] times the cell in both directions and
    exactly [k] times in one (so at zoom 1 the cell is wholly covered). *)
Theorem drawImage_fits_cell
    (z : R) (f : ImageFit) (img : Bitmap) (x y w h e : R) :
  0 < bm_width img -> 0 < bm_height img -> 0 < w -> 0 < h -> 0 < z * e ->
  exists render,
    App.drawImage z f img x y w h e
    = ClippedImage img (mkRect x y w h) render
    /\ Worker.drawImage z f img x y w h e
       = ClippedImage img (mkRect x y w h) render
    /\ rw render * bm_height img = rh render * bm_width img
    /\ rx render + rw render / 2 = x + w / 2
    /\ ry render + rh render / 2 = y + h / 2
    /\ match f with
       | contain =>
           rw render <= w * (z * e) /\ rh render <= h * (z * e)
           /\ (rw render = w * (z * e) \/ rh render = h * (z * e))
       | cover =>
           w * (z * e) <= rw render /\ h * (z * e) <= rh render
           /\ (rw render = w * (z * e) \/ rh render = h * (z * e))
       end.
Proof.
  intros Hiw Hih Hw Hh Hk.
  eexists. split; [reflexivity|]. split; [reflexivity|].
  cbn [rx ry rw rh].
  set (iw := bm_width img) in *. set (ih := bm_height img) in *.
  set (k := z * e) in *.
  assert (A1 : h * k * (iw / ih) * ih = h * k * iw)
    by (apply fit_by_height_aspect; assumption).
  assert (A2 : w * k * ih = w * k / (iw / ih) * iw)
    by (apply fit_by_width_aspect; assumption).
  assert (B1 : w / h <= iw / ih -> w * k / (iw / ih) <= h * k)
    by (apply fit_by_width_height_le; assumption).
  assert (B2 : iw / ih <= w / h -> h * k <= w * k / (iw / ih))
    by (apply fit_by_width_height_ge; assumption).
  assert (B3 : iw / ih < w / h -> h * k * (iw / ih) < w * k)
    by (apply fit_by_height_width_lt; assumption).
  assert (B4 : w / h < iw / ih -> w * k < h * k * (iw / ih))
    by (apply fit_by_height_width_gt; assumption).
  destruct f.
  - destruct (Js.ltb (iw / ih) (w / h)) eqn:E.
    + apply ltb_true in E. specialize (B3 E).
      repeat split; lra.
    + apply ltb_false in E. specialize (B1 E).
      repeat split; lra.
  - destruct (Js.gtb (iw / ih) (w / h)) eqn:E.
    + apply gtb_true in E. specialize (B4 E).
      repeat split; lra.
    + apply gtb_false in E. specialize (B2 E).
      repeat split; lra.
Qed.

Lemma drawImage_fits_cell_witness :
  exists render,
    App.drawImage 1 contain picA 16 16 376 276 1
    = ClippedImage picA (mkRect 16 16 376 276) render
    /\ Worker.drawImage 1 contain picA 16 16 376 276 1
       = ClippedImage picA (mkRect 16 16 376 276) render
    /\ rw render * bm_height picA = rh render * bm_width picA
    /\ rx render + rw render / 2 = 16 + 376 / 2
    /\ ry render + rh render / 2 = 16 + 276 / 2
    /\ (rw render <= 376 * (1 * 1) /\ rh render <= 276 * (1 * 1)
        /\ (rw render = 376 * (1 * 1) \/ rh render = 276 * (1 * 1))).
Proof.
  apply (drawImage_fits_cell 1 contain picA 16 16 376 276 1);
    simpl; lra.
Defined.

(** ** Grid cells stay inside the canvas and apart *)

Lemma axis_inside (L g : R) (cnt k : Z) :
  (1 <= cnt)%Z -> (0 <= k < cnt)%Z -> 0 <= g ->
  0 <= (L - IZR (cnt + 1) * g) / IZR cnt ->
  g <= g + IZR k * ((L - IZR (cnt + 1) * g) / IZR cnt + g)
  /\ g + IZR k * ((L - IZR (cnt + 1) * g) / IZR cnt + g)
     + (L - IZR (cnt + 1) * g) / IZR cnt <= g + (L - 2 * g).
Proof.
  intros Hcnt [Hk0 Hk1] Hg Hc.
  set (cw := (L - IZR (cnt + 1) * g) / IZR cnt) in *.
  assert (Hcnt' : 1 <= IZR cnt) by (apply IZR_le in Hcnt; exact Hcnt).
  assert (E : cw * IZR cnt = L - (IZR cnt + 1) * g).
  { unfold cw. rewrite plus_IZR. field. lra. }
  assert (K0 : 0 <= IZR k) by (apply IZR_le in Hk0; exact Hk0).
  assert (K1 : IZR k <= IZR cnt - 1).
  { assert (H : (k <= cnt - 1)%Z) by lia.
    apply IZR_le in H. now rewrite minus_IZR in H. }
  split; [nra|].
  assert (IZR k * (cw + g) <= (IZR cnt - 1) * (cw + g))
    by (apply Rmult_le_compat_r; lra).
  lra.
Qed.

Lemma axis_apart (g cw : R) (k1 k2 : Z) :
  0 <= g -> 0 <= cw -> (k1 < k2)%Z ->
  g + IZR k1 * (cw + g) + cw + g <= g + IZR k2 * (cw + g).
Proof.
  intros Hg Hc Hk.
  assert (H : (k1 + 1 <= k2)%Z) by lia.
  apply IZR_le in H. rewrite plus_IZR in H.
  assert ((IZR k1 + 1) * (cw + g) <= IZR k2 * (cw + g))
    by (apply Rmult_le_compat_r; lra).
  lra.
Qed.

Lemma gridCell_geometry (W H gx gy : R) (n i j : nat) :
  (i < n)%nat -> (j < n)%nat -> 0 <= gx -> 0 <= gy ->
  0 <= rw (gridCell W H gx gy n i) -> 0 <= rh (gridCell W H gx gy n i) ->
  within (gridCell W H gx gy n i) (margins W H gx gy)
  /\ rw (gridCell W H gx gy n j) = rw (gridCell W H gx gy n i)
  /\ rh (gridCell W H gx gy n j) = rh (gridCell W H gx gy n i)
  /\ (i <> j ->
      apart gx gy (gridCell W H gx gy n i) (gridCell W H gx gy n j)).
Proof.
  intros Hi Hj Hgx Hgy Hcw Hch.
  destruct (grid_counts n ltac:(lia)) as [_ [Hc [_ [_ [Hr Hrb]]]]].
  unfold gridCell, within, margins, apart in *. cbn [rx ry rw rh] in *.
  set (cols := Js.Math_ceil (sqrt (INR n))) in *.
  set (rows := Js.Math_ceil (INR n / IZR cols)) in *.
  rewrite !(Math_floor_div _ cols) by lia.
  assert (Hci : (0 <= Z.of_nat i mod cols < cols)%Z)
    by (apply Z.mod_pos_bound; lia).
  assert (Hcj : (0 <= Z.of_nat j mod cols < cols)%Z)
    by (apply Z.mod_pos_bound; lia).
  assert (Hri : (0 <= Z.of_nat i / cols < rows)%Z).
  { split; [apply Z.div_pos; lia|].
    apply Z.div_lt_upper_bound; [lia | nia]. }
  assert (Hrj : (0 <= Z.of_nat j / cols < rows)%Z).
  { split; [apply Z.div_pos; lia|].
    apply Z.div_lt_upper_bound; [lia | nia]. }
  destruct (axis_inside W gx cols _ Hc Hci Hgx Hcw) as [X1 X2].
  destruct (axis_inside H gy rows _ Hr Hri Hgy Hch) as [Y1 Y2].
  split; [repeat split; assumption|].
  split; [reflexivity|]. split; [reflexivity|].
  intros Hne.
  pose proof (Z.div_mod (Z.of_nat i) cols ltac:(lia)) as Di.
  pose proof (Z.div_mod (Z.of_nat j) cols ltac:(lia)) as Dj.
  destruct (Z.lt_total (Z.of_nat i mod cols) (Z.of_nat j mod cols))
    as [Hlt | [Heq | Hgt]].
  - left. now apply axis_apart.
  - destruct (Z.lt_total (Z.of_nat i / cols) (Z.of_nat j / cols))
      as [Hlt | [Heq' | Hgt]].
    + right. right. left. now apply axis_apart.
    + exfalso. apply Hne. apply Nat2Z.inj. rewrite Di, Dj, Heq, Heq'.
      reflexivity.
    + right. right. right. now apply axis_apart.
  - right. left. now apply axis_apart.
Qed.

Lemma App_grid_cells_gridCell (s : App.State) (W H : R) :
  App.layoutMode s = grid ->
  cellsOf (value (App.drawLayout s W H))
  = mapi (fun (_ : Bitmap) i =>
            gridCell W H (App.gap s) (App.gap s)
              (List.length (App.loadedGridImages s)) i)
      (App.loadedGridImages s).
Proof. intros Hm. now rewrite (App_grid_cells s W H Hm). Qed.

Lemma Worker_grid_cells_gridCell (W H sx sy : R) (st : WorkerStatePayload)
    (bm : WorkerBitmapsPayload) :
  w_layoutMode st = grid ->
  cellsOf (value (Worker.drawLayout W H sx sy st bm))
  = mapi (fun (_ : Bitmap) i =>
            gridCell W H (w_gap st * sx) (w_gap st * sy)
              (List.length (b_grid bm)) i)
      (b_grid bm).
Proof. intros Hm. now rewrite (Worker_grid_cells W H sx sy st bm Hm). Qed.

Lemma nth_error_mapi_cell {A : Type} (f : nat -> Rect) (l : list A)
    (i : nat) (c : Rect) :
  nth_error (mapi (fun (_ : A) k => f k) l) i = Some c ->
  (i < List.length l)%nat /\ c = f i.
Proof.
  unfold mapi. rewrite nth_error_mapi_from.
  destruct (nth_error l i) eqn:E; simpl; [|discriminate].
  intros H. inversion H. split; [|reflexivity].
  apply nth_error_Some. congruence.
Qed.

(** X2.  In grid mode with a non-negative gap, when the cells have
    non-negative width and height (the gap leaves room), every cell lies
    inside the canvas less a margin of one gap on each side, all cells have
    the same size, and two different cells are at least one gap apart
    (horizontally or vertically), so no picture overlaps another.  In the
    export renderer the same holds with the gap scaled by axis. *)
Theorem grid_cells_inside_and_apart :
  (forall (s : App.State) (W H : R) (i j : nat) (ci cj : Rect),
      App.layoutMode s = grid -> 0 <= App.gap s ->
      nth_error (cellsOf (value (App.drawLayout s W H))) i = Some ci ->
      nth_error (cellsOf (value (App.drawLayout s W H))) j = Some cj ->
      0 <= rw ci -> 0 <= rh ci ->
      within ci (margins W H (App.gap s) (App.gap s))
      /\ rw cj = rw ci /\ rh cj = rh ci
      /\ (i <> j -> apart (App.gap s) (App.gap s) ci cj))
  /\ (forall (W H sx sy : R) (st : WorkerStatePayload)
        (bm : WorkerBitmapsPayload) (i j : nat) (ci cj : Rect),
      w_layoutMode st = grid -> 0 <= w_gap st * sx -> 0 <= w_gap st * sy ->
      nth_error (cellsOf (value (Worker.drawLayout W H sx sy st bm))) i
      = Some ci ->
      nth_error (cellsOf (value (Worker.drawLayout W H sx sy st bm))) j
      = Some cj ->
      0 <= rw ci -> 0 <= rh ci ->
      within ci (margins W H (w_gap st * sx) (w_gap st * sy))
      /\ rw cj = rw ci /\ rh cj = rh ci
      /\ (i <> j -> apart (w_gap st * sx) (w_gap st * sy) ci cj)).
Proof.
  split.
  - intros s W H i j ci cj Hm Hg Hi Hj.
    rewrite (App_grid_cells_gridCell s W H Hm) in Hi, Hj.
    apply nth_error_mapi_cell in Hi as [Hi ->].
    apply nth_error_mapi_cell in Hj as [Hj ->].
    intros Hw Hh. now apply gridCell_geometry.
  - intros W H sx sy st bm i j ci cj Hm Hgx Hgy Hi Hj.
    rewrite (Worker_grid_cells_gridCell W H sx sy st bm Hm) in Hi, Hj.
    apply nth_error_mapi_cell in Hi as [Hi ->].
    apply nth_error_mapi_cell in Hj as [Hj ->].
    intros Hw Hh. now apply gridCell_geometry.
Qed.

Lemma fourGrid_cells :
  cellsOf (value (App.drawLayout fourGrid 800 600))
  = [mkRect 16 16 376 276; mkRect 408 16 376 276;
     mkRect 16 308 376 276; mkRect 408 308 376 276].
Proof.
  assert (Ec : Js.Math_ceil (sqrt (INR 4)) = 2%Z).
  { rewrite Math_ceil_sqrt. reflexivity. }
  assert (Er : Js.Math_ceil (INR 4 / IZR 2) = 2%Z).
  { rewrite Math_ceil_div by lia. reflexivity. }
  rewrite (App_grid_cells fourGrid 800 600 eq_refl).
  cbn [fourGrid sampleState App.loadedGridImages App.gap List.length].
  rewrite Ec, Er. unfold mapi. cbn [mapi_from].
  rewrite !Math_floor_div by lia.
  change (Z.of_nat 0 mod 2)%Z with 0%Z.
  change (Z.of_nat 1 mod 2)%Z with 1%Z.
  change (Z.of_nat 2 mod 2)%Z with 0%Z.
  change (Z.of_nat 3 mod 2)%Z with 1%Z.
  change (Z.of_nat 0 / 2)%Z with 0%Z.
  change (Z.of_nat 1 / 2)%Z with 0%Z.
  change (Z.of_nat 2 / 2)%Z with 1%Z.
  change (Z.of_nat 3 / 2)%Z with 1%Z.
  change (2 + 1)%Z with 3%Z.
  repeat (f_equal; try lra).
Qed.

Lemma grid_cells_inside_and_apart_witness :
  within (mkRect 16 16 376 276)
    (margins 800 600 (App.gap fourGrid) (App.gap fourGrid))
  /\ rw (mkRect 408 308 376 276) = rw (mkRect 16 16 376 276)
  /\ rh (mkRect 408 308 376 276) = rh (mkRect 16 16 376 276)
  /\ (0%nat <> 3%nat ->
      apart (App.gap fourGrid) (App.gap fourGrid)
        (mkRect 16 16 376 276) (mkRect 408 308 376 276)).
Proof.
  apply (proj1 grid_cells_inside_and_apart fourGrid 800 600 0%nat 3%nat).
  - reflexivity.
  - simpl. lra.
  - rewrite fourGrid_cells. reflexivity.
  - rewrite fourGrid_cells. reflexivity.
  - simpl. lra.
  - simpl. lra.
Defined.

(** ** The big modes *)

Lemma App_stack_big_value (s : App.State) (W H : R) (img0 : Bitmap)
    (rest : list Bitmap) :
  App.layoutMode s = top_big \/ App.layoutMode s = bottom_big ->
  App.loadedGridImages s = img0 :: rest -> rest <> [] ->
  let g := App.gap s in
  let isTop := LayoutMode_eqb (App.layoutMode s) top_big in
  let cols := Js.Math_ceil (sqrt (INR (List.length rest))) in
  let rows := Js.Math_ceil (INR (List.length rest) / IZR cols) in
  let startY := if isTop then H / 2 + g / 2 else g in
  let cellW := (W - IZR (cols + 1) * g) / IZR cols in
  let cellH := (H / 2 - g * 1.5 - IZR (rows - 1) * g) / IZR rows in
  value (App.drawLayout s W H)
  = App.drawImage (App.globalZoom s) (App.imageFit s) img0
      g (if isTop then g else H / 2 + g / 2) (W - g * 2) (H / 2 - g * 1.5) 1
    :: mapi (fun img i =>
               App.drawImage (App.globalZoom s) (App.imageFit s) img
                 (g + IZR (Z.of_nat i mod cols) * (cellW + g))
                 (startY
                  + IZR (Js.Math_floor (INR i / IZR cols)) * (cellH + g))
                 cellW cellH 1)
         rest.
Proof.
  intros Hm Hl Hrest g isTop cols rows startY cellW cellH.
  assert (Hlen : (1 <= List.length rest)%nat).
  { destruct rest; [congruence | simpl; lia]. }
  destruct (secondary_counts _ Hlen) as [Ec Er].
  assert (Hguard : (1 <? List.length (img0 :: rest))%nat = true).
  { apply Nat.ltb_lt. simpl. lia. }
  unfold App.drawLayout.
  destruct Hm as [Hm | Hm]; rewrite Hm, Hl, Hguard;
    unfold startY, isTop; rewrite Hm; cbn [LayoutMode_eqb slice1 tl];
    rewrite !value_bind; cbn [value ret fst app];
    f_equal;
    unfold forEach, mapi;
    (erewrite value_forEach_single; [|intros a i; reflexivity]);
    apply mapi_from_ext; intros a i;
    cbn [value divide fst ret];
    rewrite !Ec, !Er; reflexivity.
Qed.

Lemma Worker_stack_big_value (W H sx sy : R) (st : WorkerStatePayload)
    (bm : WorkerBitmapsPayload) (img0 : Bitmap) (rest : list Bitmap) :
  w_layoutMode st = top_big \/ w_layoutMode st = bottom_big ->
  b_grid bm = img0 :: rest -> rest <> [] ->
  let gx := w_gap st * sx in
  let gy := w_gap st * sy in
  let isTop := LayoutMode_eqb (w_layoutMode st) top_big in
  let cols := Js.Math_ceil (sqrt (INR (List.length rest))) in
  let rows := Js.Math_ceil (INR (List.length rest) / IZR cols) in
  let startY := if isTop then H / 2 + gy / 2 else gy in
  let cellW := (W - IZR (cols + 1) * gx) / IZR cols in
  let cellH := (H / 2 - gy * 1.5 - IZR (rows - 1) * gy) / IZR rows in
  value (Worker.drawLayout W H sx sy st bm)
  = Worker.drawImage (w_globalZoom st) (w_imageFit st) img0
      gx (if isTop then gy else H / 2 + gy / 2)
      (W - gx * 2) (H / 2 - gy * 1.5) 1
    :: mapi (fun img i =>
               Worker.drawImage (w_globalZoom st) (w_imageFit st) img
                 (gx + IZR (Z.of_nat i mod cols) * (cellW + gx))
                 (startY
                  + IZR (Js.Math_floor (INR i / IZR cols)) * (cellH + gy))
                 cellW cellH 1)
         rest.
Proof.
  intros Hm Hl Hrest gx gy isTop cols rows startY cellW cellH.
  assert (Hlen : (1 <= List.length rest)%nat).
  { destruct rest; [congruence | simpl; lia]. }
  destruct (secondary_counts _ Hlen) as [Ec Er].
  assert (Hguard : (1 <? List.length (img0 :: rest))%nat = true).
  { apply Nat.ltb_lt. simpl. lia. }
  unfold Worker.drawLayout.
  destruct Hm as [Hm | Hm]; rewrite Hm, Hl, Hguard;
    unfold startY, isTop; rewrite Hm; cbn [LayoutMode_eqb slice1 tl];
    rewrite !value_bind; cbn [value ret fst app];
    f_equal;
    unfold forEach, mapi;
    (erewrite value_forEach_single; [|intros a i; reflexivity]);
    apply mapi_from_ext; intros a i;
    cbn [value divide fst ret];
    rewrite !Ec, !Er; reflexivity.
Qed.

Lemma cellsOf_cons_mapi_App {A : Type} (op : DrawOp) (c : Rect)
    (g : A -> nat -> DrawOp) (cell : A -> nat -> Rect) (l : list A) :
  cellOf op = [c] -> (forall a i, cellOf (g a i) = [cell a i]) ->
  cellsOf (op :: mapi g l) = c :: mapi cell l.
Proof.
  intros Hop Hg. unfold cellsOf, mapi. cbn [flat_map]. rewrite Hop.
  cbn [app]. f_equal. now apply cellsOf_mapi_clipped.
Qed.

(** The cells of the four big modes, page renderer. *)
Lemma App_big_cells (s : App.State) (W H : R) (img0 : Bitmap)
    (rest : list Bitmap) :
  big_mode (App.layoutMode s) ->
  App.loadedGridImages s = img0 :: rest -> rest <> [] ->
  cellsOf (value (App.drawLayout s W H))
  = big_cell (App.layoutMode s) W H (App.gap s) (App.gap s)
    :: mapi (fun (_ : Bitmap) i =>
               secondaryCell (App.layoutMode s) W H (App.gap s) (App.gap s)
                 (List.length rest) i)
         rest.
Proof.
  intros Hbig Hl Hrest.
  destruct Hbig as [Hm | [Hm | [Hm | Hm]]].
  - rewrite (App_side_big_value s W H img0 rest (or_introl Hm) Hl Hrest).
    rewrite Hm. apply cellsOf_cons_mapi_App; [reflexivity|].
    intros a i. cbn [cellOf App.drawImage LayoutMode_eqb].
    unfold secondaryCell, gridCell, shiftRect. cbn [rx ry rw rh].
    rewrite side_cell_width. do 2 f_equal. lra.
  - rewrite (App_side_big_value s W H img0 rest (or_intror Hm) Hl Hrest).
    rewrite Hm. apply cellsOf_cons_mapi_App; [reflexivity|].
    intros a i. cbn [cellOf App.drawImage LayoutMode_eqb].
    unfold secondaryCell, gridCell. now rewrite side_cell_width.
  - rewrite (App_stack_big_value s W H img0 rest (or_introl Hm) Hl Hrest).
    rewrite Hm. apply cellsOf_cons_mapi_App; [reflexivity|].
    intros a i. cbn [cellOf App.drawImage LayoutMode_eqb].
    unfold secondaryCell, gridCell, shiftRectY. cbn [rx ry rw rh].
    rewrite side_cell_width. do 2 f_equal. lra.
  - rewrite (App_stack_big_value s W H img0 rest (or_intror Hm) Hl Hrest).
    rewrite Hm. apply cellsOf_cons_mapi_App; [reflexivity|].
    intros a i. cbn [cellOf App.drawImage LayoutMode_eqb].
    unfold secondaryCell, gridCell. now rewrite side_cell_width.
Qed.

Lemma Worker_big_cells (W H sx sy : R) (st : WorkerStatePayload)
    (bm : WorkerBitmapsPayload) (img0 : Bitmap) (rest : list Bitmap) :
  big_mode (w_layoutMode st) ->
  b_grid bm = img0 :: rest -> rest <> [] ->
  cellsOf (value (Worker.drawLayout W H sx sy st bm))
  = big_cell (w_layoutMode st) W H (w_gap st * sx) (w_gap st * sy)
    :: mapi (fun (_ : Bitmap) i =>
               secondaryCell (w_layoutMode st) W H
                 (w_gap st * sx) (w_gap st * sy) (List.length rest) i)
         rest.
Proof.
  intros Hbig Hl Hrest.
  destruct Hbig as [Hm | [Hm | [Hm | Hm]]].
  - rewrite (Worker_side_big_value W H sx sy st bm img0 rest
               (or_introl Hm) Hl Hrest).
    rewrite Hm. apply cellsOf_cons_mapi_App; [reflexivity|].
    intros a i. cbn [cellOf Worker.drawImage LayoutMode_eqb].
    unfold secondaryCell, gridCell, shiftRect. cbn [rx ry rw rh].
    rewrite side_cell_width. do 2 f_equal. lra.
  - rewrite (Worker_side_big_value W H sx sy st bm img0 rest
               (or_intror Hm) Hl Hrest).
    rewrite Hm. apply cellsOf_cons_mapi_App; [reflexivity|].
    intros a i. cbn [cellOf Worker.drawImage LayoutMode_eqb].
    unfold secondaryCell, gridCell. now rewrite side_cell_width.
  - rewrite (Worker_stack_big_value W H sx sy st bm img0 rest
               (or_introl Hm) Hl Hrest).
    rewrite Hm. apply cellsOf_cons_mapi_App; [reflexivity|].
    intros a i. cbn [cellOf Worker.drawImage LayoutMode_eqb].
    unfold secondaryCell, gridCell, shiftRectY. cbn [rx ry rw rh].
    rewrite side_cell_width. do 2 f_equal. lra.
  - rewrite (Worker_stack_big_value W H sx sy st bm img0 rest
               (or_intror Hm) Hl Hrest).
    rewrite Hm. apply cellsOf_cons_mapi_App; [reflexivity|].
    intros a i. cbn [cellOf Worker.drawImage LayoutMode_eqb].
    unfold secondaryCell, gridCell. now rewrite side_cell_width.
Qed.

Lemma nth_error_mapi_at {A B : Type} (f : A -> nat -> B) (l : list A)
    (i : nat) :
  (i < List.length l)%nat ->
  exists a, nth_error l i = Some a /\ nth_error (mapi f l) i = Some (f a i).
Proof.
  intros Hi. destruct (nth_error l i) as [a|] eqn:E.
  - exists a. split; [reflexivity|]. unfold mapi.
    now rewrite nth_error_mapi_from, E.
  - apply nth_error_None in E. lia.
Qed.

(** X3.  In top-big and bottom-big modes with at least two pictures the
    first picture is confined to a cell of width [W - 2 g] and height
    [H/2 - 1.5 g] in its named half ([y = g] at the top,
    [y = H/2 + g/2] at the bottom).  Secondary picture [i] is confined to
    the cell of width [(W - (cols+1) g) / cols] and height
    [(H/2 - 1.5 g - (rows-1) g) / rows] at
    [(g + col (cellW + g), startY + row (cellH + g))], where [startY] is
    [H/2 + g/2] under a top picture and [g] above a bottom one; this is
    the cell grid mode gives it on a canvas of height [H/2 + g/2], moved to
    the other half.  The layout issues one operation per picture: the first
    paints the first picture clipped to the big cell, operation [i + 1]
    paints secondary picture [i] itself clipped to its cell.  The export
    renderer does the same with the gap scaled by axis. *)
Theorem stacked_big_placement :
  (forall (s : App.State) (W H : R) (img0 : Bitmap) (rest : list Bitmap)
      (i : nat),
      App.layoutMode s = top_big \/ App.layoutMode s = bottom_big ->
      App.loadedGridImages s = img0 :: rest -> (i < List.length rest)%nat ->
      let g := App.gap s in
      let isTop := LayoutMode_eqb (App.layoutMode s) top_big in
      let cols := Js.Math_ceil (sqrt (INR (List.length rest))) in
      let rows := Js.Math_ceil (INR (List.length rest) / IZR cols) in
      let cellW := (W - IZR (cols + 1) * g) / IZR cols in
      let cellH := (H / 2 - g * 1.5 - IZR (rows - 1) * g) / IZR rows in
      let cells := cellsOf (value (App.drawLayout s W H)) in
      (exists render,
          nth_error (value (App.drawLayout s W H)) 0
          = Some (ClippedImage img0
                    (mkRect g (if isTop then g else H / 2 + g / 2)
                       (W - g * 2) (H / 2 - g * 1.5))
                    render))
      /\ (forall img, nth_error rest i = Some img ->
          exists render,
            nth_error (value (App.drawLayout s W H)) (S i)
            = Some (ClippedImage img
                      (mkRect
                         (g + IZR (Z.of_nat i mod cols) * (cellW + g))
                         ((if isTop then H / 2 + g / 2 else g)
                          + IZR (Js.Math_floor (INR i / IZR cols))
                            * (cellH + g))
                         cellW cellH)
                      render))
      /\ List.length (value (App.drawLayout s W H)) = S (List.length rest)
      /\ List.length cells = S (List.length rest)
      /\ nth_error cells 0
         = Some (mkRect g (if isTop then g else H / 2 + g / 2)
                   (W - g * 2) (H / 2 - g * 1.5))
      /\ nth_error cells (S i)
         = Some (mkRect
                   (g + IZR (Z.of_nat i mod cols) * (cellW + g))
                   ((if isTop then H / 2 + g / 2 else g)
                    + IZR (Js.Math_floor (INR i / IZR cols)) * (cellH + g))
                   cellW cellH)
      /\ nth_error cells (S i)
         = Some (secondaryCell (App.layoutMode s) W H g g
                   (List.length rest) i))
  /\ (forall (W H sx sy : R) (st : WorkerStatePayload)
        (bm : WorkerBitmapsPayload) (img0 : Bitmap) (rest : list Bitmap)
        (i : nat),
      w_layoutMode st = top_big \/ w_layoutMode st = bottom_big ->
      b_grid bm = img0 :: rest -> (i < List.length rest)%nat ->
      let gx := w_gap st * sx in
      let gy := w_gap st * sy in
      let isTop := LayoutMode_eqb (w_layoutMode st) top_big in
      let cols := Js.Math_ceil (sqrt (INR (List.length rest))) in
      let rows := Js.Math_ceil (INR (List.length rest) / IZR cols) in
      let cellW := (W - IZR (cols + 1) * gx) / IZR cols in
      let cellH := (H / 2 - gy * 1.5 - IZR (rows - 1) * gy) / IZR rows in
      let cells := cellsOf (value (Worker.drawLayout W H sx sy st bm)) in
      (exists render,
          nth_error (value (Worker.drawLayout W H sx sy st bm)) 0
          = Some (ClippedImage img0
                    (mkRect gx (if isTop then gy else H / 2 + gy / 2)
                       (W - gx * 2) (H / 2 - gy * 1.5))
                    render))
      /\ (forall img, nth_error rest i = Some img ->
          exists render,
            nth_error (value (Worker.drawLayout W H sx sy st bm)) (S i)
            = Some (ClippedImage img
                      (mkRect
                         (gx + IZR (Z.of_nat i mod cols) * (cellW + gx))
                         ((if isTop then H / 2 + gy / 2 else gy)
                          + IZR (Js.Math_floor (INR i / IZR cols))
                            * (cellH + gy))
                         cellW cellH)
                      render))
      /\ List.length (value (Worker.drawLayout W H sx sy st bm))
         = S (List.length rest)
      /\ List.length cells = S (List.length rest)
      /\ nth_error cells 0
         = Some (mkRect gx (if isTop then gy else H / 2 + gy / 2)
                   (W - gx * 2) (H / 2 - gy * 1.5))
      /\ nth_error cells (S i)
         = Some (mkRect
                   (gx + IZR (Z.of_nat i mod cols) * (cellW + gx))
                   ((if isTop then H / 2 + gy / 2 else gy)
                    + IZR (Js.Math_floor (INR i / IZR cols)) * (cellH + gy))
                   cellW cellH)
      /\ nth_error cells (S i)
         = Some (secondaryCell (w_layoutMode st) W H gx gy
                   (List.length rest) i)).
Proof.
  split.
  - intros s W H img0 rest i Hm Hl Hi g isTop cols rows cellW cellH cells.
    assert (Hrest : rest <> []) by (destruct rest; [simpl in Hi; lia | discriminate]).
    assert (Hbig : big_mode (App.layoutMode s))
      by (unfold big_mode; tauto).
    pose proof (App_big_cells s W H img0 rest Hbig Hl Hrest) as E2.
    pose proof (App_stack_big_value s W H img0 rest Hm Hl Hrest) as E1.
    fold g isTop cols rows cellW cellH in E1.
    split; [eexists; rewrite E1; reflexivity|].
    split.
    { intros img Himg. eexists. rewrite E1. cbn [nth_error]. unfold mapi.
      rewrite nth_error_mapi_from, Himg. reflexivity. }
    split.
    { rewrite E1. cbn [List.length]. unfold mapi.
      now rewrite length_mapi_from. }
    apply (f_equal cellsOf) in E1.
    erewrite cellsOf_cons_mapi_App in E1;
      [|reflexivity | intros a k; reflexivity].
    fold g isTop cols rows cellW cellH cells in E1. fold g cells in E2.
    split; [|split; [|split]].
    + rewrite E2. unfold mapi. cbn [List.length].
      now rewrite length_mapi_from.
    + rewrite E1. reflexivity.
    + rewrite E1. cbn [nth_error].
      destruct (nth_error_mapi_at
                  (fun (_ : Bitmap) k =>
                     mkRect (g + IZR (Z.of_nat k mod cols) * (cellW + g))
                       ((if isTop then H / 2 + g / 2 else g)
                        + IZR (Js.Math_floor (INR k / IZR cols))
                          * (cellH + g)) cellW cellH) rest i Hi)
        as [a [_ Ha]].
      exact Ha.
    + rewrite E2. cbn [nth_error].
      destruct (nth_error_mapi_at
                  (fun (_ : Bitmap) k =>
                     secondaryCell (App.layoutMode s) W H g g
                       (List.length rest) k) rest i Hi) as [a [_ Ha]].
      exact Ha.
  - intros W H sx sy st bm img0 rest i Hm Hl Hi gx gy isTop cols rows cellW
      cellH cells.
    assert (Hrest : rest <> []) by (destruct rest; [simpl in Hi; lia | discriminate]).
    assert (Hbig : big_mode (w_layoutMode st))
      by (unfold big_mode; tauto).
    pose proof (Worker_big_cells W H sx sy st bm img0 rest Hbig Hl Hrest)
      as E2.
    pose proof (Worker_stack_big_value W H sx sy st bm img0 rest Hm Hl
                  Hrest) as E1.
    fold gx gy isTop cols rows cellW cellH in E1.
    split; [eexists; rewrite E1; reflexivity|].
    split.
    { intros img Himg. eexists. rewrite E1. cbn [nth_error]. unfold mapi.
      rewrite nth_error_mapi_from, Himg. reflexivity. }
    split.
    { rewrite E1. cbn [List.length]. unfold mapi.
      now rewrite length_mapi_from. }
    apply (f_equal cellsOf) in E1.
    erewrite cellsOf_cons_mapi_App in E1;
      [|reflexivity | intros a k; reflexivity].
    fold gx gy isTop cols rows cellW cellH cells in E1.
    fold gx gy cells in E2.
    split; [|split; [|split]].
    + rewrite E2. unfold mapi. cbn [List.length].
      now rewrite length_mapi_from.
    + rewrite E1. reflexivity.
    + rewrite E1. cbn [nth_error].
      destruct (nth_error_mapi_at
                  (fun (_ : Bitmap) k =>
                     mkRect (gx + IZR (Z.of_nat k mod cols) * (cellW + gx))
                       ((if isTop then H / 2 + gy / 2 else gy)
                        + IZR (Js.Math_floor (INR k / IZR cols))
                          * (cellH + gy)) cellW cellH) rest i Hi)
        as [a [_ Ha]].
      exact Ha.
    + rewrite E2. cbn [nth_error].
      destruct (nth_error_mapi_at
                  (fun (_ : Bitmap) k =>
                     secondaryCell (w_layoutMode st) W H gx gy
                       (List.length rest) k) rest i Hi) as [a [_ Ha]].
      exact Ha.
Qed.

Lemma stacked_big_placement_witness :
  exists cell render,
    nth_error (value (App.drawLayout topBigTrio 800 600)) 1
    = Some (ClippedImage picB cell render).
Proof.
  assert (Hm : App.layoutMode topBigTrio = top_big
               \/ App.layoutMode topBigTrio = bottom_big)
    by (left; reflexivity).
  assert (Hi : (0 < List.length [picB; picA])%nat) by (simpl; lia).
  destruct (proj1 (proj2 (proj1 stacked_big_placement topBigTrio 800 600
                            picA [picB; picA] 0%nat Hm eq_refl Hi))
              picB eq_refl) as [render E].
  eexists. exists render. exact E.
Defined.

Lemma no_layout_without_pictures :
  (forall (s : App.State) (W H : R),
      App.loadedGridImages s = [] -> App.layoutMode s <> freeform ->
      value (App.drawLayout s W H) = [])
  /\ (forall (W H sx sy : R) (st : WorkerStatePayload)
        (bm : WorkerBitmapsPayload),
      b_grid bm = [] -> w_layoutMode st <> freeform ->
      value (Worker.drawLayout W H sx sy st bm) = []).
Proof. split; [exact App_layout_empty | exact Worker_layout_empty]. Qed.

Lemma big_geometry (mode : LayoutMode) (W H gx gy : R) (m i j : nat) :
  big_mode mode -> (i < m)%nat -> (j < m)%nat -> 0 <= gx -> 0 <= gy ->
  0 <= rw (secondaryCell mode W H gx gy m i) ->
  0 <= rh (secondaryCell mode W H gx gy m i) ->
  within (secondaryCell mode W H gx gy m i) (margins W H gx gy)
  /\ apart gx gy (big_cell mode W H gx gy)
       (secondaryCell mode W H gx gy m i)
  /\ (i <> j ->
      apart gx gy (secondaryCell mode W H gx gy m i)
        (secondaryCell mode W H gx gy m j)).
Proof.
  intros Hbig Hi Hj Hgx Hgy.
  destruct Hbig as [-> | [-> | [-> | ->]]];
    unfold secondaryCell, big_cell; cbn [shiftRect shiftRectY rx ry rw rh];
    intros Hw Hh;
    match goal with
    | |- context [gridCell ?w ?h gx gy m i] =>
        destruct (gridCell_geometry w h gx gy m i j Hi Hj Hgx Hgy Hw Hh)
          as [Hin [_ [_ Hap]]]
    end;
    unfold within, apart, margins in *;
    cbn [shiftRect shiftRectY rx ry rw rh] in *;
    (split; [lra|]); (split; [lra|]);
    intros Hne; specialize (Hap Hne); lra.
Qed.

Lemma big_cell_within (mode : LayoutMode) (W H gx gy : R) :
  big_mode mode -> 0 <= gx -> 0 <= gy ->
  0 <= rw (big_cell mode W H gx gy) -> 0 <= rh (big_cell mode W H gx gy) ->
  within (big_cell mode W H gx gy) (margins W H gx gy).
Proof.
  intros Hbig Hgx Hgy.
  destruct Hbig as [-> | [-> | [-> | ->]]];
    unfold big_cell, within, margins; cbn [rx ry rw rh]; intros; lra.
Qed.

Lemma big_cells_nth (cells : list Rect) (c0 : Rect) (f : nat -> Rect)
    (rest : list Bitmap) (k : nat) (c : Rect) :
  cells = c0 :: mapi (fun (_ : Bitmap) i => f i) rest ->
  nth_error cells (S k) = Some c ->
  (k < List.length rest)%nat /\ c = f k.
Proof.
  intros -> H. cbn [nth_error] in H.
  now apply nth_error_mapi_cell in H.
Qed.

(** X4.  In each of the four big modes with a non-negative gap, a secondary
    cell of non-negative width and height lies inside the canvas less a
    margin of one gap, is at least one gap away from the big cell, and is
    at least one gap away from every other secondary cell; the big cell,
    when of non-negative size, lies inside the same margins.  So the big
    picture and the secondary pictures never overlap.  In the export
    renderer the same holds with the gap scaled by axis. *)
Theorem big_mode_cells_inside_and_apart :
  (forall (s : App.State) (W H : R) (i j : nat) (c0 ci cj : Rect),
      big_mode (App.layoutMode s) -> 0 <= App.gap s ->
      nth_error (cellsOf (value (App.drawLayout s W H))) 0 = Some c0 ->
      nth_error (cellsOf (value (App.drawLayout s W H))) (S i) = Some ci ->
      nth_error (cellsOf (value (App.drawLayout s W H))) (S j) = Some cj ->
      0 <= rw ci -> 0 <= rh ci ->
      within ci (margins W H (App.gap s) (App.gap s))
      /\ apart (App.gap s) (App.gap s) c0 ci
      /\ (i <> j -> apart (App.gap s) (App.gap s) ci cj)
      /\ (0 <= rw c0 -> 0 <= rh c0 ->
          within c0 (margins W H (App.gap s) (App.gap s))))
  /\ (forall (W H sx sy : R) (st : WorkerStatePayload)
        (bm : WorkerBitmapsPayload) (i j : nat) (c0 ci cj : Rect),
      big_mode (w_layoutMode st) ->
      0 <= w_gap st * sx -> 0 <= w_gap st * sy ->
      nth_error (cellsOf (value (Worker.drawLayout W H sx sy st bm))) 0
      = Some c0 ->
      nth_error (cellsOf (value (Worker.drawLayout W H sx sy st bm))) (S i)
      = Some ci ->
      nth_error (cellsOf (value (Worker.drawLayout W H sx sy st bm))) (S j)
      = Some cj ->
      0 <= rw ci -> 0 <= rh ci ->
      within ci (margins W H (w_gap st * sx) (w_gap st * sy))
      /\ apart (w_gap st * sx) (w_gap st * sy) c0 ci
      /\ (i <> j -> apart (w_gap st * sx) (w_gap st * sy) ci cj)
      /\ (0 <= rw c0 -> 0 <= rh c0 ->
          within c0 (margins W H (w_gap st * sx) (w_gap st * sy)))).
Proof.
  split.
  - intros s W H i j c0 ci cj Hbig Hg H0 Hi Hj.
    destruct (App.loadedGridImages s) as [|img0 rest] eqn:Hl.
    { rewrite (proj1 no_layout_without_pictures s W H Hl) in Hi
        by (destruct Hbig as [E | [E | [E | E]]]; rewrite E; discriminate).
      destruct i; discriminate. }
    assert (Hrest : rest <> []).
    { intros ->. revert Hi. unfold App.drawLayout. rewrite Hl.
      destruct Hbig as [E | [E | [E | E]]]; rewrite E;
        destruct i; discriminate. }
    pose proof (App_big_cells s W H img0 rest Hbig Hl Hrest) as E.
    destruct (big_cells_nth _ _ _ _ _ _ E Hi) as [Hi' ->].
    destruct (big_cells_nth _ _ _ _ _ _ E Hj) as [Hj' ->].
    rewrite E in H0. cbn [nth_error] in H0. inversion H0; subst c0.
    intros Hw Hh.
    destruct (big_geometry _ W H _ _ _ i j Hbig Hi' Hj' Hg Hg Hw Hh)
      as [G1 [G2 G3]].
    split; [exact G1|]. split; [exact G2|]. split; [exact G3|].
    intros. now apply big_cell_within.
  - intros W H sx sy st bm i j c0 ci cj Hbig Hgx Hgy H0 Hi Hj.
    destruct (b_grid bm) as [|img0 rest] eqn:Hl.
    { rewrite (proj2 no_layout_without_pictures W H sx sy st bm Hl) in Hi
        by (destruct Hbig as [E | [E | [E | E]]]; rewrite E; discriminate).
      destruct i; discriminate. }
    assert (Hrest : rest <> []).
    { intros ->. revert Hi. unfold Worker.drawLayout. rewrite Hl.
      destruct Hbig as [E | [E | [E | E]]]; rewrite E;
        destruct i; discriminate. }
    pose proof (Worker_big_cells W H sx sy st bm img0 rest Hbig Hl Hrest)
      as E.
    destruct (big_cells_nth _ _ _ _ _ _ E Hi) as [Hi' ->].
    destruct (big_cells_nth _ _ _ _ _ _ E Hj) as [Hj' ->].
    rewrite E in H0. cbn [nth_error] in H0. inversion H0; subst c0.
    intros Hw Hh.
    destruct (big_geometry _ W H _ _ _ i j Hbig Hi' Hj' Hgx Hgy Hw Hh)
      as [G1 [G2 G3]].
    split; [exact G1|]. split; [exact G2|]. split; [exact G3|].
    intros. now apply big_cell_within.
Qed.

Lemma leftBigPair_cells :
  cellsOf (value (App.drawLayout leftBigPair 800 600))
  = [mkRect 16 16 376 568; mkRect 408 16 376 568].
Proof.
  destruct counts_of_one as [Ec [Er Ef]].
  rewrite (App_side_big_value leftBigPair 800 600 picA [picB]
             (or_introl eq_refl) eq_refl ltac:(discriminate)).
  cbn [leftBigPair sampleState App.gap App.layoutMode LayoutMode_eqb
       List.length mapi mapi_from cellsOf flat_map cellOf App.drawImage
       app].
  rewrite Ec, Er, Ef.
  change (Z.of_nat 0 mod 1)%Z with 0%Z.
  change (1 - 1)%Z with 0%Z. change (1 + 1)%Z with 2%Z.
  repeat (f_equal; try lra).
Qed.

Lemma big_mode_cells_inside_and_apart_witness :
  within (mkRect 408 16 376 568)
    (margins 800 600 (App.gap leftBigPair) (App.gap leftBigPair))
  /\ apart (App.gap leftBigPair) (App.gap leftBigPair)
       (mkRect 16 16 376 568) (mkRect 408 16 376 568)
  /\ (0%nat <> 0%nat ->
      apart (App.gap leftBigPair) (App.gap leftBigPair)
        (mkRect 408 16 376 568) (mkRect 408 16 376 568))
  /\ (0 <= rw (mkRect 16 16 376 568) -> 0 <= rh (mkRect 16 16 376 568) ->
      within (mkRect 16 16 376 568)
        (margins 800 600 (App.gap leftBigPair) (App.gap leftBigPair))).
Proof.
  apply (proj1 big_mode_cells_inside_and_apart leftBigPair 800 600
           0%nat 0%nat).
  - left. reflexivity.
  - simpl. lra.
  - rewrite leftBigPair_cells. reflexivity.
  - rewrite leftBigPair_cells. reflexivity.
  - rewrite leftBigPair_cells. reflexivity.
  - simpl. lra.
  - simpl. lra.
Defined.

(** ** Single focus *)

Lemma tile_is_gridCell (W H : R) (m i : nat) :
  let cols := Js.Math_ceil (sqrt (INR m)) in
  let rows := Js.Math_ceil (INR m / IZR cols) in
  mkRect (IZR (Z.of_nat i mod cols) * (W / IZR cols))
         (IZR (Js.Math_floor (INR i / IZR cols)) * (H / IZR rows))
         (W / IZR cols) (H / IZR rows)
  = gridCell W H 0 0 m i.
Proof.
  intros cols rows. unfold gridCell. fold cols rows.
  f_equal; unfold Rdiv; ring.
Qed.

Lemma App_single_blur_value (s : App.State) (W H : R) (img0 : Bitmap)
    (rest : list Bitmap) :
  App.layoutMode s = single_blur ->
  App.loadedGridImages s = img0 :: rest ->
  value (App.drawLayout s W H)
  = mapi (fun img i =>
            BackdropTile (App.bgBlur s) (App.bgOpacity s) img
              (gridCell W H 0 0 (List.length rest) i))
      rest
    ++ [App.drawImage (App.globalZoom s) (App.imageFit s) img0
          (W / 10) (H / 20) (W * 0.8) (H * 0.9) (App.mainZoom s)].
Proof.
  intros Hm Hl. unfold App.drawLayout. rewrite Hm, Hl.
  cbn [slice1 tl]. rewrite value_bind_app. f_equal.
  - destruct rest as [|b rest]; [reflexivity|].
    change (0 <? List.length (b :: rest))%nat with true. cbv iota.
    rewrite !value_bind. unfold forEach, mapi.
    erewrite value_forEach_single; [|intros a i; reflexivity].
    apply mapi_from_ext. intros a i. cbn [value divide fst].
    f_equal. apply tile_is_gridCell.
  - rewrite !value_bind. cbn [value ret divide fst].
    do 2 f_equal; lra.
Qed.

Lemma Worker_single_blur_value (W H sx sy : R) (st : WorkerStatePayload)
    (bm : WorkerBitmapsPayload) (img0 : Bitmap) (rest : list Bitmap) :
  w_layoutMode st = single_blur ->
  b_grid bm = img0 :: rest ->
  value (Worker.drawLayout W H sx sy st bm)
  = mapi (fun img i =>
            BackdropTile (w_bgBlur st * sx) (w_bgOpacity st) img
              (gridCell W H 0 0 (List.length rest) i))
      rest
    ++ [Worker.drawImage (w_globalZoom st) (w_imageFit st) img0
          (W / 10) (H / 20) (W * 0.8) (H * 0.9) (w_mainZoom st)].
Proof.
  intros Hm Hl. unfold Worker.drawLayout. rewrite Hm, Hl.
  cbn [slice1 tl]. rewrite value_bind_app. f_equal.
  - destruct rest as [|b rest]; [reflexivity|].
    change (0 <? List.length (b :: rest))%nat with true. cbv iota.
    rewrite !value_bind. unfold forEach, mapi.
    erewrite value_forEach_single; [|intros a i; reflexivity].
    apply mapi_from_ext. intros a i. cbn [value divide fst].
    f_equal. apply tile_is_gridCell.
  - rewrite !value_bind. cbn [value ret divide fst].
    do 2 f_equal; lra.
Qed.

(** X5.  In single-focus mode with at least one picture, both renderers
    first paint one backdrop tile per remaining picture, each with the
    backdrop blur (times [scaleX] in the export) and opacity, tile [i] in
    the gap-less grid cell [i] of the full canvas; then, last and so on
    top, the first picture fitted with the extra zoom [mainZoom] in the
    cell of 80% of the width and 90% of the height centred on the canvas.
    On a canvas of non-negative size every tile lies inside the canvas,
    and two different tiles do not overlap. *)
Theorem single_focus_composition :
  (forall (s : App.State) (W H : R) (img0 : Bitmap) (rest : list Bitmap),
      App.layoutMode s = single_blur ->
      App.loadedGridImages s = img0 :: rest ->
      value (App.drawLayout s W H)
      = mapi (fun img i =>
                BackdropTile (App.bgBlur s) (App.bgOpacity s) img
                  (gridCell W H 0 0 (List.length rest) i))
          rest
        ++ [App.drawImage (App.globalZoom s) (App.imageFit s) img0
              (W / 10) (H / 20) (W * 0.8) (H * 0.9) (App.mainZoom s)])
  /\ (forall (W H sx sy : R) (st : WorkerStatePayload)
        (bm : WorkerBitmapsPayload) (img0 : Bitmap) (rest : list Bitmap),
      w_layoutMode st = single_blur ->
      b_grid bm = img0 :: rest ->
      value (Worker.drawLayout W H sx sy st bm)
      = mapi (fun img i =>
                BackdropTile (w_bgBlur st * sx) (w_bgOpacity st) img
                  (gridCell W H 0 0 (List.length rest) i))
          rest
        ++ [Worker.drawImage (w_globalZoom st) (w_imageFit st) img0
              (W / 10) (H / 20) (W * 0.8) (H * 0.9) (w_mainZoom st)])
  /\ (forall (W H : R),
      W / 10 + W * 0.8 / 2 = W / 2 /\ H / 20 + H * 0.9 / 2 = H / 2)
  /\ (forall (W H : R) (m i j : nat),
      0 <= W -> 0 <= H -> (i < m)%nat -> (j < m)%nat ->
      within (gridCell W H 0 0 m i) (mkRect 0 0 W H)
      /\ (i <> j ->
          apart 0 0 (gridCell W H 0 0 m i) (gridCell W H 0 0 m j))).
Proof.
  split; [exact App_single_blur_value|].
  split; [exact Worker_single_blur_value|].
  split; [intros W H; split; lra|].
  intros W H m i j HW HH Hi Hj.
  assert (Hcw : 0 <= rw (gridCell W H 0 0 m i)).
  { destruct (grid_counts m ltac:(lia)) as [_ [Hc _]].
    unfold gridCell. cbn [rw]. apply IZR_le in Hc.
    rewrite Rmult_0_r, Rminus_0_r.
    apply Rmult_le_pos; [assumption|].
    left. apply Rinv_0_lt_compat. lra. }
  assert (Hch : 0 <= rh (gridCell W H 0 0 m i)).
  { destruct (grid_counts m ltac:(lia)) as [_ [_ [_ [_ [Hr _]]]]].
    unfold gridCell. cbn [rh]. apply IZR_le in Hr.
    rewrite Rmult_0_r, Rminus_0_r.
    apply Rmult_le_pos; [assumption|].
    left. apply Rinv_0_lt_compat. lra. }
  destruct (gridCell_geometry W H 0 0 m i j Hi Hj
              (Rle_refl 0) (Rle_refl 0) Hcw Hch) as [Hin [_ [_ Hap]]].
  split; [|exact Hap].
  unfold within, margins in *. cbn [rx ry rw rh] in *. lra.
Qed.

Lemma single_focus_composition_witness :
  within (gridCell 1000 800 0 0 2 0) (mkRect 0 0 1000 800)
  /\ (0%nat <> 1%nat ->
      apart 0 0 (gridCell 1000 800 0 0 2 0) (gridCell 1000 800 0 0 2 1)).
Proof.
  apply (proj2 (proj2 (proj2 single_focus_composition)) 1000 800
           2%nat 0%nat 1%nat); try lra; lia.
Defined.

(** ** Watermark *)

Lemma watermark_aspect (w bw bh : R) :
  bw <> 0 -> bh <> 0 -> w * bh = w / (bw / bh) * bw.
Proof. intros Hw Hh. field. split; assumption. Qed.

(** X6.  When a watermark is set and its picture is decoded, both
    renderers paint exactly one watermark operation, with the watermark's
    opacity, [size] percent of the canvas wide, its height following the
    picture's aspect ratio, and anchored as named: against the left or
    right edge and the top or bottom edge at a distance of one gap (the gap
    scaled by axis in the export), or centred.  Without a watermark or
    without its decoded picture nothing is painted for it. *)
Theorem watermark_placement :
  (forall (s : App.State) (W H : R) (wm : WatermarkState) (bmp : Bitmap),
      App.watermark s = Some wm -> App.loadedWatermark s = Some bmp ->
      exists r,
        App.drawWatermark s W H = [Watermark bmp (opacity wm) r]
        /\ rw r = W * size wm / 100
        /\ (bm_width bmp <> 0 -> bm_height bmp <> 0 ->
            rw r * bm_height bmp = rh r * bm_width bmp)
        /\ match position wm with
           | top_left => rx r = App.gap s /\ ry r = App.gap s
           | top_right => rx r + rw r = W - App.gap s /\ ry r = App.gap s
           | bottom_left =>
               rx r = App.gap s /\ ry r + rh r = H - App.gap s
           | bottom_right =>
               rx r + rw r = W - App.gap s /\ ry r + rh r = H - App.gap s
           | center =>
               rx r + rw r / 2 = W / 2 /\ ry r + rh r / 2 = H / 2
           end)
  /\ (forall (s : App.State) (W H : R),
      App.watermark s = None \/ App.loadedWatermark s = None ->
      App.drawWatermark s W H = [])
  /\ (forall (W H sx sy : R) (st : WorkerStatePayload)
        (bm : WorkerBitmapsPayload) (wm : WatermarkState) (bmp : Bitmap),
      w_watermark st = Some wm -> b_watermark bm = Some bmp ->
      exists r,
        Worker.drawWatermark W H sx sy st bm
        = [Watermark bmp (opacity wm) r]
        /\ rw r = W * size wm / 100
        /\ (bm_width bmp <> 0 -> bm_height bmp <> 0 ->
            rw r * bm_height bmp = rh r * bm_width bmp)
        /\ match position wm with
           | top_left => rx r = w_gap st * sx /\ ry r = w_gap st * sy
           | top_right =>
               rx r + rw r = W - w_gap st * sx /\ ry r = w_gap st * sy
           | bottom_left =>
               rx r = w_gap st * sx /\ ry r + rh r = H - w_gap st * sy
           | bottom_right =>
               rx r + rw r = W - w_gap st * sx
               /\ ry r + rh r = H - w_gap st * sy
           | center =>
               rx r + rw r / 2 = W / 2 /\ ry r + rh r / 2 = H / 2
           end)
  /\ (forall (W H sx sy : R) (st : WorkerStatePayload)
        (bm : WorkerBitmapsPayload),
      w_watermark st = None \/ b_watermark bm = None ->
      Worker.drawWatermark W H sx sy st bm = []).
Proof.
  split; [|split; [|split]].
  - intros s W H wm bmp Hwm Hb. unfold App.drawWatermark.
    rewrite Hwm, Hb. eexists. split; [reflexivity|].
    cbn [rx ry rw rh].
    split; [unfold Rdiv; ring|]. split.
    + intros Hbw Hbh. now apply watermark_aspect.
    + destruct (position wm); cbn [fst snd]; split; lra.
  - intros s W H [Hn | Hn]; unfold App.drawWatermark; rewrite Hn;
      [reflexivity|]. destruct (App.watermark s); reflexivity.
  - intros W H sx sy st bm wm bmp Hwm Hb. unfold Worker.drawWatermark.
    rewrite Hwm, Hb. eexists. split; [reflexivity|].
    cbn [rx ry rw rh].
    split; [unfold Rdiv; ring|]. split.
    + intros Hbw Hbh. now apply watermark_aspect.
    + destruct (position wm); cbn [fst snd]; split; lra.
  - intros W H sx sy st bm [Hn | Hn]; unfold Worker.drawWatermark;
      rewrite Hn; [reflexivity|]. destruct (w_watermark st); reflexivity.
Qed.

Lemma watermark_placement_witness :
  exists r,
    App.drawWatermark watermarkScene 800 600
    = [Watermark picW (opacity (mkWatermarkState "w" (1 / 2) 20 bottom_right))
         r]
    /\ rw r = 800 * size (mkWatermarkState "w" (1 / 2) 20 bottom_right) / 100
    /\ (bm_width picW <> 0 -> bm_height picW <> 0 ->
        rw r * bm_height picW = rh r * bm_width picW)
    /\ (rx r + rw r = 800 - App.gap watermarkScene
        /\ ry r + rh r = 600 - App.gap watermarkScene).
Proof.
  apply (proj1 watermark_placement watermarkScene 800 600
           (mkWatermarkState "w" (1 / 2) 20 bottom_right) picW);
    reflexivity.
Defined.

(** ** Picking and dragging text layers *)

Lemma find_first {A : Type} (p : A -> bool) (l : list A) (a : A) :
  List.find p l = Some a ->
  exists l1 l2, l = l1 ++ a :: l2 /\ p a = true
                /\ Forall (fun b => p b = false) l1.
Proof.
  induction l as [|b l IH]; simpl; [discriminate|].
  destruct (p b) eqn:E.
  - intros H. inversion H; subst. exists [], l. repeat split; auto.
  - intros H. destruct (IH H) as [l1 [l2 [-> [Ha Hl1]]]].
    exists (b :: l1), l2. repeat split; auto.
Qed.

Lemma find_none_all {A : Type} (p : A -> bool) (l : list A) :
  List.find p l = None <-> Forall (fun b => p b = false) l.
Proof.
  induction l as [|b l IH]; simpl.
  - split; [constructor | reflexivity].
  - destruct (p b) eqn:E.
    + split; [discriminate|]. intros H. inversion H; congruence.
    + rewrite IH. split; [now constructor|]. intros H. now inversion H.
Qed.

Lemma hitTextLayer_topmost (measureText : string -> R -> string -> R)
    (layers : list TextLayer) (mouseX mouseY : R) (layer : TextLayer) :
  App.hitTextLayer measureText layers mouseX mouseY = Some layer ->
  exists below above,
    layers = below ++ layer :: above
    /\ App.hitsText measureText layer mouseX mouseY = true
    /\ Forall (fun l => App.hitsText measureText l mouseX mouseY = false)
         above.
Proof.
  unfold App.hitTextLayer. intros H.
  apply find_first in H as [l1 [l2 [E [Hhit Hl1]]]].
  exists (rev l2), (rev l1). split; [|split; [exact Hhit|]].
  - rewrite <- (rev_involutive layers), E, rev_app_distr. simpl.
    now rewrite <- app_assoc.
  - apply Forall_forall. intros l Hl. apply in_rev in Hl.
    rewrite Forall_forall in Hl1. now apply Hl1.
Qed.

Lemma hitTextLayer_none (measureText : string -> R -> string -> R)
    (layers : list TextLayer) (mouseX mouseY : R) :
  App.hitTextLayer measureText layers mouseX mouseY = None <->
  Forall (fun l => App.hitsText measureText l mouseX mouseY = false) layers.
Proof.
  unfold App.hitTextLayer. rewrite find_none_all.
  rewrite !Forall_forall. split; intros H l Hl; apply H.
  - now apply in_rev in Hl.
  - now apply in_rev.
Qed.

(** X7.  A pointer-down picks the topmost text layer under the pointer, in
    every layout mode: if some text layer is hit, the layer that is
    selected and dragged is hit, every layer after it in the array (painted
    above it) is not hit, the grab offset is the pointer minus the layer
    position, no image stays selected and no image or layer is changed.  A
    pointer-down hits no text layer exactly when no layer's box contains
    the pointer. *)
Theorem pointer_down_picks_topmost_text
    (measureText : string -> R -> string -> R) (s : App.State)
    (mouseX mouseY : R) (hit : TextLayer) :
  In hit (App.textLayers s) ->
  App.hitsText measureText hit mouseX mouseY = true ->
  exists below layer above,
    App.textLayers s = below ++ layer :: above
    /\ App.hitsText measureText layer mouseX mouseY = true
    /\ Forall (fun l => App.hitsText measureText l mouseX mouseY = false)
         above
    /\ App.handleMouseDown measureText mouseX mouseY s
       = App.setInteractionState
           (App.mkInteraction App.dragging (Some App.target_text)
              (Some (tl_id layer)) (Some (mouseX - tl_x layer))
              (Some (mouseY - tl_y layer)))
           (App.setSelectedImageId None
              (App.setSelectedTextId (Some (tl_id layer)) s)).
Proof.
  intros Hin Hhit.
  destruct (App.hitTextLayer measureText (App.textLayers s) mouseX mouseY)
    as [layer|] eqn:E.
  - destruct (hitTextLayer_topmost _ _ _ _ _ E)
      as [below [above [El [Hl Hab]]]].
    exists below, layer, above. split; [exact El|].
    split; [exact Hl|]. split; [exact Hab|].
    unfold App.handleMouseDown. now rewrite E.
  - apply hitTextLayer_none in E. rewrite Forall_forall in E.
    rewrite (E hit Hin) in Hhit. discriminate.
Qed.

Lemma layerHo_hit :
  App.hitsText sampleMetrics layerHo 100 100 = true.
Proof.
  apply (hitsText_center sampleMetrics layerHo);
    unfold sampleMetrics, layerHo, sampleLayer; simpl; lra.
Qed.

Lemma pointer_down_picks_topmost_text_witness :
  exists below layer above,
    App.textLayers twoLayers = below ++ layer :: above
    /\ App.hitsText sampleMetrics layer 100 100 = true
    /\ Forall (fun l => App.hitsText sampleMetrics l 100 100 = false) above
    /\ App.handleMouseDown sampleMetrics 100 100 twoLayers
       = App.setInteractionState
           (App.mkInteraction App.dragging (Some App.target_text)
              (Some (tl_id layer)) (Some (100 - tl_x layer))
              (Some (100 - tl_y layer)))
           (App.setSelectedImageId None
              (App.setSelectedTextId (Some (tl_id layer)) twoLayers)).
Proof.
  apply (pointer_down_picks_topmost_text sampleMetrics twoLayers 100 100
           layerHo).
  - right. left. reflexivity.
  - exact layerHo_hit.
Defined.

Lemma layerHi_near :
  App.hitTextLayer sampleMetrics (App.textLayers gridWithText) 110 95
  = Some layerHi.
Proof.
  unfold App.hitTextLayer.
  cbn [gridWithText sampleState App.textLayers rev app List.find].
  assert (H : App.hitsText sampleMetrics layerHi 110 95 = true).
  { apply hitsText_iff.
    unfold layerHi, sampleLayer, sampleMetrics.
    cbn [tl_x tl_y rotation text fontSize fontFamily padding String.length].
    replace (0 * PI / 180) with 0 by lra.
    rewrite Ropp_0, cos_0, sin_0.
    split; apply Rabs_def1; simpl; lra. }
  now rewrite H.
Qed.

Lemma truthy_nonempty (i : string) :
  i <> ""%string -> Js.truthy (Some i) = true.
Proof. destruct i; [congruence | reflexivity]. Qed.

Lemma text_drag_move (mouseX mouseY : R) (s : App.State) (i : string)
    (ox oy : R) :
  App.interactionState s
  = App.mkInteraction App.dragging (Some App.target_text) (Some i)
      (Some ox) (Some oy) ->
  i <> ""%string ->
  App.handleMouseMove mouseX mouseY s
  = App.setTextLayers
      (map (fun layer =>
              if Js.str_eqb (tl_id layer) i
              then App.layer_with_xy layer (mouseX - ox) (mouseY - oy)
              else layer)) s.
Proof.
  intros E Hi. unfold App.handleMouseMove. rewrite E.
  cbn [App.mode App.target App.ist_id App.offsetX App.offsetY Js.or0
       App.is_selected].
  now rewrite (truthy_nonempty i Hi).
Qed.

(** X8.  Dragging a text layer: after a pointer-down at [(mx, my)] that
    picks [layer] (whose identifier is not empty), a pointer move to
    [(px, py)] stores in every layer with that identifier the position of
    the picked layer moved by [(px - mx, py - my)] and leaves its other
    fields as they were; so the picked layer itself has moved by exactly
    that much.  All other layers, all images and the interaction state are
    unchanged.  Only the last pointer position counts: a move after another
    move gives the same state as that move alone. *)
Theorem text_drag_follows_pointer
    (measureText : string -> R -> string -> R) (s : App.State)
    (mx my px py qx qy : R) (layer : TextLayer) :
  App.hitTextLayer measureText (App.textLayers s) mx my = Some layer ->
  tl_id layer <> ""%string ->
  let s1 := App.handleMouseDown measureText mx my s in
  let moved (l : TextLayer) :=
    mkTextLayer (tl_id l) (text l) (tl_x layer + (px - mx))
      (tl_y layer + (py - my)) (fontSize l) (fontFamily l) (color l)
      (rotation l) (shadow l) (backgroundColor l) (backgroundOpacity l)
      (padding l) in
  App.textLayers (App.handleMouseMove px py s1)
  = map (fun l =>
           if Js.str_eqb (tl_id l) (tl_id layer) then moved l else l)
      (App.textLayers s)
  /\ In (moved layer) (App.textLayers (App.handleMouseMove px py s1))
  /\ (forall j l, nth_error (App.textLayers s) j = Some l ->
        tl_id l <> tl_id layer ->
        nth_error (App.textLayers (App.handleMouseMove px py s1)) j
        = Some l)
  /\ App.images (App.handleMouseMove px py s1) = App.images s
  /\ App.interactionState (App.handleMouseMove px py s1)
     = App.interactionState s1
  /\ App.handleMouseMove qx qy (App.handleMouseMove px py s1)
     = App.handleMouseMove qx qy s1.
Proof.
  intros Hhit Hid s1 moved.
  assert (E1 : App.interactionState s1
               = App.mkInteraction App.dragging (Some App.target_text)
                   (Some (tl_id layer)) (Some (mx - tl_x layer))
                   (Some (my - tl_y layer))).
  { unfold s1, App.handleMouseDown. now rewrite Hhit. }
  assert (T1 : App.textLayers s1 = App.textLayers s).
  { unfold s1, App.handleMouseDown. now rewrite Hhit. }
  assert (I1 : App.images s1 = App.images s).
  { unfold s1, App.handleMouseDown. now rewrite Hhit. }
  assert (EM : App.textLayers (App.handleMouseMove px py s1)
               = map (fun l =>
                        if Js.str_eqb (tl_id l) (tl_id layer)
                        then moved l else l) (App.textLayers s)).
  { rewrite (text_drag_move px py s1 _ _ _ E1 Hid).
    cbn [App.setTextLayers App.textLayers]. rewrite T1.
    apply map_ext. intros l.
    destruct (Js.str_eqb (tl_id l) (tl_id layer)); [|reflexivity].
    unfold moved, App.layer_with_xy. f_equal; lra. }
  split; [exact EM|].
  split.
  { rewrite EM. apply in_map_iff. exists layer. split.
    - now rewrite (proj2 (str_eqb_eq _ _) eq_refl).
    - now apply (hitTextLayer_some measureText _ mx my). }
  split.
  { intros j l Hj Hne. rewrite EM, nth_error_map, Hj. cbn [option_map].
    now rewrite (proj2 (str_eqb_neq _ _) Hne). }
  rewrite (text_drag_move px py s1 _ _ _ E1 Hid).
  split; [exact I1|]. split; [reflexivity|].
  rewrite (text_drag_move qx qy s1 _ _ _ E1 Hid).
  rewrite (text_drag_move qx qy _ (tl_id layer) (mx - tl_x layer)
             (my - tl_y layer)); [|exact E1 | exact Hid].
  unfold App.setTextLayers. cbn. f_equal.
  rewrite map_map. apply map_ext. intros l.
  destruct (Js.str_eqb (tl_id l) (tl_id layer)) eqn:El.
  - cbn [App.layer_with_xy tl_id]. rewrite El. reflexivity.
  - rewrite El. reflexivity.
Qed.

(** The layer at (100, 100), pressed at (110, 95) and moved to (150, 120),
    is stored at (140, 125). *)
Lemma text_drag_follows_pointer_witness :
  App.textLayers
    (App.handleMouseMove 150 120
       (App.handleMouseDown sampleMetrics 110 95 gridWithText))
  = [mkTextLayer "t1" "Hi" 140 125 48 "Montserrat" "#FFFFFF" 0 true
       "#000000" (1 / 2) 10].
Proof.
  rewrite (proj1 (text_drag_follows_pointer sampleMetrics gridWithText
                    110 95 150 120 0 0 layerHi layerHi_near
                    ltac:(discriminate))).
  cbn [gridWithText sampleState App.textLayers map layerHi sampleLayer
       tl_id tl_x tl_y text fontSize fontFamily color rotation shadow
       backgroundColor backgroundOpacity padding].
  rewrite (proj2 (str_eqb_eq "t1" "t1") eq_refl).
  f_equal. f_equal; lra.
Defined.

(** ** Picking and dragging images *)

Lemma handle_test_iff (mouseX mouseY ix iy iw ih : R) :
  Js.geb mouseX (ix + iw - 12) && Js.leb mouseX (ix + iw + 12)
  && Js.geb mouseY (iy + ih - 12) && Js.leb mouseY (iy + ih + 12) = true
  <-> onHandle mouseX mouseY (mkRect ix iy iw ih).
Proof.
  unfold onHandle. cbn [rx ry rw rh].
  rewrite !andb_true_iff, !geb_true, !leb_true. tauto.
Qed.

Lemma body_test_iff (mouseX mouseY ix iy iw ih : R) :
  Js.gtb mouseX ix && Js.ltb mouseX (ix + iw)
  && Js.gtb mouseY iy && Js.ltb mouseY (iy + ih) = true
  <-> onBody mouseX mouseY (mkRect ix iy iw ih).
Proof.
  unfold onBody. cbn [rx ry rw rh].
  rewrite !andb_true_iff, !gtb_true, !ltb_true. tauto.
Qed.

Lemma handleTest_iff (mouseX mouseY : R) (r : Rect) :
  handleTest mouseX mouseY r = true <-> onHandle mouseX mouseY r.
Proof. destruct r. apply handle_test_iff. Qed.

Lemma bodyTest_iff (mouseX mouseY : R) (r : Rect) :
  bodyTest mouseX mouseY r = true <-> onBody mouseX mouseY r.
Proof. destruct r. apply body_test_iff. Qed.

Lemma scanImages_cons (sel : option string) (mouseX mouseY : R)
    (a : ImageState) (l : list ImageState) :
  App.scanImages sel mouseX mouseY (a :: l)
  = match geometry a with
    | Some r =>
        if App.is_selected sel (id a) && handleTest mouseX mouseY r
        then Some (a, App.resizing_br)
        else if bodyTest mouseX mouseY r then Some (a, App.dragging)
        else App.scanImages sel mouseX mouseY l
    | None => App.scanImages sel mouseX mouseY l
    end.
Proof.
  cbn [App.scanImages]. unfold geometry.
  destruct (x a), (y a), (width a), (height a); reflexivity.
Qed.

Lemma scanImages_spec (sel : option string) (mouseX mouseY : R)
    (l : list ImageState) (img : ImageState) (m : App.Mode) :
  App.scanImages sel mouseX mouseY l = Some (img, m) ->
  exists l1 l2 r,
    l = l1 ++ img :: l2 /\ geometry img = Some r
    /\ Forall (missed sel mouseX mouseY) l1
    /\ ((m = App.resizing_br /\ App.is_selected sel (id img) = true
         /\ onHandle mouseX mouseY r)
        \/ (m = App.dragging /\ onBody mouseX mouseY r)).
Proof.
  induction l as [|a l IH]; [discriminate|].
  rewrite scanImages_cons.
  destruct (geometry a) as [ra|] eqn:Eg.
  - destruct (App.is_selected sel (id a) && handleTest mouseX mouseY ra)
      eqn:Eh.
    + intros H. inversion H; subst.
      apply andb_true_iff in Eh as [Es Eh]. apply handleTest_iff in Eh.
      exists [], l, ra. split; [reflexivity|]. split; [exact Eg|].
      split; [constructor|]. left. auto.
    + destruct (bodyTest mouseX mouseY ra) eqn:Eb.
      * intros H. inversion H; subst. apply bodyTest_iff in Eb.
        exists [], l, ra. split; [reflexivity|]. split; [exact Eg|].
        split; [constructor|]. right. auto.
      * intros H. destruct (IH H) as [l1 [l2 [r [-> [Hg [Hm Hc]]]]]].
        exists (a :: l1), l2, r. split; [reflexivity|].
        split; [exact Hg|]. split; [|exact Hc].
        constructor; [|exact Hm].
        intros r' Hr'. rewrite Eg in Hr'. inversion Hr'; subst r'.
        split.
        -- intros Hb. apply bodyTest_iff in Hb. congruence.
        -- intros [Hs Hh]. apply handleTest_iff in Hh.
           rewrite Hs, Hh in Eh. discriminate.
  - intros H. destruct (IH H) as [l1 [l2 [r [-> [Hg [Hm Hc]]]]]].
    exists (a :: l1), l2, r. split; [reflexivity|].
    split; [exact Hg|]. split; [|exact Hc].
    constructor; [|exact Hm].
    intros r' Hr'. congruence.
Qed.

Lemma scanImages_none (sel : option string) (mouseX mouseY : R)
    (l : list ImageState) :
  App.scanImages sel mouseX mouseY l = None ->
  Forall (missed sel mouseX mouseY) l.
Proof.
  induction l as [|a l IH]; [constructor|].
  rewrite scanImages_cons.
  destruct (geometry a) as [ra|] eqn:Eg.
  - destruct (App.is_selected sel (id a) && handleTest mouseX mouseY ra)
      eqn:Eh; [discriminate|].
    destruct (bodyTest mouseX mouseY ra) eqn:Eb; [discriminate|].
    intros H. constructor; [|apply IH, H].
    intros r' Hr'. rewrite Eg in Hr'. inversion Hr'; subst r'. split.
    + intros Hb. apply bodyTest_iff in Hb. congruence.
    + intros [Hs Hh]. apply handleTest_iff in Hh.
      rewrite Hs, Hh in Eh. discriminate.
  - intros H. constructor; [|apply IH, H].
    intros r' Hr'. congruence.
Qed.

Lemma sort_ext {A : Type} (c1 c2 : A -> A -> R) (l : list A) :
  (forall a b, c1 a b = c2 a b) -> Js.sort c1 l = Js.sort c2 l.
Proof.
  intros H. induction l as [|a l IH]; [reflexivity|].
  cbn [Js.sort fold_right]. fold (Js.sort c1 l). fold (Js.sort c2 l).
  rewrite IH. generalize (Js.sort c2 l). intros l'.
  induction l' as [|b l' IH']; [reflexivity|].
  cbn [Js.insert]. rewrite H, IH'. reflexivity.
Qed.

Lemma sorted_after {A : Type} (P : A -> A -> Prop) (l1 l2 : list A)
    (a : A) :
  StronglySorted P (l1 ++ a :: l2) -> Forall (P a) l2.
Proof.
  induction l1 as [|b l1 IH]; simpl; intros H; inversion H; subst; auto.
Qed.

(** The descending order of [handleMouseDown]. *)
Lemma descending_sort (imgs : list ImageState) :
  Permutation
    (Js.sort (fun a b => Js.or0 (zIndex b) - Js.or0 (zIndex a)) imgs) imgs
  /\ StronglySorted
       (fun a b => Js.or0 (zIndex b) <= Js.or0 (zIndex a))
       (Js.sort (fun a b => Js.or0 (zIndex b) - Js.or0 (zIndex a)) imgs).
Proof.
  rewrite (sort_ext _
             (fun a b => - Js.or0 (zIndex a) - - Js.or0 (zIndex b)))
    by (intros; ring).
  split; [apply (sort_perm (fun a => - Js.or0 (zIndex a)))|].
  pose proof (sort_sorted (fun a => - Js.or0 (zIndex a)) imgs) as H.
  induction H as [|a l Hs IH Hf]; constructor; auto.
  eapply Forall_impl; [|exact Hf]. simpl. intros; lra.
Qed.

(** The image the scan returns is topmost among the images whose body
    contains the pointer. *)
Lemma scan_topmost (s : App.State) (mouseX mouseY : R) (img : ImageState)
    (m : App.Mode) :
  App.scanImages (App.selectedImageId s) mouseX mouseY
    (Js.sort (fun a b => Js.or0 (zIndex b) - Js.or0 (zIndex a))
       (App.images s)) = Some (img, m) ->
  In img (App.images s)
  /\ forall other ro,
       In other (App.images s) -> geometry other = Some ro ->
       onBody mouseX mouseY ro ->
       Js.or0 (zIndex other) <= Js.or0 (zIndex img).
Proof.
  intros H. destruct (descending_sort (App.images s)) as [Hp Hs].
  destruct (scanImages_spec _ _ _ _ _ _ H)
    as [l1 [l2 [r [E [Hg [Hm Hc]]]]]].
  rewrite E in Hp, Hs. split.
  - apply (Permutation_in _ Hp). apply in_or_app. right. now left.
  - intros other ro Ho Hgo Hb.
    apply (Permutation_in _ (Permutation_sym Hp)) in Ho.
    apply in_app_or in Ho as [Ho | [<- | Ho]].
    + rewrite Forall_forall in Hm. destruct (Hm other Ho ro Hgo). tauto.
    + lra.
    + apply sorted_after in Hs. rewrite Forall_forall in Hs.
      now apply Hs.
Qed.

Lemma geometry_fields (a : ImageState) (r : Rect) :
  geometry a = Some r ->
  x a = Some (rx r) /\ y a = Some (ry r)
  /\ width a = Some (rw r) /\ height a = Some (rh r).
Proof.
  unfold geometry.
  destruct (x a), (y a), (width a), (height a); try discriminate.
  intros H. inversion H. auto.
Qed.

Lemma is_selected_true (sel : option string) (i : string) :
  App.is_selected sel i = true -> sel = Some i.
Proof.
  destruct sel as [s0|]; simpl; [|discriminate].
  intros H. apply str_eqb_eq in H. now subst.
Qed.

Lemma is_selected_self (i : string) : App.is_selected (Some i) i = true.
Proof. simpl. now apply str_eqb_eq. Qed.

Lemma image_drag_move (mouseX mouseY : R) (s : App.State) (i : string)
    (ox oy : R) :
  App.interactionState s
  = App.mkInteraction App.dragging (Some App.target_image) (Some i)
      (Some ox) (Some oy) ->
  i <> ""%string ->
  App.handleMouseMove mouseX mouseY s
  = App.setImages
      (fun _ =>
         map (fun img =>
                if Js.str_eqb (id img) i
                then App.with_xy img (mouseX - ox) (mouseY - oy)
                else img) (App.images s)) s.
Proof.
  intros E Hi. unfold App.handleMouseMove. rewrite E.
  cbn [App.mode App.target App.ist_id App.offsetX App.offsetY Js.or0
       App.is_selected].
  rewrite (truthy_nonempty i Hi). unfold App.setImages. f_equal.
  apply map_ext. intros a. destruct (Js.str_eqb (id a) i); reflexivity.
Qed.

Lemma image_resize_move (mouseX mouseY : R) (s : App.State) (i : string)
    (ox oy : option R) :
  App.interactionState s
  = App.mkInteraction App.resizing_br (Some App.target_image) (Some i)
      ox oy ->
  i <> ""%string ->
  App.handleMouseMove mouseX mouseY s
  = App.setImages
      (fun _ =>
         map (fun img =>
                if Js.str_eqb (id img) i
                then match x img, y img with
                     | Some ix, Some iy =>
                         App.with_size img (Rmax 20 (mouseX - ix))
                           (Rmax 20 (mouseY - iy))
                     | _, _ => img
                     end
                else img) (App.images s)) s.
Proof.
  intros E Hi. unfold App.handleMouseMove. rewrite E.
  cbn [App.mode App.target App.ist_id App.is_selected].
  rewrite (truthy_nonempty i Hi). unfold App.setImages. f_equal.
  apply map_ext. intros a. destruct (Js.str_eqb (id a) i); reflexivity.
Qed.

(** What [handleMouseDown] does in free placement when no text layer is
    hit, by the result of the scan. *)
Lemma mouse_down_freeform (measureText : string -> R -> string -> R)
    (s : App.State) (mouseX mouseY : R) :
  App.layoutMode s = freeform ->
  App.hitTextLayer measureText (App.textLayers s) mouseX mouseY = None ->
  App.handleMouseDown measureText mouseX mouseY s
  = match App.scanImages (App.selectedImageId s) mouseX mouseY
            (Js.sort (fun a b => Js.or0 (zIndex b) - Js.or0 (zIndex a))
               (App.images s)) with
    | Some (c, m) =>
        App.setInteractionState
          (App.mkInteraction m (Some App.target_image) (Some (id c))
             (option_map (fun ix => mouseX - ix) (x c))
             (option_map (fun iy => mouseY - iy) (y c)))
          (match m with
           | App.dragging => App.setImages (App.bringToFront (id c))
           | _ => fun st => st
           end
             (if App.is_selected (App.selectedImageId s) (id c)
              then App.setSelectedTextId None s
              else App.setSelectedImageId (Some (id c))
                     (App.setSelectedTextId None s)))
    | None =>
        App.setInteractionState App.idle_state
          (App.setSelectedImageId None (App.setSelectedTextId None s))
    end.
Proof.
  intros Hm Hhit. unfold App.handleMouseDown. rewrite Hhit, Hm.
  cbn [LayoutMode_eqb].
  destruct (App.scanImages _ _ _ _) as [[c m]|]; [|reflexivity].
  destruct m; reflexivity.
Qed.

(** X9.  Grabbing an image.  In free placement, when no text layer is hit
    and the pointer-down starts a drag, the dragged image has complete
    geometry, its body contains the pointer, and it is topmost there: no
    image whose body contains the pointer stores a [zIndex] above its own
    (a missing one standing at 0).  The image becomes the selected one, the
    text selection is cleared, and the grab offset is the pointer minus the
    image position.  The image is brought to the front: every image of its
    identifier gets one new stored [zIndex], which is positive, is 1 or a
    stored [zIndex] plus 1, and lies above every [zIndex] stored before;
    all other fields and all other images stay.  A following pointer move
    to [(px, py)] stores, in every image of that identifier (which is not
    empty), the position of the grabbed image moved by
    [(px - mx, py - my)], with the size as it was and the new [zIndex], and
    changes no other image and no text layer. *)
Theorem pointer_down_grabs_topmost_image
    (measureText : string -> R -> string -> R) (s : App.State)
    (mx my px py : R) :
  App.layoutMode s = freeform ->
  App.hitTextLayer measureText (App.textLayers s) mx my = None ->
  let s1 := App.handleMouseDown measureText mx my s in
  App.mode (App.interactionState s1) = App.dragging ->
  exists img r zf,
    In img (App.images s) /\ geometry img = Some r /\ onBody mx my r
    /\ (forall other ro,
          In other (App.images s) -> geometry other = Some ro ->
          onBody mx my ro -> notAbove other img)
    /\ App.interactionState s1
       = App.mkInteraction App.dragging (Some App.target_image)
           (Some (id img)) (Some (mx - rx r)) (Some (my - ry r))
    /\ App.selectedImageId s1 = Some (id img)
    /\ App.selectedTextId s1 = None
    /\ 0 < zf
    /\ (zf = 1
        \/ exists t z, In t (App.images s) /\ zIndex t = Some z
                       /\ zf = z + 1)
    /\ (forall b z, In b (App.images s) -> zIndex b = Some z -> z < zf)
    /\ App.images s1
       = map (fun a =>
                if Js.str_eqb (id a) (id img)
                then mkImageState (id a) (url a) (x a) (y a) (width a)
                       (height a) (Some zf)
                else a)
           (App.images s)
    /\ App.textLayers s1 = App.textLayers s
    /\ (id img <> ""%string ->
        App.images (App.handleMouseMove px py s1)
        = map (fun a =>
                 if Js.str_eqb (id a) (id img)
                 then mkImageState (id a) (url a)
                        (Some (rx r + (px - mx))) (Some (ry r + (py - my)))
                        (width a) (height a) (Some zf)
                 else a)
            (App.images s)
        /\ App.textLayers (App.handleMouseMove px py s1)
           = App.textLayers s).
Proof.
  intros Hm Hhit s1 Hmode.
  pose proof (mouse_down_freeform measureText s mx my Hm Hhit) as E.
  fold s1 in E.
  destruct (App.scanImages (App.selectedImageId s) mx my _)
    as [[c m]|] eqn:Es;
    [|rewrite E in Hmode; discriminate].
  assert (m = App.dragging) by (rewrite E in Hmode; exact Hmode).
  subst m.
  destruct (scan_topmost s mx my c _ Es) as [Hin Htop].
  destruct (scanImages_spec _ _ _ _ _ _ Es)
    as [l1 [l2 [r [_ [Hg [_ Hc]]]]]].
  destruct Hc as [[Hc _] | [_ Hb]]; [discriminate|].
  destruct (geometry_fields c r Hg) as [Hx [Hy _]].
  rewrite Hx, Hy in E. cbn [option_map] in E.
  destruct (bringToFront_stored (id c) (App.images s))
    as [zf [Ebf [Hpos [Hch Hbd]]]].
  exists c, r, zf.
  split; [exact Hin|]. split; [exact Hg|]. split; [exact Hb|].
  split.
  { intros other ro Ho Hgo Hbo. apply or0_notAbove.
    exact (Htop other ro Ho Hgo Hbo). }
  assert (Ei : App.interactionState s1
               = App.mkInteraction App.dragging (Some App.target_image)
                   (Some (id c)) (Some (mx - rx r)) (Some (my - ry r)))
    by (rewrite E; reflexivity).
  assert (Eimg : App.images s1 = App.bringToFront (id c) (App.images s)).
  { rewrite E.
    destruct (App.is_selected (App.selectedImageId s) (id c));
      reflexivity. }
  assert (Etxt : App.textLayers s1 = App.textLayers s).
  { rewrite E.
    destruct (App.is_selected (App.selectedImageId s) (id c));
      reflexivity. }
  split; [exact Ei|]. split.
  { rewrite E.
    destruct (App.is_selected (App.selectedImageId s) (id c)) eqn:Esel;
      [|reflexivity].
    apply is_selected_true in Esel. exact Esel. }
  split.
  { rewrite E.
    destruct (App.is_selected (App.selectedImageId s) (id c));
      reflexivity. }
  split; [exact Hpos|]. split; [exact Hch|]. split; [exact Hbd|].
  split; [rewrite Eimg; exact Ebf|]. split; [exact Etxt|].
  intros Hid. rewrite (image_drag_move px py s1 _ _ _ Ei Hid).
  cbn [App.setImages App.images App.textLayers].
  rewrite Eimg, Etxt, Ebf, map_map. split; [|reflexivity].
  apply map_ext. intros a.
  replace (px - (mx - rx r)) with (rx r + (px - mx)) by lra.
  replace (py - (my - ry r)) with (ry r + (py - my)) by lra.
  destruct (Js.str_eqb (id a) (id c)) eqn:Eid.
  - cbn [id]. rewrite Eid. reflexivity.
  - rewrite Eid. reflexivity.
Qed.

Lemma freeformPair_sorted :
  Js.sort (fun a b => Js.or0 (zIndex b) - Js.or0 (zIndex a)) [imgA; imgB]
  = [imgB; imgA].
Proof.
  cbn [Js.sort fold_right Js.insert].
  rewrite (proj2 (leb_false _ _)); [reflexivity|].
  simpl. lra.
Qed.

Lemma freeformPair_scan :
  App.scanImages None 100 100
    (Js.sort (fun a b => Js.or0 (zIndex b) - Js.or0 (zIndex a))
       (App.images freeformPair))
  = Some (imgB, App.dragging).
Proof.
  change (App.images freeformPair) with [imgA; imgB].
  rewrite freeformPair_sorted, scanImages_cons.
  change (geometry imgB) with (Some (mkRect 80 80 300 200)).
  cbn [App.is_selected andb].
  rewrite (proj2 (bodyTest_iff _ _ _)); [reflexivity|].
  unfold onBody. cbn [rx ry rw rh]. lra.
Qed.

Lemma freeformPair_down :
  App.mode (App.interactionState
              (App.handleMouseDown sampleMetrics 100 100 freeformPair))
  = App.dragging.
Proof.
  rewrite mouse_down_freeform by reflexivity.
  change (App.selectedImageId freeformPair) with (@None string).
  rewrite freeformPair_scan. reflexivity.
Qed.

(** Of the two sample images, the one grabbed at (100, 100) is the upper
    one, and the value stored by the raise is 6. *)
Lemma freeformPair_grab (img : ImageState) (r : Rect) (zf : R) :
  In img [imgA; imgB] -> geometry img = Some r ->
  (forall other ro,
      In other [imgA; imgB] -> geometry other = Some ro ->
      onBody 100 100 ro -> notAbove other img) ->
  (zf = 1
   \/ exists t z, In t [imgA; imgB] /\ zIndex t = Some z /\ zf = z + 1) ->
  (forall b z, In b [imgA; imgB] -> zIndex b = Some z -> z < zf) ->
  img = imgB /\ r = mkRect 80 80 300 200 /\ zf = 6.
Proof.
  intros Hin Hg Htop Hch Hbd.
  destruct Hin as [<- | [<- | []]].
  - exfalso.
    assert (Hb : onBody 100 100 (mkRect 80 80 300 200))
      by (unfold onBody; cbn [rx ry rw rh]; lra).
    pose proof (Htop imgB (mkRect 80 80 300 200)
                  (or_intror (or_introl eq_refl)) eq_refl Hb) as H.
    unfold notAbove in H. simpl in H. lra.
  - split; [reflexivity|]. split.
    + change (geometry imgB) with (Some (mkRect 80 80 300 200)) in Hg.
      now inversion Hg.
    + pose proof (Hbd imgB 5 (or_intror (or_introl eq_refl)) eq_refl) as H5.
      destruct Hch as [-> | [t [z [Ht [Ez ->]]]]]; [lra|].
      destruct Ht as [<- | [<- | []]]; simpl in Ez; inversion Ez; subst;
        lra.
Qed.

Lemma freeformPair_dragged :
  map (fun a =>
         if Js.str_eqb (id a) (id imgB)
         then mkImageState (id a) (url a)
                (Some (rx (mkRect 80 80 300 200) + (130 - 100)))
                (Some (ry (mkRect 80 80 300 200) + (120 - 100)))
                (width a) (height a) (Some 6)
         else a)
    [imgA; imgB]
  = [imgA;
     mkImageState "b" "blob:b" (Some 110) (Some 100) (Some 300) (Some 200)
       (Some 6)].
Proof.
  replace (rx (mkRect 80 80 300 200) + (130 - 100)) with 110
    by (cbn [rx]; lra).
  replace (ry (mkRect 80 80 300 200) + (120 - 100)) with 100
    by (cbn [ry]; lra).
  reflexivity.
Qed.

Lemma pointer_down_grabs_topmost_image_witness :
  App.images (App.handleMouseDown sampleMetrics 100 100 freeformPair)
  = [imgA;
     mkImageState "b" "blob:b" (Some 80) (Some 80) (Some 300) (Some 200)
       (Some 6)]
  /\ App.selectedImageId
       (App.handleMouseDown sampleMetrics 100 100 freeformPair)
     = Some "b"%string
  /\ App.interactionState
       (App.handleMouseDown sampleMetrics 100 100 freeformPair)
     = App.mkInteraction App.dragging (Some App.target_image)
         (Some "b"%string) (Some (100 - 80)) (Some (100 - 80))
  /\ App.images
       (App.handleMouseMove 130 120
          (App.handleMouseDown sampleMetrics 100 100 freeformPair))
     = [imgA;
        mkImageState "b" "blob:b" (Some 110) (Some 100) (Some 300)
          (Some 200) (Some 6)].
Proof.
  destruct (pointer_down_grabs_topmost_image sampleMetrics freeformPair
              100 100 130 120 eq_refl eq_refl freeformPair_down)
    as [img [r [zf [Hin [Hg [_ [Htop [Hi [Hsel [_ [_ [Hch [Hbd [Himg
          [_ Hmv]]]]]]]]]]]]]]].
  destruct (freeformPair_grab img r zf Hin Hg Htop Hch Hbd)
    as [-> [-> ->]].
  destruct (Hmv ltac:(discriminate)) as [Hm _].
  split; [rewrite Himg; reflexivity|].
  split; [exact Hsel|]. split; [exact Hi|].
  rewrite Hm. exact freeformPair_dragged.
Defined.

(** X10.  Starting a resize.  In free placement, when no text layer is hit
    and the pointer-down starts a resize, the image is the selected one, has
    complete geometry, and the pointer is within 12 pixels of its
    bottom-right corner on both axes; no image whose body contains the
    pointer stores a [zIndex] above its own.  The pointer-down changes
    neither the images (the image is not raised), nor the selection, nor the
    text layers.  A following pointer move to [(px, py)] stores in every
    image of that identifier (which is not empty) that has a position
    [(x, y)] the width [max 20 (px - x)] and the height [max 20 (py - y)],
    neither below 20, and leaves its other fields, the other images and the
    text layers as they were: the corner jumps to the pointer, whatever the
    grab offset was.  The grabbed image itself is then stored with its
    position [(x, y)] and the size [max 20 (px - x)] by
    [max 20 (py - y)]. *)
Theorem pointer_down_on_handle_starts_resize
    (measureText : string -> R -> string -> R) (s : App.State)
    (mx my px py : R) :
  App.layoutMode s = freeform ->
  App.hitTextLayer measureText (App.textLayers s) mx my = None ->
  let s1 := App.handleMouseDown measureText mx my s in
  App.mode (App.interactionState s1) = App.resizing_br ->
  exists img r,
    In img (App.images s) /\ geometry img = Some r /\ onHandle mx my r
    /\ App.selectedImageId s = Some (id img)
    /\ (forall other ro,
          In other (App.images s) -> geometry other = Some ro ->
          onBody mx my ro -> notAbove other img)
    /\ App.images s1 = App.images s
    /\ App.selectedImageId s1 = Some (id img)
    /\ App.selectedTextId s1 = None
    /\ App.textLayers s1 = App.textLayers s
    /\ (id img <> ""%string ->
        let s2 := App.handleMouseMove px py s1 in
        App.images s2
        = map (fun a =>
                 if Js.str_eqb (id a) (id img)
                 then match x a, y a with
                      | Some ix, Some iy =>
                          mkImageState (id a) (url a) (Some ix) (Some iy)
                            (Some (Rmax 20 (px - ix)))
                            (Some (Rmax 20 (py - iy))) (zIndex a)
                      | _, _ => a
                      end
                 else a)
            (App.images s)
        /\ In (mkImageState (id img) (url img) (Some (rx r)) (Some (ry r))
                 (Some (Rmax 20 (px - rx r))) (Some (Rmax 20 (py - ry r)))
                 (zIndex img))
             (App.images s2)
        /\ 20 <= Rmax 20 (px - rx r) /\ 20 <= Rmax 20 (py - ry r)
        /\ (20 <= px - rx r -> Rmax 20 (px - rx r) = px - rx r)
        /\ (20 <= py - ry r -> Rmax 20 (py - ry r) = py - ry r)
        /\ App.textLayers s2 = App.textLayers s).
Proof.
  intros Hm Hhit s1 Hmode.
  pose proof (mouse_down_freeform measureText s mx my Hm Hhit) as E.
  fold s1 in E.
  destruct (App.scanImages (App.selectedImageId s) mx my _)
    as [[c m]|] eqn:Es;
    [|rewrite E in Hmode; discriminate].
  assert (m = App.resizing_br) by (rewrite E in Hmode; exact Hmode).
  subst m.
  destruct (scan_topmost s mx my c _ Es) as [Hin Htop].
  destruct (scanImages_spec _ _ _ _ _ _ Es)
    as [l1 [l2 [r [_ [Hg [_ Hc]]]]]].
  destruct Hc as [[_ [Hsel Hh]] | [Hc _]]; [|discriminate].
  rewrite Hsel in E.
  apply is_selected_true in Hsel.
  destruct (geometry_fields c r Hg) as [Hx [Hy _]].
  exists c, r.
  split; [exact Hin|]. split; [exact Hg|]. split; [exact Hh|].
  split; [exact Hsel|]. split.
  { intros other ro Ho Hgo Hbo. apply or0_notAbove.
    exact (Htop other ro Ho Hgo Hbo). }
  assert (Eimg : App.images s1 = App.images s) by (rewrite E; reflexivity).
  assert (Etxt : App.textLayers s1 = App.textLayers s)
    by (rewrite E; reflexivity).
  split; [exact Eimg|].
  split; [rewrite E; exact Hsel|].
  split; [rewrite E; reflexivity|].
  split; [exact Etxt|].
  intros Hid s2.
  assert (E2 : App.images s2
               = map (fun a =>
                        if Js.str_eqb (id a) (id c)
                        then match x a, y a with
                             | Some ix, Some iy =>
                                 mkImageState (id a) (url a) (Some ix)
                                   (Some iy) (Some (Rmax 20 (px - ix)))
                                   (Some (Rmax 20 (py - iy))) (zIndex a)
                             | _, _ => a
                             end
                        else a)
                   (App.images s)).
  { unfold s2.
    rewrite (image_resize_move px py s1 (id c)
               (option_map (fun ix => mx - ix) (x c))
               (option_map (fun iy => my - iy) (y c)));
      [|rewrite E; reflexivity|exact Hid].
    cbn [App.setImages App.images]. rewrite Eimg.
    apply map_ext. intros a.
    destruct (Js.str_eqb (id a) (id c)); [|reflexivity].
    unfold App.with_size.
    destruct (x a) eqn:Ex; [|reflexivity].
    destruct (y a) eqn:Ey; reflexivity. }
  split; [exact E2|]. split.
  { rewrite E2. apply in_map_iff. exists c. split; [|exact Hin].
    rewrite (proj2 (str_eqb_eq (id c) (id c)) eq_refl), Hx, Hy.
    reflexivity. }
  split; [apply Rmax_l|]. split; [apply Rmax_l|].
  split; [intros H; apply Rmax_right; exact H|].
  split; [intros H; apply Rmax_right; exact H|].
  unfold s2.
  rewrite (image_resize_move px py s1 (id c)
             (option_map (fun ix => mx - ix) (x c))
             (option_map (fun iy => my - iy) (y c)));
    [|rewrite E; reflexivity|exact Hid].
  cbn [App.setImages App.textLayers]. exact Etxt.
Qed.

Lemma freeformPairB_down :
  App.mode (App.interactionState
              (App.handleMouseDown sampleMetrics 380 280 freeformPairB))
  = App.resizing_br.
Proof.
  rewrite mouse_down_freeform by reflexivity.
  change (App.selectedImageId freeformPairB) with (Some "b"%string).
  change (App.images freeformPairB) with [imgA; imgB].
  rewrite freeformPair_sorted, scanImages_cons.
  change (geometry imgB) with (Some (mkRect 80 80 300 200)).
  cbv beta iota.
  rewrite (proj2 (handleTest_iff _ _ _)).
  - rewrite andb_true_r.
    change (id imgB) with "b"%string. rewrite is_selected_self.
    reflexivity.
  - unfold onHandle. cbn [rx ry rw rh]. lra.
Qed.

Lemma freeformPairB_resized :
  map (fun a =>
         if Js.str_eqb (id a) (id imgB)
         then match x a, y a with
              | Some ix, Some iy =>
                  mkImageState (id a) (url a) (Some ix) (Some iy)
                    (Some (Rmax 20 (90 - ix))) (Some (Rmax 20 (400 - iy)))
                    (zIndex a)
              | _, _ => a
              end
         else a)
    [imgA; imgB]
  = [imgA;
     mkImageState "b" "blob:b" (Some 80) (Some 80) (Some 20) (Some 320)
       (Some 5)].
Proof.
  cbn [map].
  change (Js.str_eqb (id imgA) (id imgB)) with false.
  change (Js.str_eqb (id imgB) (id imgB)) with true.
  change (x imgB) with (Some 80). change (y imgB) with (Some 80).
  cbv beta iota.
  replace (Rmax 20 (90 - 80)) with 20 by (rewrite Rmax_left; lra).
  replace (Rmax 20 (400 - 80)) with 320 by (rewrite Rmax_right; lra).
  reflexivity.
Qed.

Lemma pointer_down_on_handle_starts_resize_witness :
  App.images (App.handleMouseDown sampleMetrics 380 280 freeformPairB)
  = [imgA; imgB]
  /\ App.images
       (App.handleMouseMove 90 400
          (App.handleMouseDown sampleMetrics 380 280 freeformPairB))
     = [imgA;
        mkImageState "b" "blob:b" (Some 80) (Some 80) (Some 20) (Some 320)
          (Some 5)].
Proof.
  destruct (pointer_down_on_handle_starts_resize sampleMetrics
              freeformPairB 380 280 90 400 eq_refl eq_refl
              freeformPairB_down)
    as [img [r [Hin [_ [_ [Hsel [_ [Himg [_ [_ [_ Hmv]]]]]]]]]]].
  split; [exact Himg|].
  destruct Hin as [<- | [<- | []]]; [discriminate Hsel|].
  destruct (Hmv ltac:(discriminate)) as [Hm _].
  rewrite Hm. exact freeformPairB_resized.
Defined.

Lemma scanImages_missed (sel : option string) (mouseX mouseY : R)
    (l : list ImageState) :
  Forall (missed sel mouseX mouseY) l ->
  App.scanImages sel mouseX mouseY l = None.
Proof.
  induction 1 as [|a l Ha _ IH]; [reflexivity|].
  rewrite scanImages_cons.
  destruct (geometry a) as [r|] eqn:Eg; [|exact IH].
  destruct (Ha r Eg) as [Hb Hh].
  destruct (App.is_selected sel (id a) && handleTest mouseX mouseY r)
    eqn:E1.
  { apply andb_true_iff in E1. destruct E1 as [E1 E2].
    apply handleTest_iff in E2. tauto. }
  destruct (bodyTest mouseX mouseY r) eqn:E2; [|exact IH].
  apply bodyTest_iff in E2. tauto.
Qed.

Lemma sort_perm_any {A : Type} (cmp : A -> A -> R) (l : list A) :
  Permutation (Js.sort cmp l) l.
Proof.
  induction l as [|a l IH]; simpl; [reflexivity|].
  transitivity (a :: Js.sort cmp l); [|now constructor].
  generalize (Js.sort cmp l). intros m.
  induction m as [|b m IHm]; simpl; [reflexivity|].
  destruct (Js.leb (cmp a b) 0); [reflexivity|].
  rewrite IHm. apply perm_swap.
Qed.

(** X11.  Pressing on nothing.  In free placement, when no text layer is
    hit, the pointer-down leaves the interaction idle exactly when every
    image is missed: the pointer is not inside the body of any image with
    complete geometry and not on the handle square of the selected one.  In
    that case both selections are cleared and nothing else changes.  The
    identifier that a pointer-down picks always belongs to an image with
    complete geometry. *)
Theorem pointer_down_on_nothing_deselects
    (measureText : string -> R -> string -> R) (s : App.State)
    (mx my : R) :
  App.layoutMode s = freeform ->
  App.hitTextLayer measureText (App.textLayers s) mx my = None ->
  let s1 := App.handleMouseDown measureText mx my s in
  (App.mode (App.interactionState s1) = App.idle
   <-> Forall (missed (App.selectedImageId s) mx my) (App.images s))
  /\ (Forall (missed (App.selectedImageId s) mx my) (App.images s) ->
      s1 = App.setInteractionState App.idle_state
             (App.setSelectedImageId None (App.setSelectedTextId None s)))
  /\ (forall img,
        In img (App.images s) -> geometry img = None ->
        App.ist_id (App.interactionState s1) = Some (id img) ->
        exists other, In other (App.images s) /\ id other = id img
                      /\ geometry other <> None).
Proof.
  intros Hm Hhit s1.
  pose proof (mouse_down_freeform measureText s mx my Hm Hhit) as E.
  fold s1 in E.
  set (sorted := Js.sort (fun a b => Js.or0 (zIndex b) - Js.or0 (zIndex a))
                   (App.images s)) in *.
  assert (Hp : Permutation sorted (App.images s))
    by apply sort_perm_any.
  split; [split|split].
  - intros Hidle.
    destruct (App.scanImages _ _ _ sorted) as [[c m]|] eqn:Es.
    + destruct (scanImages_found _ _ _ _ _ _ Es) as [_ [_ Hn]].
      rewrite E in Hidle. cbn in Hidle. congruence.
    + apply scanImages_none in Es.
      now apply (Permutation_Forall Hp).
  - intros Hall.
    apply (Permutation_Forall (Permutation_sym Hp)) in Hall.
    apply scanImages_missed in Hall. rewrite E, Hall. reflexivity.
  - intros Hall.
    apply (Permutation_Forall (Permutation_sym Hp)) in Hall.
    apply scanImages_missed in Hall. rewrite E, Hall. reflexivity.
  - intros img Hin Hg Hid.
    destruct (App.scanImages _ _ _ sorted) as [[c m]|] eqn:Es.
    + destruct (scanImages_found _ _ _ _ _ _ Es) as [Hc [Hgc _]].
      exists c. split; [now apply (Permutation_in _ Hp)|].
      split; [|exact Hgc].
      rewrite E in Hid. cbn in Hid. congruence.
    + rewrite E in Hid. discriminate.
Qed.

Lemma pointer_down_on_nothing_deselects_witness :
  App.mode (App.interactionState
              (App.handleMouseDown sampleMetrics 10 10 freeformPairB))
  = App.idle
  <-> Forall (missed (App.selectedImageId freeformPairB) 10 10)
        (App.images freeformPairB).
Proof.
  refine (proj1 (pointer_down_on_nothing_deselects sampleMetrics
                   freeformPairB 10 10 _ _)); reflexivity.
Defined.

(** ** Pointer events keep the content *)

Lemma map_keeps {A B : Type} (g : A -> B) (f : A -> A) (l : list A) :
  (forall a, g (f a) = g a) -> map g (map f l) = map g l.
Proof.
  intros H. rewrite map_map. apply map_ext. exact H.
Qed.

Lemma content_images (s s' : App.State) :
  content s' = content s ->
  map id (App.images s') = map id (App.images s)
  /\ map url (App.images s') = map url (App.images s).
Proof.
  intros H.
  assert (E : App.images (content s') = App.images (content s))
    by now rewrite H.
  cbn [content App.images] in E.
  split.
  - apply (f_equal (map id)) in E. rewrite !map_map in E. exact E.
  - apply (f_equal (map url)) in E. rewrite !map_map in E. exact E.
Qed.

Lemma content_setImages (f : list ImageState -> list ImageState)
    (s : App.State) :
  (forall l,
     map (fun a => mkImageState (id a) (url a) None None None None None)
       (f l)
     = map (fun a => mkImageState (id a) (url a) None None None None None)
         l) ->
  content (App.setImages f s) = content s.
Proof.
  intros H. unfold content, App.setImages.
  cbn [App.images App.globalZoom App.gap App.layoutMode App.imageFit
       App.mainZoom App.bgBlur App.bgOpacity App.background App.watermark
       App.textLayers App.loadedGridImages App.loadedWatermark
       App.loadedBackgroundImage].
  now rewrite H.
Qed.

Lemma content_bringToFront (i : string) (s : App.State) :
  content (App.setImages (App.bringToFront i) s) = content s.
Proof.
  apply content_setImages. intros l. unfold App.bringToFront.
  apply map_keeps. intros a.
  destruct (Js.str_eqb (id a) i); reflexivity.
Qed.

Section Content.

Variable measureText : string -> R -> string -> R.

Lemma down_content (mouseX mouseY : R) (s : App.State) :
  content (App.handleMouseDown measureText mouseX mouseY s) = content s.
Proof.
  unfold App.handleMouseDown.
  destruct (App.hitTextLayer measureText (App.textLayers s) mouseX mouseY);
    [reflexivity|].
  destruct (LayoutMode_eqb (App.layoutMode s) freeform); [|reflexivity].
  destruct (App.scanImages _ _ _ _) as [[c m]|]; [|reflexivity].
  destruct (App.is_selected (App.selectedImageId s) (id c)), m;
    try reflexivity.
  - exact (content_bringToFront (id c) (App.setSelectedTextId None s)).
  - exact (content_bringToFront (id c)
             (App.setSelectedImageId (Some (id c))
                (App.setSelectedTextId None s))).
Qed.

Lemma move_content (mouseX mouseY : R) (s : App.State) :
  content (App.handleMouseMove mouseX mouseY s) = content s.
Proof.
  unfold App.handleMouseMove.
  destruct (App.mode (App.interactionState s)) eqn:Em; [reflexivity| |];
    (destruct (App.target (App.interactionState s)) as [[|]|];
       [| |reflexivity];
     (destruct (Js.truthy (App.ist_id (App.interactionState s)));
       [|reflexivity])).
  - unfold content, App.setTextLayers.
    cbn [App.images App.globalZoom App.gap App.layoutMode App.imageFit
         App.mainZoom App.bgBlur App.bgOpacity App.background App.watermark
         App.textLayers App.loadedGridImages App.loadedWatermark
         App.loadedBackgroundImage].
    f_equal. apply map_keeps. intros l.
    destruct (App.is_selected _ (tl_id l)); reflexivity.
  - apply content_setImages. intros l. apply map_keeps. intros a.
    destruct (negb _); reflexivity.
  - unfold content, App.setTextLayers.
    cbn [App.images App.globalZoom App.gap App.layoutMode App.imageFit
         App.mainZoom App.bgBlur App.bgOpacity App.background App.watermark
         App.textLayers App.loadedGridImages App.loadedWatermark
         App.loadedBackgroundImage].
    f_equal. apply map_keeps. intros l.
    destruct (App.is_selected _ (tl_id l)); reflexivity.
  - apply content_setImages. intros l. apply map_keeps. intros a.
    destruct (negb _); [reflexivity|].
    destruct (x a), (y a); reflexivity.
Qed.

Lemma step_content (e : App.Event) (s : App.State) :
  content (App.step measureText e s) = content s.
Proof.
  destruct e as [mx my | mx my |]; cbn [App.step].
  - apply down_content.
  - apply move_content.
  - reflexivity.
Qed.


End Content.


Lemma freeformPair_settled : settled freeformPair.
Proof.
  unfold settled. split; [reflexivity|].
  split; repeat constructor; simpl; intuition discriminate.
Qed.


(** ** Reordering thumbnails *)

Lemma findIndex_some {A : Type} (p : A -> bool) (l : list A) (k : nat) :
  Js.findIndex p l = Some k ->
  exists a, nth_error l k = Some a /\ p a = true.
Proof.
  revert k. induction l as [|b l IH]; intros k; simpl; [discriminate|].
  destruct (p b) eqn:Eb.
  - intros H. inversion H. subst. exists b. now split.
  - destruct (Js.findIndex p l) as [j|]; simpl; [|discriminate].
    intros H. inversion H. subst. simpl. now apply IH.
Qed.

Lemma findIndex_none {A : Type} (p : A -> bool) (l : list A) :
  (forall a, In a l -> p a = false) -> Js.findIndex p l = None.
Proof.
  induction l as [|b l IH]; intros H; simpl; [reflexivity|].
  rewrite (H b (or_introl eq_refl)), IH; [reflexivity|].
  intros a Ha. apply H. now right.
Qed.

Lemma findIndex_unique (l : list ImageState) (k : nat) (a : ImageState) :
  NoDup (map id l) -> nth_error l k = Some a ->
  Js.findIndex (fun i => Js.str_eqb (id i) (id a)) l = Some k.
Proof.
  revert k. induction l as [|b l IH]; intros k Hnd Hk.
  - destruct k; discriminate.
  - simpl in Hnd. inversion Hnd as [|? ? Hnot Hnd']. subst.
    destruct k as [|k]; simpl in Hk |- *.
    + inversion Hk. subst. now rewrite (proj2 (str_eqb_eq _ _) eq_refl).
    + destruct (Js.str_eqb (id b) (id a)) eqn:E.
      * apply str_eqb_eq in E. exfalso. apply Hnot. rewrite E.
        apply in_map. now apply nth_error_In with k.
      * now rewrite (IH k Hnd' Hk).
Qed.

Lemma splice_perm {A : Type} (d t : nat) (a : A) (l : list A) :
  nth_error l d = Some a ->
  Permutation (App.splice_insert t a (App.splice_remove d l)) l.
Proof.
  intros Hd. unfold App.splice_insert.
  set (m := App.splice_remove d l).
  transitivity (a :: m).
  - symmetry. rewrite <- (firstn_skipn t m) at 1. apply Permutation_middle.
  - unfold m, App.splice_remove.
    destruct (nth_error_split l d Hd) as [l1 [l2 [El Hl]]].
    subst l d.
    rewrite firstn_app, firstn_all, Nat.sub_diag, firstn_O, app_nil_r.
    replace (S (List.length l1)) with (List.length l1 + 1)%nat by lia.
    rewrite skipn_app, skipn_all2 by lia.
    replace (List.length l1 + 1 - List.length l1)%nat with 1%nat by lia.
    simpl. apply Permutation_middle.
Qed.

Lemma splice_remove_length {A : Type} (d : nat) (l : list A) :
  (d < List.length l)%nat ->
  S (List.length (App.splice_remove d l)) = List.length l.
Proof.
  intros H. unfold App.splice_remove.
  rewrite length_app, firstn_length_le, length_skipn by lia. lia.
Qed.

Lemma splice_insert_nth {A : Type} (t : nat) (a : A) (m : list A) :
  (t <= List.length m)%nat ->
  nth_error (App.splice_insert t a m) t = Some a
  /\ App.splice_remove t (App.splice_insert t a m) = m.
Proof.
  intros H. unfold App.splice_insert, App.splice_remove.
  assert (L : List.length (firstn t m) = t) by (apply firstn_length_le; lia).
  split.
  - rewrite nth_error_app2 by lia. rewrite L, Nat.sub_diag. reflexivity.
  - rewrite firstn_app, L, Nat.sub_diag, firstn_O, app_nil_r.
    rewrite firstn_firstn, Nat.min_id.
    replace (S t) with (List.length (firstn t m) + 1)%nat by lia.
    rewrite skipn_app, skipn_all2 by lia.
    replace (List.length (firstn t m) + 1 - List.length (firstn t m))%nat
      with 1%nat by lia.
    simpl. apply firstn_skipn.
Qed.

(** X13.  Reordering by drag and drop.  When the images have distinct
    identifiers, dropping the thumbnail of the image at index [d] (whose
    identifier is not empty) on the thumbnail of the image at index [t]
    moves the dragged image to index [t]: the list without it is the old
    list without it, so all other images keep their relative order, no
    image is lost or duplicated, and nothing but the list order changes
    in the state.  The drag is over afterwards.  A drop with no drag in
    progress changes nothing, and a drop where the dragged or the target
    identifier names no image leaves the images as they are. *)
Theorem drop_moves_dragged_to_target (s : App.State) (d t : nat)
    (a b : ImageState) :
  NoDup (map id (App.images s)) ->
  nth_error (App.images s) d = Some a ->
  nth_error (App.images s) t = Some b ->
  id a <> ""%string ->
  let s' := snd (App.handleDrop (id b) (Some (id a)) s) in
  fst (App.handleDrop (id b) (Some (id a)) s) = None
  /\ nth_error (App.images s') t = Some a
  /\ App.splice_remove t (App.images s')
     = App.splice_remove d (App.images s)
  /\ Permutation (App.images s') (App.images s)
  /\ s' = App.setImages (fun _ => App.images s') s
  /\ (forall target, App.handleDrop target None s = (None, s))
  /\ (forall target, App.handleDrop target (Some ""%string) s
                     = (Some ""%string, s))
  /\ (forall target dragged,
        (forall c, In c (App.images s) -> id c <> target)
        \/ (forall c, In c (App.images s) -> id c <> dragged) ->
        App.images (snd (App.handleDrop target (Some dragged) s))
        = App.images s).
Proof.
  intros Hnd Hd Ht Hid s'.
  assert (E : App.handleDrop (id b) (Some (id a)) s
              = (None,
                 App.setImages
                   (fun _ => App.splice_insert t a
                               (App.splice_remove d (App.images s))) s)).
  { unfold App.handleDrop. rewrite (truthy_nonempty _ Hid).
    cbn [negb App.is_selected].
    rewrite (findIndex_unique _ _ _ Hnd Hd), (findIndex_unique _ _ _ Hnd Ht).
    now rewrite Hd. }
  unfold s'. rewrite E. cbn [fst snd App.setImages App.images].
  assert (Hdl : (d < List.length (App.images s))%nat)
    by (apply nth_error_Some; congruence).
  assert (Htl : (t < List.length (App.images s))%nat)
    by (apply nth_error_Some; congruence).
  pose proof (splice_remove_length d (App.images s) Hdl) as Hl.
  destruct (splice_insert_nth t a (App.splice_remove d (App.images s)))
    as [H1 H2]; [lia|].
  split; [reflexivity|]. split; [exact H1|]. split; [exact H2|].
  split; [now apply splice_perm|]. split; [reflexivity|].
  split; [reflexivity|]. split; [reflexivity|].
  intros target dragged Hno. unfold App.handleDrop.
  destruct (negb (Js.truthy (Some dragged))); [reflexivity|].
  cbn [snd App.is_selected].
  destruct Hno as [Hno | Hno].
  - rewrite (findIndex_none (fun img => Js.str_eqb (id img) target)).
    + destruct (Js.findIndex _ _); reflexivity.
    + intros c Hc. apply str_eqb_neq. now apply Hno.
  - rewrite (findIndex_none (fun img => Js.str_eqb (id img) dragged));
      [reflexivity|].
    intros c Hc. apply str_eqb_neq. now apply Hno.
Qed.

Lemma drop_moves_dragged_to_target_witness :
  nth_error
    (App.images (snd (App.handleDrop (id imgA) (Some (id imgB))
                        freeformPair))) 0
  = Some imgB.
Proof.
  refine (proj1 (proj2 (drop_moves_dragged_to_target freeformPair 1 0
                          imgB imgA _ _ _ _))).
  - repeat constructor; simpl; intuition discriminate.
  - reflexivity.
  - reflexivity.
  - discriminate.
Defined.

(** ** Text layers: add, edit, delete *)

Lemma find_snoc_fresh {A : Type} (p : A -> bool) (l : list A) (a : A) :
  Forall (fun b => p b = false) l ->
  List.find p (l ++ [a]) = if p a then Some a else None.
Proof.
  induction 1 as [|b l Hb _ IH]; simpl; [reflexivity|].
  now rewrite Hb.
Qed.

Lemma fresh_layers (i : string) (l : list TextLayer) :
  ~ In i (map tl_id l) ->
  Forall (fun b => Js.str_eqb (tl_id b) i = false) l.
Proof.
  intros H. apply Forall_forall. intros b Hb. apply str_eqb_neq.
  intros E. apply H. rewrite <- E. now apply in_map.
Qed.

(** X14.  The life of a new text layer.  [addTextLayer] with a fresh,
    non-empty identifier appends the layer ``New Text'' at the centre of the
    canvas (at (400, 300) without a canvas) and selects it: the panel's
    [selectedLayer] is the new layer.  Being last it is topmost, so where
    its box is not degenerate the hit test at its centre finds it, whatever
    lies below.  An edit through [updateSelectedLayer] changes this layer
    and no other; deleting it restores the earlier list of layers and clears
    the selection. *)
Theorem new_text_layer_lifecycle
    (measureText : string -> R -> string -> R) (s : App.State)
    (newId : string) (canvas : option (R * R)) (props : App.LayerProps) :
  ~ In newId (map tl_id (App.textLayers s)) ->
  newId <> ""%string ->
  -20 < measureText "New Text"%string 48 "Montserrat"%string ->
  let s1 := App.addTextLayer newId canvas s in
  let cx := match canvas with Some (w, _) => w / 2 | None => 400 end in
  let cy := match canvas with Some (_, h) => h / 2 | None => 300 end in
  let newLayer :=
    mkTextLayer newId "New Text" cx cy 48 "Montserrat" "#FFFFFF" 0 true
      "#000000" (1 / 2) 10 in
  App.textLayers s1 = App.textLayers s ++ [newLayer]
  /\ App.selectedLayer s1 = Some newLayer
  /\ App.hitTextLayer measureText (App.textLayers s1) cx cy = Some newLayer
  /\ App.textLayers (App.updateSelectedLayer props s1)
     = App.textLayers s ++ [App.spread newLayer props]
  /\ App.textLayers (App.deleteTextLayer newId s1) = App.textLayers s
  /\ App.selectedTextId (App.deleteTextLayer newId s1) = None
  /\ App.images s1 = App.images s
  /\ App.selectedImageId s1 = App.selectedImageId s.
Proof.
  intros Hfresh Hid Hm s1 cx cy newLayer.
  pose proof (fresh_layers newId _ Hfresh) as Hf.
  assert (E1 : App.textLayers s1 = App.textLayers s ++ [newLayer]).
  { unfold s1, App.addTextLayer, newLayer, cx, cy.
    cbn [App.setSelectedTextId App.setTextLayers App.textLayers].
    do 2 f_equal. f_equal. lra. }
  assert (Es : App.selectedTextId s1 = Some newId) by reflexivity.
  assert (Eself : Js.str_eqb newId newId = true)
    by now apply str_eqb_eq.
  split; [exact E1|]. split.
  { unfold App.selectedLayer. rewrite Es, (truthy_nonempty _ Hid), E1.
    unfold Js.find. cbn [App.is_selected].
    rewrite (find_snoc_fresh _ _ _ Hf). cbn [tl_id newLayer].
    now rewrite Eself. }
  split.
  { rewrite E1. unfold App.hitTextLayer. rewrite rev_app_distr.
    cbn [rev app List.find].
    change cx with (tl_x newLayer). change cy with (tl_y newLayer).
    rewrite hitsText_center; [reflexivity| |];
      cbn [text fontSize fontFamily padding newLayer]; lra. }
  split.
  { unfold App.updateSelectedLayer. rewrite Es, (truthy_nonempty _ Hid).
    cbn [negb App.setTextLayers App.textLayers App.is_selected].
    rewrite E1, map_app. cbn [map]. cbn [tl_id newLayer].
    rewrite Eself. f_equal.
    rewrite <- (map_id (App.textLayers s)) at 2.
    apply map_ext_in. intros b Hb.
    rewrite Forall_forall in Hf. now rewrite (Hf b Hb). }
  assert (Ed : App.deleteTextLayer newId s1
               = App.setSelectedTextId None
                   (App.setTextLayers
                      (filter (fun layer =>
                                 negb (Js.str_eqb (tl_id layer) newId)))
                      s1)).
  { unfold App.deleteTextLayer. rewrite Es. cbn [App.is_selected].
    now rewrite Eself. }
  rewrite Ed. cbn [App.setSelectedTextId App.setTextLayers App.textLayers
                   App.selectedTextId].
  split.
  { rewrite E1, filter_app. cbn [filter]. cbn [tl_id newLayer].
    rewrite Eself. cbn [negb]. rewrite app_nil_r.
    apply forallb_filter_id. apply forallb_forall. intros b Hb.
    rewrite Forall_forall in Hf. now rewrite (Hf b Hb). }
  repeat split; reflexivity.
Qed.

Lemma new_text_layer_lifecycle_witness :
  App.selectedLayer (App.addTextLayer "t9" (Some (800, 600)) gridWithText)
  = Some (mkTextLayer "t9" "New Text" (800 / 2) (600 / 2) 48 "Montserrat"
            "#FFFFFF" 0 true "#000000" (1 / 2) 10).
Proof.
  refine (proj1 (proj2 (new_text_layer_lifecycle sampleMetrics gridWithText
                          "t9" (Some (800, 600))
                          (App.mkLayerProps None None None None None None
                             None None None None None None) _ _ _))).
  - simpl. intuition discriminate.
  - discriminate.
  - unfold sampleMetrics. simpl. lra.
Defined.

(** ** The selections name existing items *)

Lemma ids_bringToFront (i : string) (l : list ImageState) :
  map id (App.bringToFront i l) = map id l.
Proof.
  unfold App.bringToFront. apply map_keeps. intros a.
  destruct (Js.str_eqb (id a) i); reflexivity.
Qed.

Lemma ids_sendToBack (i : string) (l : list ImageState) :
  map id (App.sendToBack i l) = map id l.
Proof.
  unfold App.sendToBack. apply map_keeps. intros a.
  destruct (Js.str_eqb (id a) i); reflexivity.
Qed.

Lemma drop_perm (target : string) (dragged : option string)
    (s : App.State) :
  Permutation (App.images (snd (App.handleDrop target dragged s)))
    (App.images s)
  /\ App.textLayers (snd (App.handleDrop target dragged s))
     = App.textLayers s
  /\ App.selectedTextId (snd (App.handleDrop target dragged s))
     = App.selectedTextId s
  /\ App.selectedImageId (snd (App.handleDrop target dragged s))
     = App.selectedImageId s.
Proof.
  unfold App.handleDrop.
  destruct (negb (Js.truthy dragged)); [now repeat split|].
  cbn [snd].
  destruct (Js.findIndex _ (App.images s)) as [d|] eqn:Ed;
    [|now repeat split].
  destruct (Js.findIndex (fun img => Js.str_eqb (id img) target) _)
    as [t|]; [|now repeat split].
  destruct (nth_error (App.images s) d) as [item|] eqn:En;
    [|now repeat split].
  cbn [App.setImages App.images App.textLayers App.selectedTextId
       App.selectedImageId].
  split; [now apply splice_perm|]. now repeat split.
Qed.

Lemma selected_survives_filter {A : Type} (f : A -> string) (i j : string)
    (l : list A) :
  In j (map f l) -> j <> i ->
  In j (map f (filter (fun a => negb (Js.str_eqb (f a) i)) l)).
Proof.
  intros Hin Hne. apply in_map_iff in Hin as [a [Ea Ha]].
  apply in_map_iff. exists a. split; [exact Ea|].
  apply filter_In. split; [exact Ha|].
  apply negb_true_iff, str_eqb_neq. congruence.
Qed.

Lemma is_selected_false (sel : option string) (i j : string) :
  App.is_selected sel i = false -> sel = Some j -> j <> i.
Proof.
  intros H E. subst sel. simpl in H. apply str_eqb_neq in H. congruence.
Qed.

Lemma pointer_valid (measureText : string -> R -> string -> R)
    (e : App.Event) (s : App.State) :
  selectionValid s -> selectionValid (App.step measureText e s).
Proof.
  intros [Ht Hi].
  pose proof (step_content measureText e s) as Hc.
  destruct (content_images _ _ Hc) as [Hids _].
  assert (Htl : map tl_id (App.textLayers (App.step measureText e s))
                = map tl_id (App.textLayers s)).
  { assert (Et : App.textLayers (content (App.step measureText e s))
                 = App.textLayers (content s)) by now rewrite Hc.
    cbn [content App.textLayers] in Et.
    apply (f_equal (map tl_id)) in Et. now rewrite !map_map in Et. }
  unfold selectionValid. rewrite Hids, Htl.
  destruct e as [mx my | mx my |]; cbn [App.step].
  - unfold App.handleMouseDown.
    destruct (App.hitTextLayer measureText (App.textLayers s) mx my)
      as [layer|] eqn:Eh.
    { apply hitTextLayer_some in Eh as [Hin _].
      cbn [App.setInteractionState App.setSelectedImageId
           App.setSelectedTextId App.selectedTextId App.selectedImageId].
      split; [|discriminate].
      intros i E. inversion E. now apply in_map. }
    destruct (LayoutMode_eqb (App.layoutMode s) freeform);
      [|split; discriminate].
    destruct (App.scanImages _ _ _ _) as [[c m]|] eqn:Es;
      [|split; discriminate].
    destruct (scan_topmost s mx my c m Es) as [Hin _].
    split.
    { destruct (App.is_selected (App.selectedImageId s) (id c)), m;
        discriminate. }
    intros i.
    destruct (App.is_selected (App.selectedImageId s) (id c)), m;
      cbn [App.setInteractionState App.setSelectedImageId App.setImages
           App.setSelectedTextId App.selectedImageId];
      try (apply Hi);
      intros E; inversion E; now apply in_map.
  - assert (Hsame : App.selectedTextId (App.handleMouseMove mx my s)
                    = App.selectedTextId s
                    /\ App.selectedImageId (App.handleMouseMove mx my s)
                       = App.selectedImageId s).
    { unfold App.handleMouseMove.
      destruct (App.mode (App.interactionState s));
        [now split| |];
        (destruct (App.target (App.interactionState s)) as [[|]|];
           [| |now split];
         (destruct (Js.truthy (App.ist_id (App.interactionState s)));
           now split)). }
    destruct Hsame as [E1 E2]. rewrite E1, E2. now split.
  - now split.
Qed.

Lemma act_valid (measureText : string -> R -> string -> R) (a : Action)
    (s : App.State) :
  selectionValid s -> offered a s -> selectionValid (act measureText a s).
Proof.
  intros Hv Ho. destruct a; cbn [act offered] in *.
  - now apply pointer_valid.
  - destruct Hv as [Ht Hi]. split; [exact Ht|].
    intros i E. unfold App.handleImageUpload.
    cbn [App.setImages App.images]. rewrite map_app.
    apply in_or_app. left. now apply Hi.
  - destruct Hv as [Ht Hi]. unfold App.thumbnailClick.
    destruct (LayoutMode_eqb (App.layoutMode s) freeform);
      [|now split].
    split; [exact Ht|].
    cbn [App.setImages App.setSelectedImageId App.images
         App.selectedImageId].
    intros j E. inversion E. subst j. now rewrite ids_bringToFront.
  - destruct Hv as [Ht Hi]. unfold App.removeImage.
    destruct (App.is_selected (App.selectedImageId s) i) eqn:Esel.
    + split; [exact Ht|]. discriminate.
    + split; [exact Ht|].
      cbn [App.setImages App.images App.selectedImageId].
      intros j E. apply selected_survives_filter; [now apply Hi|].
      exact (is_selected_false _ _ _ Esel E).
  - destruct Hv as [Ht Hi].
    destruct (drop_perm target dragged s) as [Hp [E1 [E2 E3]]].
    unfold selectionValid. rewrite E1, E2, E3.
    split; [exact Ht|]. intros i E.
    apply (Permutation_in i (Permutation_sym (Permutation_map id Hp))).
    now apply Hi.
  - destruct Hv as [Ht Hi]. unfold App.frontButton.
    destruct (App.selectedImage s); [|now split].
    destruct (LayoutMode_eqb (App.layoutMode s) freeform); [|now split].
    split; [exact Ht|].
    cbn [App.setImages App.images App.selectedImageId].
    intros j E. rewrite ids_bringToFront. now apply Hi.
  - destruct Hv as [Ht Hi]. unfold App.backButton.
    destruct (App.selectedImage s); [|now split].
    destruct (LayoutMode_eqb (App.layoutMode s) freeform); [|now split].
    split; [exact Ht|].
    cbn [App.setImages App.images App.selectedImageId].
    intros j E. rewrite ids_sendToBack. now apply Hi.
  - exact Hv.
  - destruct Hv as [Ht Hi]. split; [|exact Hi].
    unfold App.addTextLayer.
    cbn [App.setSelectedTextId App.setTextLayers App.textLayers
         App.selectedTextId].
    intros j E. inversion E. subst j. rewrite map_app.
    apply in_or_app. right. now left.
  - destruct Hv as [Ht Hi]. unfold App.updateSelectedLayer.
    destruct (negb (Js.truthy (App.selectedTextId s))); [now split|].
    split; [|exact Hi].
    cbn [App.setTextLayers App.textLayers App.selectedTextId].
    intros j E. rewrite map_keeps; [now apply Ht|].
    intros l. destruct (App.is_selected _ (tl_id l)); [|reflexivity].
    unfold App.spread. cbn [tl_id]. now rewrite Ho.
  - split; [|discriminate].
    unfold App.selectTextLayer.
    cbn [App.setSelectedImageId App.setSelectedTextId App.textLayers
         App.selectedTextId].
    intros j E. now inversion E; subst.
  - destruct Hv as [Ht Hi]. unfold App.deleteTextLayer.
    destruct (App.is_selected (App.selectedTextId s) i) eqn:Esel.
    + split; [discriminate|exact Hi].
    + split; [|exact Hi].
      cbn [App.setTextLayers App.textLayers App.selectedTextId].
      intros j E. apply selected_survives_filter; [now apply Ht|].
      exact (is_selected_false _ _ _ Esel E).
Qed.

Lemma find_by_id {A : Type} (f : A -> string) (i : string) (l : list A) :
  In i (map f l) ->
  exists a, List.find (fun b => Js.str_eqb (f b) i) l = Some a
            /\ f a = i /\ In a l.
Proof.
  induction l as [|b l IH]; simpl; [tauto|].
  intros H. destruct (Js.str_eqb (f b) i) eqn:E.
  - exists b. apply str_eqb_eq in E. auto.
  - apply str_eqb_neq in E. destruct H as [H|H]; [congruence|].
    destruct (IH H) as [a [Ha [Hf Hin]]]. exists a. auto.
Qed.

(** X15.  The selections never dangle.  Start from a state whose selected
    text layer and selected image, if any, exist (the freshly mounted page
    is one), and let the user do anything the page offers, in any order:
    pointer events on the canvas, upload, click, removal or drop of a
    thumbnail, the front and back buttons, a change of layout mode, adding,
    editing, selecting or deleting a text layer.  Then the selected
    identifiers still name an existing text layer and an existing image, so
    with non-empty identifiers the lookups [selectedLayer] and
    [selectedImage] that feed the panels succeed and return an item of that
    identifier. *)
Theorem selection_stays_valid
    (measureText : string -> R -> string -> R) (actions : list Action)
    (s : App.State) :
  selectionValid s ->
  offeredAll measureText actions s ->
  let s' := session measureText actions s in
  selectionValid s'
  /\ (forall i, App.selectedTextId s' = Some i -> i <> ""%string ->
        exists l, App.selectedLayer s' = Some l /\ tl_id l = i
                  /\ In l (App.textLayers s'))
  /\ (forall i, App.selectedImageId s' = Some i -> i <> ""%string ->
        exists a, App.selectedImage s' = Some a /\ id a = i
                  /\ In a (App.images s')).
Proof.
  intros Hv Ho s'.
  assert (H : selectionValid s').
  { unfold s'. clear s'. revert s Hv Ho.
    induction actions as [|a rest IH]; intros s Hv Ho; [exact Hv|].
    cbn [session]. destruct Ho as [Ho1 Ho2].
    apply IH; [|exact Ho2]. now apply act_valid. }
  split; [exact H|]. destruct H as [Ht Hi]. split.
  - intros i E Hne. unfold App.selectedLayer.
    rewrite E, (truthy_nonempty _ Hne). cbn [App.is_selected].
    exact (find_by_id tl_id i _ (Ht i E)).
  - intros i E Hne. unfold App.selectedImage.
    rewrite E, (truthy_nonempty _ Hne). cbn [App.is_selected].
    exact (find_by_id id i _ (Hi i E)).
Qed.

Lemma initialState_valid : selectionValid initialState.
Proof. split; discriminate. Qed.

Lemma sampleSession_offered :
  offeredAll sampleMetrics sampleSession initialState.
Proof.
  cbn [offeredAll sampleSession offered].
  split; [exact I|]. split; [exact I|].
  split; [right; left; reflexivity|].
  split; [exact I|].
  split; [right; left; reflexivity|].
  split; [left; reflexivity|exact I].
Qed.

Lemma selection_stays_valid_witness :
  selectionValid (session sampleMetrics sampleSession initialState).
Proof.
  exact (proj1 (selection_stays_valid sampleMetrics sampleSession
                  initialState initialState_valid sampleSession_offered)).
Defined.

(** ** The selection handle *)

Lemma App_freeform_ops (s : App.State) (W H : R) :
  App.layoutMode s = freeform ->
  value (App.drawLayout s W H)
  = flat_map
      (fun im =>
         match Js.find (fun li => Js.str_eqb (src li) (url im))
                 (App.loadedGridImages s), geometry im with
         | Some li, Some r =>
             if App.is_selected (App.selectedImageId s) (id im)
             then [PlainImage li r;
                   Selection r
                     (mkRect (rx r + rw r - 10 / 2) (ry r + rh r - 10 / 2)
                        10 10)]
             else [PlainImage li r]
         | _, _ => []
         end)
      (Js.sort (fun a b => Js.or0 (zIndex a) - Js.or0 (zIndex b))
         (App.images s)).
Proof.
  intros Hm. unfold App.drawLayout. rewrite Hm.
  unfold forEach. rewrite value_forEach_from.
  rewrite concat_mapi_from_const.
  apply flat_map_ext. intros im. unfold geometry.
  destruct (Js.find _ _), (x im), (y im), (width im), (height im);
    try reflexivity.
  destruct (App.is_selected _ _); reflexivity.
Qed.

Lemma same_id_same_image (l : list ImageState) (a b : ImageState) :
  NoDup (map id l) -> In a l -> In b l -> id a = id b -> a = b.
Proof.
  induction l as [|c l IH]; [contradiction|].
  simpl. intros Hnd Ha Hb E. inversion Hnd as [|? ? Hnot Hnd']. subst.
  destruct Ha as [<- | Ha], Hb as [<- | Hb]; auto.
  - exfalso. apply Hnot. rewrite E. now apply in_map.
  - exfalso. apply Hnot. rewrite <- E. now apply in_map.
Qed.

Lemma cursor_on_handle (s : App.State) (mouseX mouseY : R)
    (a : ImageState) (r : Rect) :
  App.layoutMode s = freeform ->
  App.mode (App.interactionState s) = App.idle ->
  NoDup (map id (App.images s)) ->
  In a (App.images s) ->
  App.selectedImageId s = Some (id a) ->
  id a <> ""%string ->
  geometry a = Some r ->
  onHandle mouseX mouseY r ->
  App.cursorOnMove mouseX mouseY s = App.cursor_nwse_resize.
Proof.
  intros Hm Hidle Hnd Ha Hsel Hid Hg Hh.
  unfold App.cursorOnMove. rewrite Hidle, Hm, Hsel.
  cbn [LayoutMode_eqb App.is_selected].
  rewrite (truthy_nonempty _ Hid). unfold Js.find.
  destruct (find_by_id id (id a) (App.images s) (in_map id _ _ Ha))
    as [b [Hf [Hb Hin]]].
  rewrite Hf.
  assert (b = a) by (apply (same_id_same_image (App.images s)); auto).
  subst b.
  destruct (geometry_fields a r Hg) as [Hx [Hy [Hw Hhh]]].
  rewrite Hx, Hy, Hw, Hhh.
  destruct r as [ix iy iw ih]. cbn [rx ry rw rh] in *.
  now rewrite (proj2 (handle_test_iff mouseX mouseY ix iy iw ih) Hh).
Qed.

Lemma scan_skip (sel : option string) (mouseX mouseY : R)
    (l1 l2 : list ImageState) :
  Forall (missed sel mouseX mouseY) l1 ->
  App.scanImages sel mouseX mouseY (l1 ++ l2)
  = App.scanImages sel mouseX mouseY l2.
Proof.
  induction 1 as [|a l Ha _ IH]; [reflexivity|].
  rewrite <- app_comm_cons, scanImages_cons.
  destruct (geometry a) as [r|] eqn:Eg; [|exact IH].
  destruct (Ha r Eg) as [Hb Hh].
  destruct (App.is_selected sel (id a) && handleTest mouseX mouseY r)
    eqn:E1.
  { apply andb_true_iff in E1. destruct E1 as [E1 E2].
    apply handleTest_iff in E2. tauto. }
  destruct (bodyTest mouseX mouseY r) eqn:E2; [|exact IH].
  apply bodyTest_iff in E2. tauto.
Qed.

Lemma sorted_before {A : Type} (P : A -> A -> Prop) (l1 l2 : list A)
    (a : A) :
  StronglySorted P (l1 ++ a :: l2) -> Forall (fun b => P b a) l1.
Proof.
  induction l1 as [|b l1 IH]; simpl; intros H; [constructor|].
  inversion H as [|? ? Hs Hf]. subst. constructor.
  - rewrite Forall_forall in Hf. apply Hf. apply in_or_app. right. now left.
  - now apply IH.
Qed.

(** X16.  The drawn selection handle is live.  In free placement with
    distinct image identifiers, whenever the page paints a selection
    overlay, it belongs to the selected image, its outline is that image's
    rectangle, and every point of the painted 10-pixel handle lies in the
    24-pixel square in which a click resizes.  Over the handle the idle
    cursor is the resize cursor, and a pointer-down there starts resizing
    that image, from any point of the handle, provided no text layer is hit
    and every other image whose body contains the point lies strictly
    below. *)
Theorem selection_handle_is_live
    (measureText : string -> R -> string -> R) (s : App.State)
    (W H mx my : R) (outline handle : Rect) :
  App.layoutMode s = freeform ->
  App.mode (App.interactionState s) = App.idle ->
  NoDup (map id (App.images s)) ->
  In (Selection outline handle) (value (App.drawLayout s W H)) ->
  inside mx my handle ->
  exists a,
    In a (App.images s) /\ App.selectedImageId s = Some (id a)
    /\ geometry a = Some outline
    /\ onHandle mx my outline
    /\ (id a <> ""%string ->
        App.cursorOnMove mx my s = App.cursor_nwse_resize)
    /\ (App.hitTextLayer measureText (App.textLayers s) mx my = None ->
        (forall other ro,
           In other (App.images s) -> id other <> id a ->
           geometry other = Some ro -> onBody mx my ro ->
           Js.or0 (zIndex other) < Js.or0 (zIndex a)) ->
        App.interactionState (App.handleMouseDown measureText mx my s)
        = App.mkInteraction App.resizing_br (Some App.target_image)
            (Some (id a)) (Some (mx - rx outline)) (Some (my - ry outline))).
Proof.
  intros Hm Hidle Hnd Hsel Hin.
  rewrite (App_freeform_ops s W H Hm) in Hsel.
  apply in_flat_map in Hsel as [a [Ha Hop]].
  apply (Permutation_in _ (sort_perm_any _ _)) in Ha.
  destruct (Js.find _ _) as [li|]; [|contradiction].
  destruct (geometry a) as [r|] eqn:Hg; [|contradiction].
  destruct (App.is_selected (App.selectedImageId s) (id a)) eqn:Es.
  2:{ destruct Hop as [Hop | []]. discriminate. }
  destruct Hop as [Hop | [Hop | []]]; [discriminate|].
  inversion Hop. subst outline handle. clear Hop.
  apply is_selected_true in Es.
  assert (Hh : onHandle mx my r).
  { unfold inside in Hin. unfold onHandle. cbn [rx ry rw rh] in Hin. lra. }
  exists a. split; [exact Ha|]. split; [exact Es|]. split; [exact Hg|].
  split; [exact Hh|]. split.
  { intros Hid. now apply (cursor_on_handle s mx my a r). }
  intros Hhit Hbelow.
  rewrite (mouse_down_freeform measureText s mx my Hm Hhit).
  destruct (descending_sort (App.images s)) as [Hp Hs].
  set (sorted := Js.sort _ (App.images s)) in *.
  assert (Hsa : In a sorted)
    by now apply (Permutation_in _ (Permutation_sym Hp)).
  apply in_split in Hsa as [l1 [l2 E]].
  rewrite E in Hs |- *.
  assert (Hmiss : Forall (missed (App.selectedImageId s) mx my) l1).
  { apply sorted_before in Hs. rewrite Forall_forall in Hs |- *.
    intros b Hb ro Hgo.
    assert (Hbin : In b (App.images s)).
    { apply (Permutation_in _ Hp). rewrite E. apply in_or_app. now left. }
    assert (Hne : id b <> id a).
    { intros Eid.
      assert (b = a) by (apply (same_id_same_image (App.images s)); auto).
      subst b.
      assert (Hnds : NoDup sorted).
      { apply (Permutation_NoDup (Permutation_sym Hp)).
        now apply NoDup_map_inv with (f := id). }
      rewrite E in Hnds. apply NoDup_remove_2 in Hnds.
      apply Hnds. apply in_or_app. now left. }
    split.
    - intros Hbody. specialize (Hbelow b ro Hbin Hne Hgo Hbody).
      specialize (Hs b Hb). simpl in Hs. lra.
    - intros [Hbs _]. apply is_selected_true in Hbs. congruence. }
  rewrite (scan_skip _ _ _ _ _ Hmiss), scanImages_cons, Hg, Es.
  rewrite is_selected_self, (proj2 (handleTest_iff _ _ _) Hh).
  cbn [andb].
  destruct (geometry_fields a r Hg) as [Hx [Hy _]].
  rewrite Hx, Hy. reflexivity.
Qed.

Lemma freeformPairB_overlay :
  In (Selection (mkRect 80 80 300 200)
        (mkRect (80 + 300 - 10 / 2) (80 + 200 - 10 / 2) 10 10))
    (value (App.drawLayout freeformPairB 800 600)).
Proof.
  rewrite App_freeform_ops by reflexivity.
  apply in_flat_map. exists imgB. split.
  - apply (Permutation_in _ (Permutation_sym (sort_perm_any _ _))).
    right. left. reflexivity.
  - right. left. reflexivity.
Qed.

Lemma selection_handle_is_live_witness :
  exists a,
    In a (App.images freeformPairB)
    /\ App.selectedImageId freeformPairB = Some (id a)
    /\ geometry a = Some (mkRect 80 80 300 200)
    /\ onHandle 382 283 (mkRect 80 80 300 200)
    /\ (id a <> ""%string ->
        App.cursorOnMove 382 283 freeformPairB = App.cursor_nwse_resize)
    /\ (App.hitTextLayer sampleMetrics (App.textLayers freeformPairB)
          382 283 = None ->
        (forall other ro,
           In other (App.images freeformPairB) -> id other <> id a ->
           geometry other = Some ro -> onBody 382 283 ro ->
           Js.or0 (zIndex other) < Js.or0 (zIndex a)) ->
        App.interactionState
          (App.handleMouseDown sampleMetrics 382 283 freeformPairB)
        = App.mkInteraction App.resizing_br (Some App.target_image)
            (Some (id a)) (Some (382 - rx (mkRect 80 80 300 200)))
            (Some (283 - ry (mkRect 80 80 300 200)))).
Proof.
  apply (selection_handle_is_live sampleMetrics freeformPairB 800 600
           382 283 (mkRect 80 80 300 200)
           (mkRect (80 + 300 - 10 / 2) (80 + 200 - 10 / 2) 10 10)).
  - reflexivity.
  - reflexivity.
  - repeat constructor; simpl; intuition discriminate.
  - exact freeformPairB_overlay.
  - unfold inside. cbn [rx ry rw rh]. lra.
Defined.

(** ** A whole drag *)

Lemma run_app (measureText : string -> R -> string -> R)
    (l1 l2 : list App.Event) (s : App.State) :
  run measureText (l1 ++ l2) s = run measureText l2 (run measureText l1 s).
Proof. unfold run. apply fold_left_app. Qed.

Lemma idle_moves (measureText : string -> R -> string -> R)
    (pts : list (R * R)) (t : App.State) :
  App.mode (App.interactionState t) = App.idle ->
  run measureText (moves pts) t = t.
Proof.
  intros Hidle. induction pts as [|p pts IH]; [reflexivity|].
  cbn [moves map run fold_left App.step].
  unfold App.handleMouseMove at 1. rewrite Hidle. exact IH.
Qed.

Lemma drag_moves (measureText : string -> R -> string -> R)
    (pts : list (R * R)) (px py : R) (t : App.State) (i : string)
    (ox oy : R) :
  App.interactionState t
  = App.mkInteraction App.dragging (Some App.target_image) (Some i)
      (Some ox) (Some oy) ->
  i <> ""%string ->
  run measureText (moves pts ++ [App.MouseMove px py]) t
  = App.setImages
      (fun _ =>
         map (fun img =>
                if Js.str_eqb (id img) i
                then App.with_xy img (px - ox) (py - oy)
                else img) (App.images t)) t.
Proof.
  intros E Hi. revert t E.
  induction pts as [|p pts IH]; intros t E.
  - cbn [moves map app run fold_left App.step].
    now apply image_drag_move.
  - cbn [moves map app run fold_left App.step].
    rewrite (image_drag_move (fst p) (snd p) t i ox oy E Hi).
    fold (moves pts).
    change (fold_left (fun st e => App.step measureText e st)
              (moves pts ++ [App.MouseMove px py]) ?u)
      with (run measureText (moves pts ++ [App.MouseMove px py]) u).
    rewrite IH by exact E.
    unfold App.setImages.
    cbn [App.images App.globalZoom App.gap App.layoutMode App.imageFit
         App.mainZoom App.bgBlur App.bgOpacity App.background App.watermark
         App.textLayers App.selectedTextId App.interactionState
         App.selectedImageId App.loadedGridImages App.loadedWatermark
         App.loadedBackgroundImage].
    f_equal. rewrite map_map. apply map_ext. intros a.
    destruct (Js.str_eqb (id a) i) eqn:Ea; cbn [App.with_xy id];
      now rewrite Ea.
Qed.

Lemma down_drag_facts (measureText : string -> R -> string -> R)
    (s : App.State) (mx my : R) :
  App.layoutMode s = freeform ->
  App.hitTextLayer measureText (App.textLayers s) mx my = None ->
  App.mode (App.interactionState
              (App.handleMouseDown measureText mx my s)) = App.dragging ->
  exists c r,
    In c (App.images s) /\ geometry c = Some r /\ onBody mx my r
    /\ (forall other ro,
          In other (App.images s) -> geometry other = Some ro ->
          onBody mx my ro -> notAbove other c)
    /\ App.handleMouseDown measureText mx my s
       = App.setInteractionState
           (App.mkInteraction App.dragging (Some App.target_image)
              (Some (id c)) (Some (mx - rx r)) (Some (my - ry r)))
           (App.setImages (App.bringToFront (id c))
              (App.setSelectedImageId (Some (id c))
                 (App.setSelectedTextId None s))).
Proof.
  intros Hm Hhit Hmode.
  rewrite (mouse_down_freeform measureText s mx my Hm Hhit) in Hmode |- *.
  destruct (App.scanImages (App.selectedImageId s) mx my _)
    as [[c m]|] eqn:Es; [|discriminate].
  assert (m = App.dragging) by exact Hmode. subst m.
  destruct (scan_topmost s mx my c _ Es) as [Hin Htop].
  destruct (scanImages_spec _ _ _ _ _ _ Es)
    as [l1 [l2 [r [_ [Hg [_ Hc]]]]]].
  destruct Hc as [[Hc _] | [_ Hb]]; [discriminate|].
  destruct (geometry_fields c r Hg) as [Hx [Hy _]].
  exists c, r. split; [exact Hin|]. split; [exact Hg|]. split; [exact Hb|].
  split.
  { intros other ro Ho Hgo Hbo. apply or0_notAbove.
    exact (Htop other ro Ho Hgo Hbo). }
  rewrite Hx, Hy. cbn [option_map].
  destruct (App.is_selected (App.selectedImageId s) (id c)) eqn:Esel;
    [|reflexivity].
  apply is_selected_true in Esel.
  unfold App.setInteractionState, App.setImages, App.setSelectedImageId,
    App.setSelectedTextId.
  cbn [App.images App.globalZoom App.gap App.layoutMode App.imageFit
       App.mainZoom App.bgBlur App.bgOpacity App.background App.watermark
       App.textLayers App.selectedTextId App.interactionState
       App.selectedImageId App.loadedGridImages App.loadedWatermark
       App.loadedBackgroundImage].
  now rewrite Esel.
Qed.

(** X17.  A whole drag of an image.  In free placement, let a pointer-down
    at [(mx, my)] grab an image (no text layer hit), let the pointer then
    wander through any points, reach [(px, py)], be released, and wander on.
    Each move stands for one whose animation frame runs.  The grabbed image
    is the topmost one under the pointer.  The outcome depends on the press
    and the last such point alone: every image of the grabbed identifier
    (which is not empty) ends with the stored position of the grabbed image
    moved by [(px - mx, py - my)], its size as before, and one new stored
    [zIndex], which is positive, is 1 or a [zIndex] stored before plus 1,
    and lies above every [zIndex] stored before; the image is selected;
    every other image and every text layer is as before the press; the
    interaction is idle again, and the moves after the release change
    nothing. *)
Theorem image_drag_session
    (measureText : string -> R -> string -> R) (s : App.State)
    (mx my px py : R) (pts later : list (R * R)) :
  App.layoutMode s = freeform ->
  App.hitTextLayer measureText (App.textLayers s) mx my = None ->
  App.mode (App.interactionState
              (App.handleMouseDown measureText mx my s)) = App.dragging ->
  exists img r zf,
    In img (App.images s) /\ geometry img = Some r /\ onBody mx my r
    /\ (forall other ro,
          In other (App.images s) -> geometry other = Some ro ->
          onBody mx my ro -> notAbove other img)
    /\ 0 < zf
    /\ (zf = 1
        \/ exists t z, In t (App.images s) /\ zIndex t = Some z
                       /\ zf = z + 1)
    /\ (forall b z, In b (App.images s) -> zIndex b = Some z -> z < zf)
    /\ (id img <> ""%string ->
        let final :=
          run measureText
            (App.MouseDown mx my
             :: moves pts ++ App.MouseMove px py :: App.MouseUp
             :: moves later) s in
        App.images final
        = map (fun a =>
                 if Js.str_eqb (id a) (id img)
                 then mkImageState (id a) (url a)
                        (Some (rx r + (px - mx))) (Some (ry r + (py - my)))
                        (width a) (height a) (Some zf)
                 else a)
            (App.images s)
        /\ App.textLayers final = App.textLayers s
        /\ App.interactionState final = App.idle_state
        /\ App.selectedImageId final = Some (id img)
        /\ App.selectedTextId final = None).
Proof.
  intros Hm Hhit Hmode.
  destruct (down_drag_facts measureText s mx my Hm Hhit Hmode)
    as [c [r [Hin [Hg [Hb [Htop E]]]]]].
  destruct (bringToFront_stored (id c) (App.images s))
    as [zf [Ebf [Hpos [Hch Hbd]]]].
  exists c, r, zf.
  split; [exact Hin|]. split; [exact Hg|]. split; [exact Hb|].
  split; [exact Htop|]. split; [exact Hpos|]. split; [exact Hch|].
  split; [exact Hbd|].
  intros Hid final. unfold final.
  replace (App.MouseDown mx my
           :: moves pts ++ App.MouseMove px py :: App.MouseUp :: moves later)
    with ([App.MouseDown mx my]
          ++ (moves pts ++ [App.MouseMove px py])
          ++ [App.MouseUp] ++ moves later)
    by (rewrite <- app_assoc; reflexivity).
  rewrite (run_app measureText [App.MouseDown mx my]).
  rewrite (run_app measureText (moves pts ++ [App.MouseMove px py])).
  rewrite (run_app measureText [App.MouseUp]).
  change (run measureText [App.MouseDown mx my] s)
    with (App.handleMouseDown measureText mx my s).
  rewrite E.
  rewrite (drag_moves measureText pts px py _ (id c) (mx - rx r)
             (my - ry r)) by (reflexivity || exact Hid).
  change (run measureText [App.MouseUp] ?u) with (App.handleMouseUp u).
  rewrite idle_moves by reflexivity.
  cbn [App.handleMouseUp App.setInteractionState App.setImages
       App.setSelectedImageId App.setSelectedTextId App.images
       App.textLayers App.interactionState App.selectedImageId
       App.selectedTextId].
  split; [|now repeat split].
  rewrite Ebf, map_map.
  apply map_ext. intros a.
  replace (px - (mx - rx r)) with (rx r + (px - mx)) by lra.
  replace (py - (my - ry r)) with (ry r + (py - my)) by lra.
  destruct (Js.str_eqb (id a) (id c)) eqn:Eid.
  - cbn [id]. rewrite Eid. reflexivity.
  - rewrite Eid. reflexivity.
Qed.

Lemma image_drag_session_witness :
  let final :=
    run sampleMetrics
      (App.MouseDown 100 100
       :: moves [(110, 90); (500, 20)] ++ App.MouseMove 130 120
       :: App.MouseUp :: moves [(0, 0)]) freeformPair in
  App.images final
  = [imgA;
     mkImageState "b" "blob:b" (Some 110) (Some 100) (Some 300) (Some 200)
       (Some 6)]
  /\ App.textLayers final = []
  /\ App.interactionState final = App.idle_state
  /\ App.selectedImageId final = Some "b"%string
  /\ App.selectedTextId final = None.
Proof.
  intros final.
  destruct (image_drag_session sampleMetrics freeformPair 100 100 130 120
              [(110, 90); (500, 20)] [(0, 0)] eq_refl eq_refl
              freeformPair_down)
    as [img [r [zf [Hin [Hg [_ [Htop [_ [Hch [Hbd Hfin]]]]]]]]]].
  destruct (freeformPair_grab img r zf Hin Hg Htop Hch Hbd)
    as [-> [-> ->]].
  destruct (Hfin ltac:(discriminate)) as [Hm [Ht [Hi [Hs Hn]]]].
  split; [unfold final; rewrite Hm; exact freeformPair_dragged|].
  split; [exact Ht|]. split; [exact Hi|]. split; [exact Hs|exact Hn].
Defined.

(** The prompt test of the page reads the copy of the text layers that the
    paint callback holds.  On a scene of one text layer, no image and no
    watermark, while that copy is empty the page paints the upload prompt
    and no text, and the export paints the layer. *)
Lemma prompt_shown_while_text_layers_debounce :
  App.drawCanvas sampleMetrics gridWithText [] 800 600
  = [ClearRect (mkRect 0 0 800 600);
     FillBackground "#F3F4F6" (mkRect 0 0 800 600);
     Prompt (800 / 2) (600 / 2)]
  /\ List.length
       (textsOf
          (Worker.drawExportCanvas sampleMetrics 2000 1500 800 600
             (App.workerState gridWithText)
             (mkWorkerBitmaps [] None None))) = 1%nat.
Proof.
  split; [reflexivity|].
  unfold Worker.drawExportCanvas.
  rewrite Worker_layout_empty by (reflexivity || discriminate).
  reflexivity.
Qed.

(** ** The export button, end to end *)

(** X18.  What the export button produces.  [handleExport] always posts a
    canvas of 2000 by 1500 pixels with the size of the page canvas as
    source dimensions, and the worker paints on it.  Take settled pictures,
    bitmaps decoded from the same files as the page's pictures, font
    metrics linear in the font size, and a page that does not show its
    upload prompt in place of text layers (with no image and no watermark,
    the debounced copy of the layers that the paint callback holds is
    empty only if the layers are).  Then the painted operations correspond
    one by one to the page's composition under the factors [2000 / W] and
    [1500 / H], beginning with the clearing of the whole 2000 by 1500
    canvas.  The two factors agree exactly when the page canvas is 4:3, and
    then the download is the page composition enlarged uniformly. *)
Theorem export_button_output
    (measureText : string -> R -> string -> R) (s : App.State)
    (debounced : list TextLayer) (W H : R)
    (imageBitmaps : list Bitmap)
    (watermarkBitmap backgroundBitmap : option Bitmap) :
  0 < W -> 0 < H ->
  linearMetrics measureText -> settled s ->
  imageBitmaps = App.loadedGridImages s ->
  match App.watermark s with
  | Some _ => watermarkBitmap = App.loadedWatermark s
  | None => App.loadedWatermark s = None
  end ->
  match App.background s with
  | BgImage (Some _) => backgroundBitmap = App.loadedBackgroundImage s
  | _ => App.loadedBackgroundImage s = None
  end ->
  (App.images s = [] -> App.watermark s = None -> debounced = [] ->
   App.textLayers s = []) ->
  let ops :=
    Worker.onmessage measureText
      (App.handleExport s W H imageBitmaps watermarkBitmap
         backgroundBitmap) in
  let page :=
    filter composed (App.drawCanvas measureText s debounced W H) in
  Forall2 (corresponds (2000 / W) (1500 / H)) page ops
  /\ hd_error ops = Some (ClearRect (mkRect 0 0 2000 1500))
  /\ (2000 / W = 1500 / H <-> 3 * W = 4 * H)
  /\ (3 * W = 4 * H -> ops = map (scaleOp (2000 / W) (2000 / W)) page).
Proof.
  intros HW HH Hlin Hset Hgrid Hwm Hbg Hprompt ops page.
  set (bm := bitmaps (App.handleExport s W H imageBitmaps watermarkBitmap
                        backgroundBitmap)).
  assert (E1 : b_grid bm = App.loadedGridImages s) by exact Hgrid.
  assert (E2 : b_watermark bm = App.loadedWatermark s).
  { unfold bm. cbn [App.handleExport bitmaps b_watermark].
    destruct (App.watermark s); congruence. }
  assert (E3 : b_background bm = App.loadedBackgroundImage s).
  { unfold bm. cbn [App.handleExport bitmaps b_background].
    destruct (App.background s) as [v | [i|]]; congruence. }
  assert (Hnull : App.background s = BgImage None ->
                  App.loadedBackgroundImage s = None).
  { intros Eb. now rewrite Eb in Hbg. }
  assert (Hs : 2000 / W <> 0).
  { apply Rgt_not_eq. apply Rdiv_lt_0_compat; lra. }
  pose proof (canvas_corresponds measureText s debounced W H (2000 / W)
                (1500 / H) bm Hs Hlin Hset E1 E2 E3 Hnull Hprompt) as HC.
  replace (W * (2000 / W)) with 2000 in HC by (field; lra).
  replace (H * (1500 / H)) with 1500 in HC by (field; lra).
  assert (HF : Forall2 (corresponds (2000 / W) (1500 / H)) page ops)
    by exact HC.
  assert (Hiff : 2000 / W = 1500 / H <-> 3 * W = 4 * H).
  { split; intros E.
    - assert (E' : 2000 / W * (W * H) = 1500 / H * (W * H))
        by now rewrite E.
      field_simplify in E'; lra.
    - assert (EW : W = 4 * H / 3) by lra.
      rewrite EW. field. lra. }
  split; [exact HF|]. split; [reflexivity|]. split; [exact Hiff|].
  intros E. apply Hiff in E.
  rewrite E at 2. apply Forall2_corresponds_uniform; [exact E|exact HF].
Qed.

Lemma export_button_output_witness :
  Worker.onmessage sampleMetrics
    (App.handleExport twoImagesAndText 800 600 [picA; picB] None None)
  = map (scaleOp (2000 / 800) (2000 / 800))
      (filter composed (App.drawCanvas sampleMetrics twoImagesAndText
                          [] 800 600)).
Proof.
  refine (proj2 (proj2 (proj2
            (export_button_output sampleMetrics twoImagesAndText [] 800 600
               [picA; picB] None None _ _ sampleMetrics_linear
               twoImagesAndText_settled _ _ _ _))) _);
    try reflexivity; try lra; discriminate.
Defined.

(** ** Stacking order and painting order *)

Lemma sort_max_last {A : Type} (key : A -> R) (l : list A) (a : A) :
  NoDup l -> In a l ->
  (forall b, In b l -> b <> a -> key b < key a) ->
  exists l1, Js.sort (fun u v => key u - key v) l = l1 ++ [a].
Proof.
  intros Hnd Ha Hmax.
  pose proof (sort_perm key l) as Hp.
  pose proof (sort_sorted key l) as Hs.
  set (sorted := Js.sort (fun u v => key u - key v) l) in *.
  assert (Hsa : In a sorted)
    by now apply (Permutation_in _ (Permutation_sym Hp)).
  apply in_split in Hsa as [l1 [l2 E]].
  exists l1. rewrite E. f_equal. f_equal.
  destruct l2 as [|b l2]; [reflexivity|]. exfalso.
  rewrite E in Hs. pose proof (sorted_after _ _ _ _ Hs) as Hf.
  inversion Hf as [|? ? Hab _]. subst.
  assert (Hnds : NoDup sorted)
    by now apply (Permutation_NoDup (Permutation_sym Hp)).
  rewrite E in Hnds. apply NoDup_remove_2 in Hnds.
  assert (Hb : In b l).
  { apply (Permutation_in _ Hp). rewrite E. apply in_or_app.
    right. right. now left. }
  assert (Hne : b <> a).
  { intros ->. apply Hnds. apply in_or_app. right. now left. }
  specialize (Hmax b Hb Hne). lra.
Qed.

Lemma sort_min_first {A : Type} (key : A -> R) (l : list A) (a : A) :
  NoDup l -> In a l ->
  (forall b, In b l -> b <> a -> key a < key b) ->
  exists l2, Js.sort (fun u v => key u - key v) l = a :: l2.
Proof.
  intros Hnd Ha Hmin.
  pose proof (sort_perm key l) as Hp.
  pose proof (sort_sorted key l) as Hs.
  set (sorted := Js.sort (fun u v => key u - key v) l) in *.
  assert (Hsa : In a sorted)
    by now apply (Permutation_in _ (Permutation_sym Hp)).
  apply in_split in Hsa as [l1 [l2 E]].
  exists l2. rewrite E.
  destruct l1 as [|b l1]; [reflexivity|]. exfalso.
  rewrite E in Hs. pose proof (sorted_before _ _ _ _ Hs) as Hf.
  inversion Hf as [|? ? Hba _]. subst.
  assert (Hnds : NoDup sorted)
    by now apply (Permutation_NoDup (Permutation_sym Hp)).
  rewrite E in Hnds. apply NoDup_remove_2 in Hnds.
  assert (Hb : In b l).
  { apply (Permutation_in _ Hp). rewrite E. now left. }
  assert (Hne : b <> a).
  { intros ->. apply Hnds. now left. }
  specialize (Hmin b Hb Hne). simpl in Hba. lra.
Qed.

Lemma App_freeform_paint (s : App.State) (W H : R) :
  App.layoutMode s = freeform ->
  filter composed (value (App.drawLayout s W H))
  = flat_map (freePaint (App.loadedGridImages s))
      (Js.sort (fun u v => Js.or0 (zIndex u) - Js.or0 (zIndex v))
         (App.images s)).
Proof. exact (App_freeform_value s W H). Qed.

Lemma picture_of_image (s : App.State) (a : ImageState) (r : Rect) :
  settled s -> In a (App.images s) -> geometry a = Some r ->
  exists pic,
    In pic (App.loadedGridImages s) /\ src pic = url a
    /\ forall z,
         freePaint (App.loadedGridImages s) (App.with_zIndex a z)
         = [PlainImage pic r].
Proof.
  intros [Hsrc _] Ha Hg.
  assert (Hu : In (url a) (map src (App.loadedGridImages s))).
  { rewrite Hsrc. now apply in_map. }
  destruct (find_by_id src (url a) _ Hu) as [pic [Hf [Hp Hin]]].
  exists pic. split; [exact Hin|]. split; [exact Hp|].
  intros z. unfold freePaint.
  change (url (App.with_zIndex a z)) with (url a).
  change (geometry (App.with_zIndex a z)) with (geometry a).
  unfold Js.find. now rewrite Hf, Hg.
Qed.

(** X19.  Stacking order is painting order.  In free placement with settled
    pictures, bringing an image with complete geometry to the front makes
    the page paint it last, over every other image, at its unchanged
    rectangle and from its own picture; sending it to the back makes the
    page paint it first, under every other image. *)
Theorem raised_image_is_painted_on_top (s : App.State) (W H : R)
    (a : ImageState) (r : Rect) :
  App.layoutMode s = freeform -> settled s ->
  In a (App.images s) -> geometry a = Some r ->
  exists pic,
    In pic (App.loadedGridImages s) /\ src pic = url a
    /\ (exists below,
          filter composed
            (value (App.drawLayout
                      (App.setImages (App.bringToFront (id a)) s) W H))
          = below ++ [PlainImage pic r])
    /\ (exists above,
          filter composed
            (value (App.drawLayout
                      (App.setImages (App.sendToBack (id a)) s) W H))
          = PlainImage pic r :: above).
Proof.
  intros Hm Hset Ha Hg.
  pose proof Hset as [_ [Hnd _]].
  assert (Eself : Js.str_eqb (id a) (id a) = true) by now apply str_eqb_eq.
  set (zf := Js.Math_max 0 (map (fun i => Js.or0 (zIndex i)) (App.images s))
             + 1).
  set (zb := Js.Math_min 0 (map (fun i => Js.or0 (zIndex i)) (App.images s))
             - 1).
  destruct (picture_of_image s a r Hset Ha Hg) as [pic [Hin [Hp Hf]]].
  exists pic. split; [exact Hin|]. split; [exact Hp|]. split.
  - assert (Hnd' : NoDup (map id (App.bringToFront (id a) (App.images s))))
      by now rewrite ids_bringToFront.
    assert (Ha' : In (App.with_zIndex a zf)
                    (App.bringToFront (id a) (App.images s))).
    { unfold App.bringToFront. apply in_map_iff. exists a.
      split; [|exact Ha]. now rewrite Eself. }
    destruct (sort_max_last (fun i => Js.or0 (zIndex i))
                (App.bringToFront (id a) (App.images s))
                (App.with_zIndex a zf)) as [l1 E].
    + now apply NoDup_map_inv with (f := id).
    + exact Ha'.
    + intros b Hb Hne. cbn [App.with_zIndex zIndex Js.or0].
      apply below_front. apply (bringToFront_others _ (id a)); [exact Hb|].
      intros Eid. apply Hne.
      now apply (same_id_same_image
                   (App.bringToFront (id a) (App.images s))).
    + rewrite (App_freeform_paint
                 (App.setImages (App.bringToFront (id a)) s) W H Hm).
      cbn [App.setImages App.images App.loadedGridImages].
      rewrite E, flat_map_app. cbn [flat_map]. rewrite Hf, app_nil_r.
      eexists. reflexivity.
  - assert (Hnd' : NoDup (map id (App.sendToBack (id a) (App.images s))))
      by now rewrite ids_sendToBack.
    assert (Ha' : In (App.with_zIndex a zb)
                    (App.sendToBack (id a) (App.images s))).
    { unfold App.sendToBack. apply in_map_iff. exists a.
      split; [|exact Ha]. now rewrite Eself. }
    destruct (sort_min_first (fun i => Js.or0 (zIndex i))
                (App.sendToBack (id a) (App.images s))
                (App.with_zIndex a zb)) as [l2 E].
    + now apply NoDup_map_inv with (f := id).
    + exact Ha'.
    + intros b Hb Hne. cbn [App.with_zIndex zIndex Js.or0].
      apply above_back. apply (sendToBack_others _ (id a)); [exact Hb|].
      intros Eid. apply Hne.
      now apply (same_id_same_image
                   (App.sendToBack (id a) (App.images s))).
    + rewrite (App_freeform_paint
                 (App.setImages (App.sendToBack (id a)) s) W H Hm).
      cbn [App.setImages App.images App.loadedGridImages].
      rewrite E. cbn [flat_map]. rewrite Hf. eexists. reflexivity.
Qed.

Lemma raised_image_is_painted_on_top_witness :
  exists pic,
    In pic (App.loadedGridImages freeformPair) /\ src pic = url imgA
    /\ (exists below,
          filter composed
            (value (App.drawLayout
                      (App.setImages (App.bringToFront (id imgA))
                         freeformPair) 800 600))
          = below ++ [PlainImage pic (mkRect 50 50 300 200)])
    /\ (exists above,
          filter composed
            (value (App.drawLayout
                      (App.setImages (App.sendToBack (id imgA))
                         freeformPair) 800 600))
          = PlainImage pic (mkRect 50 50 300 200) :: above).
Proof.
  apply (raised_image_is_painted_on_top freeformPair 800 600 imgA
           (mkRect 50 50 300 200)).
  - reflexivity.
  - exact freeformPair_settled.
  - left. reflexivity.
  - reflexivity.
Defined.

(** ** The painted box of a text layer is where it can be grabbed *)

Lemma rotate_back (a dx dy : R) :
  (dx * cos (- a) - dy * sin (- a)) * cos a
  - (dx * sin (- a) + dy * cos (- a)) * sin a = dx
  /\ (dx * cos (- a) - dy * sin (- a)) * sin a
     + (dx * sin (- a) + dy * cos (- a)) * cos a = dy.
Proof.
  rewrite cos_neg, sin_neg.
  pose proof (sin2_cos2 a) as T. unfold Rsqr in T.
  split.
  - replace ((dx * cos a - dy * - sin a) * cos a
             - (dx * - sin a + dy * cos a) * sin a)
      with (dx * (sin a * sin a + cos a * cos a)) by ring.
    rewrite T. ring.
  - replace ((dx * cos a - dy * - sin a) * sin a
             + (dx * - sin a + dy * cos a) * cos a)
      with (dy * (sin a * sin a + cos a * cos a)) by ring.
    rewrite T. ring.
Qed.

Lemma rotate_forth (a lx ly : R) :
  (lx * cos a - ly * sin a) * cos (- a)
  - (lx * sin a + ly * cos a) * sin (- a) = lx
  /\ (lx * cos a - ly * sin a) * sin (- a)
     + (lx * sin a + ly * cos a) * cos (- a) = ly.
Proof.
  rewrite cos_neg, sin_neg.
  pose proof (sin2_cos2 a) as T. unfold Rsqr in T.
  split.
  - replace ((lx * cos a - ly * sin a) * cos a
             - (lx * sin a + ly * cos a) * - sin a)
      with (lx * (sin a * sin a + cos a * cos a)) by ring.
    rewrite T. ring.
  - replace ((lx * cos a - ly * sin a) * - sin a
             + (lx * sin a + ly * cos a) * cos a)
      with (ly * (sin a * sin a + cos a * cos a)) by ring.
    rewrite T. ring.
Qed.

(** X20.  A text layer can be grabbed exactly where its box is painted.
    For a layer with a visible background, the page paints the box
    [fillRect(-rectW / 2, -rectH / 2, rectW, rectH)] under the layer's
    translation and rotation, with the layer's background opacity and
    colour, and the pointer-down hit test accepts a canvas point exactly
    when it is the image, under that same transform, of a point strictly
    inside the painted box, whatever the rotation. *)
Theorem text_backdrop_is_hit_region
    (measureText : string -> R -> string -> R) (layer : TextLayer) :
  0 < backgroundOpacity layer ->
  exists td box,
    App.drawTextLayer measureText layer = Text td
    /\ td_box td
       = Some (backgroundOpacity layer, backgroundColor layer, box)
    /\ forall px py,
         App.hitsText measureText layer px py = true
         <-> exists lx ly, onBody lx ly box /\ toCanvas td lx ly = (px, py).
Proof.
  intros Hop. unfold App.drawTextLayer.
  rewrite (proj2 (gtb_true (backgroundOpacity layer) 0) Hop).
  eexists. eexists. split; [reflexivity|]. split; [reflexivity|].
  intros px py. rewrite hitsText_iff.
  unfold onBody, toCanvas. cbn [td_x td_y td_angle rx ry rw rh].
  set (a := rotation layer * PI / 180).
  set (w := measureText (text layer) (fontSize layer) (fontFamily layer)).
  split.
  - intros [Hu Hv]. apply Rabs_def2 in Hu. apply Rabs_def2 in Hv.
    exists ((px - tl_x layer) * cos (- a) - (py - tl_y layer) * sin (- a)),
           ((px - tl_x layer) * sin (- a) + (py - tl_y layer) * cos (- a)).
    split; [lra|].
    destruct (rotate_back a (px - tl_x layer) (py - tl_y layer)) as [E1 E2].
    rewrite E1, E2. f_equal; ring.
  - intros [lx [ly [[Hx Hy] E]]]. inversion E as [[Ex Ey]]. clear E.
    destruct (rotate_forth a lx ly) as [E1 E2].
    replace (tl_x layer + (lx * cos a - ly * sin a) - tl_x layer)
      with (lx * cos a - ly * sin a) by ring.
    replace (tl_y layer + (lx * sin a + ly * cos a) - tl_y layer)
      with (lx * sin a + ly * cos a) by ring.
    rewrite E1, E2. split; apply Rabs_def1; lra.
Qed.

Lemma text_backdrop_is_hit_region_witness :
  exists td box,
    App.drawTextLayer sampleMetrics layerHi = Text td
    /\ td_box td
       = Some (backgroundOpacity layerHi, backgroundColor layerHi, box)
    /\ forall px py,
         App.hitsText sampleMetrics layerHi px py = true
         <-> exists lx ly, onBody lx ly box /\ toCanvas td lx ly = (px, py).
Proof.
  apply (text_backdrop_is_hit_region sampleMetrics layerHi).
  unfold layerHi, sampleLayer. cbn [backgroundOpacity]. lra.
Defined.

(** ** The layout never divides by zero when it has a picture *)

Lemma safe_bind {A B : Type} (P : R -> Prop) (m : Div A) (f : A -> Div B) :
  Forall P (divisors m) -> Forall P (divisors (f (value m))) ->
  Forall P (divisors (bind m f)).
Proof.
  intros H1 H2. rewrite divisors_bind. apply Forall_app. now split.
Qed.

Lemma safe_forEach {A B : Type} (P : R -> Prop)
    (body : A -> nat -> Div (list B)) (l : list A) :
  (forall a i, Forall P (divisors (body a i))) ->
  Forall P (divisors (forEach l body)).
Proof.
  intros H. unfold forEach. rewrite divisors_forEach_from.
  generalize 0%nat. induction l as [|a l IH]; intros k; simpl.
  - constructor.
  - apply Forall_app. split; [apply H | apply IH].
Qed.

Lemma safe_divide (P : R -> Prop) (a b : R) :
  P b -> Forall P (divisors (divide a b)).
Proof. intros H. now repeat constructor. Qed.

Lemma safe_modulo (P : R -> Prop) (i c : Z) :
  P (IZR c) -> Forall P (divisors (modulo i c)).
Proof. intros H. now repeat constructor. Qed.

Ltac safe_step :=
  match goal with
  | |- Forall _ (divisors (bind _ _)) => apply safe_bind; [|cbv beta]
  | |- Forall _ (divisors (ret _)) => constructor
  | |- Forall _ (divisors (divide _ _)) => apply safe_divide
  | |- Forall _ (divisors (modulo _ _)) => apply safe_modulo
  | |- Forall _ (divisors (forEach _ _)) => apply safe_forEach; intros ? ?
  | |- Forall _ (divisors (if ?c then _ else _)) => destruct c eqn:?
  | |- Forall _ (divisors (match ?l with [] => _ | _ :: _ => _ end)) =>
      destruct l eqn:?
  end.

Ltac safe_close :=
  first
    [ lra
    | apply not_0_IZR; cbn [value divide fst]; lia
    | apply not_0_IZR; cbn [value divide fst];
      match goal with
      | H : (0 <? ?n)%nat = true |- _ =>
          apply Nat.ltb_lt in H;
          destruct (grid_counts n H) as [_ [? [_ [_ [? _]]]]]; lia
      end ].

Lemma App_layout_safe (s : App.State) (W H : R) :
  (App.layoutMode s = grid -> App.loadedGridImages s <> []) ->
  Forall (fun d => d <> 0) (divisors (App.drawLayout s W H)).
Proof.
  intros Hg. unfold App.drawLayout.
  destruct (App.layoutMode s) eqn:Hm; cbv zeta.
  - specialize (Hg eq_refl).
    assert (Hn : (1 <= List.length (App.loadedGridImages s))%nat).
    { destruct (App.loadedGridImages s); [congruence | simpl; lia]. }
    destruct (grid_counts _ Hn) as [_ [Hc [_ [_ [Hr _]]]]].
    repeat safe_step; safe_close.
  - repeat safe_step; safe_close.
  - repeat safe_step; safe_close.
  - repeat safe_step; safe_close.
  - repeat safe_step; safe_close.
  - repeat safe_step; safe_close.
  - apply safe_forEach. intros a i.
    destruct (Js.find _ _), (x a), (y a), (width a), (height a);
      try constructor.
    destruct (App.is_selected _ _); repeat safe_step; lra.
Qed.

Lemma Worker_layout_safe (W H sx sy : R) (st : WorkerStatePayload)
    (bm : WorkerBitmapsPayload) :
  (w_layoutMode st = grid -> b_grid bm <> []) ->
  Forall (fun d => d <> 0) (divisors (Worker.drawLayout W H sx sy st bm)).
Proof.
  intros Hg. unfold Worker.drawLayout.
  destruct (w_layoutMode st) eqn:Hm; cbv zeta.
  - specialize (Hg eq_refl).
    assert (Hn : (1 <= List.length (b_grid bm))%nat).
    { destruct (b_grid bm); [congruence | simpl; lia]. }
    destruct (grid_counts _ Hn) as [_ [Hc [_ [_ [Hr _]]]]].
    repeat safe_step; safe_close.
  - repeat safe_step; safe_close.
  - repeat safe_step; safe_close.
  - repeat safe_step; safe_close.
  - repeat safe_step; safe_close.
  - repeat safe_step; safe_close.
  - apply safe_forEach. intros a i.
    destruct (Js.at_index _ _), (s_x a), (s_y a), (s_width a), (s_height a);
      constructor.
Qed.

(** X21.  No division by zero in the cell computation.  Every division by
    which the layout stage computes the positions and sizes of its cells
    (by a column count, a row count or a constant; the remainder and the
    quotient of an index by the column count included) has a non-zero
    divisor, on the page and in the export, in every layout mode and for
    every canvas size, gap and number of pictures, with one exception: the
    grid mode without any decoded picture, where the first division is of
    zero by the zero column count; nothing is painted then.  The divisions
    inside the [drawImage] helper, by the height of the picture or of the
    cell, are not part of this statement. *)
Theorem layout_never_divides_by_zero :
  (forall (s : App.State) (W H : R),
      (App.layoutMode s = grid -> App.loadedGridImages s <> []) ->
      Forall (fun d => d <> 0) (divisors (App.drawLayout s W H)))
  /\ (forall (W H sx sy : R) (st : WorkerStatePayload)
        (bm : WorkerBitmapsPayload),
      (w_layoutMode st = grid -> b_grid bm <> []) ->
      Forall (fun d => d <> 0)
        (divisors (Worker.drawLayout W H sx sy st bm)))
  /\ (forall (s : App.State) (W H : R),
      App.layoutMode s = grid -> App.loadedGridImages s = [] ->
      hd_error (divisors (App.drawLayout s W H)) = Some 0
      /\ value (App.drawLayout s W H) = []).
Proof.
  split; [exact App_layout_safe|]. split; [exact Worker_layout_safe|].
  intros s W H Hm Hl. split.
  - unfold App.drawLayout. rewrite Hm, Hl. cbv zeta.
    rewrite divisors_bind. cbn [divisors divide snd app hd_error List.length].
    rewrite (Math_ceil_sqrt 0). reflexivity.
  - apply App_layout_empty; [exact Hl|]. rewrite Hm. discriminate.
Qed.

Lemma layout_never_divides_by_zero_witness :
  Forall (fun d => d <> 0) (divisors (App.drawLayout twoImagesAndText 800 600)).
Proof.
  apply (proj1 layout_never_divides_by_zero twoImagesAndText 800 600).
  intros _. discriminate.
Defined.

(** ** Stacking values stay distinct *)

Lemma restack_distinct (i : string) (zf : R) (l : list ImageState) :
  NoDup (map id l) -> NoDup (map stackKey l) ->
  (forall b, In b l -> stackKey b <> zf) ->
  NoDup (map stackKey
           (map (fun img =>
                   if Js.str_eqb (id img) i then App.with_zIndex img zf
                   else img) l)).
Proof.
  induction l as [|a l IH]; intros Hid Hk Hz; [constructor|].
  simpl in Hid, Hk. inversion Hid as [|? ? Hnid Hid']. subst.
  inversion Hk as [|? ? Hnk Hk']. subst.
  cbn [map]. destruct (Js.str_eqb (id a) i) eqn:Ea.
  - apply str_eqb_eq in Ea.
    assert (E : map (fun img =>
                       if Js.str_eqb (id img) i
                       then App.with_zIndex img zf else img) l = l).
    { rewrite <- (map_id l) at 2. apply map_ext_in. intros b Hb.
      destruct (Js.str_eqb (id b) i) eqn:Eb; [|reflexivity].
      apply str_eqb_eq in Eb. exfalso. apply Hnid. rewrite Ea, <- Eb.
      now apply in_map. }
    rewrite E. constructor; [|exact Hk'].
    intros Hin. apply in_map_iff in Hin as [b [Eb Hb]].
    apply (Hz b); [now right | exact Eb].
  - constructor.
    + intros Hin. apply in_map_iff in Hin as [b' [Eb' Hb']].
      apply in_map_iff in Hb' as [b [Eb Hb]]. subst b'.
      destruct (Js.str_eqb (id b) i).
      * apply (Hz a); [now left|]. now rewrite <- Eb'.
      * apply Hnk. rewrite <- Eb'. now apply in_map.
    + apply IH; auto. intros b Hb. apply Hz. now right.
Qed.

Lemma stacked_bringToFront (i : string) (l : list ImageState) :
  NoDup (map id l) -> NoDup (map stackKey l) ->
  NoDup (map id (App.bringToFront i l))
  /\ NoDup (map stackKey (App.bringToFront i l)).
Proof.
  intros Hid Hk. split; [now rewrite ids_bringToFront|].
  apply restack_distinct; auto. intros b Hb.
  pose proof (below_front l b Hb). unfold stackKey. lra.
Qed.

Lemma stacked_sendToBack (i : string) (l : list ImageState) :
  NoDup (map id l) -> NoDup (map stackKey l) ->
  NoDup (map id (App.sendToBack i l))
  /\ NoDup (map stackKey (App.sendToBack i l)).
Proof.
  intros Hid Hk. split; [now rewrite ids_sendToBack|].
  apply restack_distinct; auto. intros b Hb.
  pose proof (above_back l b Hb). unfold stackKey. lra.
Qed.

Lemma removal_keeps_distinct {B : Type} (key : ImageState -> B)
    (i : string) (imgs : list ImageState) :
  NoDup (map key imgs) ->
  NoDup (map key
           (filter (fun img => negb (Js.str_eqb (id img) i)) imgs)).
Proof.
  intros Hnd. induction imgs as [|a rest IH]; [constructor|].
  cbn [map] in Hnd. inversion Hnd as [|? ? Hfresh Hrest]. subst.
  cbn [filter]. destruct (negb (Js.str_eqb (id a) i)); [|now apply IH].
  cbn [map]. constructor; [|now apply IH].
  intros Hin. apply Hfresh. apply in_map_iff in Hin as [b [E Hb]].
  apply filter_In in Hb as [Hb _]. rewrite <- E. now apply in_map.
Qed.

Lemma NoDup_map_inj {A B : Type} (f : A -> B) (l : list A) :
  (forall u v, f u = f v -> u = v) -> NoDup l -> NoDup (map f l).
Proof.
  intros Hinj. induction 1 as [|a l Hn _ IH]; simpl; constructor; auto.
  intros Hin. apply in_map_iff in Hin as [b [E Hb]].
  apply Hinj in E. now subst.
Qed.

Lemma uploaded_fields (base : R) (files : list App.UploadedFile) (k : nat) :
  let new :=
    mapi_from k
      (fun file index =>
         mkImageState (App.uuid file) (App.objectURL file)
           (Some (50 + INR index * 30)) (Some (50 + INR index * 30))
           (Some 300) (Some 200) (Some (base + INR index + 1)))
      files in
  map id new = map App.uuid files
  /\ map stackKey new
     = map (fun j => base + INR j + 1) (seq k (List.length files)).
Proof.
  revert k. induction files as [|f files IH]; intros k; [now split|].
  cbn [mapi_from map List.length seq]. destruct (IH (S k)) as [E1 E2].
  split; [now rewrite E1 | now rewrite E2].
Qed.

Lemma stacked_upload (files : list App.UploadedFile) (s : App.State) :
  wellStacked s ->
  NoDup (map id (App.images s) ++ map App.uuid files) ->
  wellStacked (App.handleImageUpload files s).
Proof.
  intros [Hid Hk] Hfresh. unfold wellStacked, App.handleImageUpload.
  cbn [App.setImages App.images]. unfold mapi.
  set (base := match map (fun i => Js.or0 (zIndex i)) (App.images s) with
               | z :: zs => Js.Math_max z zs
               | [] => 0
               end).
  destruct (uploaded_fields base files 0) as [E1 E2].
  rewrite !map_app, E1, E2. split; [exact Hfresh|].
  apply NoDup_app; [exact Hk| |].
  - apply NoDup_map_inj; [|apply seq_NoDup].
    intros u v E. apply INR_eq. lra.
  - intros v Hv Hnew.
    apply in_map_iff in Hv as [b [Eb Hb]].
    apply in_map_iff in Hnew as [j [Ej _]].
    destruct (upload_base_is_max (App.images s)) as [_ [_ Hmax]].
    specialize (Hmax b Hb). fold base in Hmax.
    pose proof (pos_INR j). unfold stackKey in Eb. lra.
Qed.

Lemma stacked_pointer (measureText : string -> R -> string -> R)
    (e : App.Event) (s : App.State) :
  wellStacked s -> wellStacked (App.step measureText e s).
Proof.
  intros [Hid Hk]. destruct e as [mx my | mx my |]; cbn [App.step].
  - unfold App.handleMouseDown.
    destruct (App.hitTextLayer measureText (App.textLayers s) mx my);
      [now split|].
    destruct (LayoutMode_eqb (App.layoutMode s) freeform); [|now split].
    destruct (App.scanImages _ _ _ _) as [[c m]|]; [|now split].
    destruct (App.is_selected (App.selectedImageId s) (id c)), m;
      try (now split);
      exact (stacked_bringToFront (id c) (App.images s) Hid Hk).
  - unfold wellStacked.
    pose proof (step_content measureText (App.MouseMove mx my) s) as Hc.
    destruct (content_images _ _ Hc) as [Hi _]. cbn [App.step] in Hi.
    rewrite Hi. split; [exact Hid|].
    assert (E : map stackKey (App.images (App.handleMouseMove mx my s))
                = map stackKey (App.images s)); [|now rewrite E].
    unfold App.handleMouseMove.
    destruct (App.mode (App.interactionState s)); [reflexivity| |];
      (destruct (App.target (App.interactionState s)) as [[|]|];
         [| |reflexivity];
       (destruct (Js.truthy (App.ist_id (App.interactionState s)));
         [|reflexivity]));
      try reflexivity;
      cbn [App.setImages App.images]; apply map_keeps; intros a;
      destruct (negb _); try reflexivity.
    destruct (x a), (y a); reflexivity.
  - now split.
Qed.

Lemma act_stacked (measureText : string -> R -> string -> R) (a : Action)
    (s : App.State) :
  wellStacked s -> freshUpload a s -> wellStacked (act measureText a s).
Proof.
  intros Hw Hf. destruct a; cbn [act freshUpload] in *.
  - now apply stacked_pointer.
  - now apply stacked_upload.
  - unfold App.thumbnailClick.
    destruct (LayoutMode_eqb (App.layoutMode s) freeform); [|exact Hw].
    destruct Hw as [Hid Hk].
    exact (stacked_bringToFront i (App.images s) Hid Hk).
  - destruct Hw as [Hid Hk]. unfold wellStacked, App.removeImage.
    cbn [App.setImages App.images].
    split; now apply removal_keeps_distinct.
  - destruct Hw as [Hid Hk].
    destruct (drop_perm target dragged s) as [Hp _].
    split.
    + apply (Permutation_NoDup
               (Permutation_sym (Permutation_map id Hp)) Hid).
    + apply (Permutation_NoDup
               (Permutation_sym (Permutation_map stackKey Hp)) Hk).
  - unfold App.frontButton.
    destruct (App.selectedImage s) as [img|]; [|exact Hw].
    destruct (LayoutMode_eqb (App.layoutMode s) freeform); [|exact Hw].
    destruct Hw as [Hid Hk].
    exact (stacked_bringToFront (id img) (App.images s) Hid Hk).
  - unfold App.backButton.
    destruct (App.selectedImage s) as [img|]; [|exact Hw].
    destruct (LayoutMode_eqb (App.layoutMode s) freeform); [|exact Hw].
    destruct Hw as [Hid Hk].
    exact (stacked_sendToBack (id img) (App.images s) Hid Hk).
  - exact Hw.
  - exact Hw.
  - unfold App.updateSelectedLayer.
    destruct (negb (Js.truthy (App.selectedTextId s))); exact Hw.
  - exact Hw.
  - unfold App.deleteTextLayer.
    destruct (App.is_selected (App.selectedTextId s) i); exact Hw.
Qed.

(** X22.  Stacking values stay distinct.  Start from a state in which the
    images have distinct identifiers and distinct stacking values
    ([zIndex || 0]); the freshly mounted page is one.  Whatever the user
    does then (pointer events, uploads whose new identifiers are fresh,
    clicks, removals and drops of thumbnails, the front and back buttons,
    layout changes, text layer edits), identifiers and stacking values
    remain distinct: an upload stacks the new images above all others in
    file order, bringing to front and sending to back use a value beyond
    all others, every other action keeps the values.  So the order in
    which free placement paints, and the order in which a click scans, never
    depend on how the sort breaks a tie. *)
Theorem stacking_stays_distinct
    (measureText : string -> R -> string -> R) (actions : list Action)
    (s : App.State) :
  wellStacked s ->
  freshAll measureText actions s ->
  wellStacked (session measureText actions s).
Proof.
  revert s. induction actions as [|a rest IH]; intros s Hw Hf; [exact Hw|].
  cbn [session]. destruct Hf as [Hf1 Hf2].
  apply IH; [|exact Hf2]. now apply act_stacked.
Qed.

Lemma initialState_stacked : wellStacked initialState.
Proof. split; constructor. Qed.

Lemma sampleSession_fresh : freshAll sampleMetrics sampleSession initialState.
Proof.
  cbn [freshAll sampleSession freshUpload].
  split; [|repeat split].
  cbn. repeat constructor; simpl; intuition discriminate.
Qed.

Lemma stacking_stays_distinct_witness :
  wellStacked (session sampleMetrics sampleSession initialState).
Proof.
  exact (stacking_stays_distinct sampleMetrics sampleSession initialState
           initialState_stacked sampleSession_fresh).
Defined.

(** ** A click picks the image that is seen *)



